(** * Index notation for tensors: [sage.tensor.modules.tensor_with_indices]

    A shallow embedding of the class [TensorWithIndices] and a
    verification of its documented behaviour.  The tensor itself is an
    external collaborator: it is abstracted by the class [Tensor] below
    and every result is stated for an arbitrary implementation of it. *)

From Stdlib Require Import Ascii String.
From Stdlib Require Import List ZArith Lia Bool Arith.
From Stdlib Require Import Permutation.
Import ListNotations.
Local Open Scope Z_scope.

(* ================================================================= *)
(** ** Python strings and the [str] methods the source calls *)

Module PyStr.

(** A Python [str] as the list of its characters.  A character is one
    of the 256 values of [ascii]: a byte of a Python 2 [str], or a code
    point below 256 of a Python 3 one.  The source tests a character for
    being a letter, a dot or one of its punctuation marks only, so that
    a code point beyond them behaves as any byte that is none of
    these. *)
Definition str := list ascii.

(** A string literal. *)
Definition lit (s : string) : str := list_ascii_of_string s.

Definition eqc (a b : ascii) : bool := Ascii.eqb a b.

(** [s == u] *)
Fixpoint eqs (s u : str) : bool :=
  match s, u with
  | [], [] => true
  | a :: s', b :: u' => eqc a b && eqs s' u'
  | _, _ => false
  end.

(** [len(s)] *)
Definition len (s : str) : Z := Z.of_nat (length s).

(** [c in s], for a one-character [c]. *)
Definition contains (c : ascii) (s : str) : bool := existsb (eqc c) s.

(** [s.replace(c, '')], for a one-character [c]. *)
Definition remove_char (c : ascii) (s : str) : str :=
  filter (fun x => negb (eqc x c)) s.

(** [s.count(c)], for a one-character [c]. *)
Definition count (c : ascii) (s : str) : Z :=
  Z.of_nat (length (filter (eqc c) s)).

(** [s.index(c)]: the position of the first occurrence, [None] when
    Python raises [ValueError]. *)
Fixpoint index (c : ascii) (s : str) : option Z :=
  match s with
  | [] => None
  | x :: s' => if eqc x c then Some 0
               else option_map Z.succ (index c s')
  end.

(** [s.split(c)], for a one-character separator [c]. *)
Fixpoint split (c : ascii) (s : str) : list str :=
  match s with
  | [] => [[]]
  | x :: s' =>
      if eqc x c then [] :: split c s'
      else match split c s' with
           | [] => [[x]]
           | w :: ws => (x :: w) :: ws
           end
  end.

(** [set(s)], as the list of the distinct characters of [s]. *)
Fixpoint distinct (s : str) : str :=
  match s with
  | [] => []
  | x :: s' => if contains x s' then distinct s' else x :: distinct s'
  end.

(** Python's reading of a slice bound [i] on a sequence of length [n]:
    a negative bound counts from the end, and bounds are clamped. *)
Definition bound (n : nat) (i : Z) : nat :=
  Z.to_nat (if i <? 0 then Z.max 0 (Z.of_nat n + i)
            else Z.min i (Z.of_nat n)).

(** [s[i:j]], [s[:j]] and [s[i:]]. *)
Definition slice (s : str) (i j : Z) : str :=
  firstn (bound (length s) j - bound (length s) i)
         (skipn (bound (length s) i) s).
Definition slice_to (s : str) (j : Z) : str := firstn (bound (length s) j) s.
Definition slice_from (s : str) (i : Z) : str := skipn (bound (length s) i) s.

(** [s[i]]: [None] when Python raises [IndexError]. *)
Definition getitem (s : str) (i : Z) : option ascii :=
  if i <? 0 then
    (if Z.of_nat (length s) + i <? 0 then None
     else nth_error s (Z.to_nat (Z.of_nat (length s) + i)))
  else nth_error s (Z.to_nat i).

(** [range(a, b)] *)
Definition range (a b : Z) : list Z :=
  map (fun k => a + Z.of_nat k) (seq 0 (Z.to_nat (b - a))).

End PyStr.

(* ================================================================= *)
(** ** Regular expressions as used through Python's [re] *)

Module Regex.

Import PyStr.

(** The fragment of the [re] syntax that occurs in the source.  A
    character class is a list of inclusive ranges. *)
Inductive regex : Type :=
| Void : regex
| Eps : regex
| Chr : ascii -> regex
| Cls : list (ascii * ascii) -> regex
| Alt : regex -> regex -> regex
| Seq : regex -> regex -> regex
| Star : regex -> regex.

(** [r+] and [r{2,}] *)
Definition Plus (r : regex) : regex := Seq r (Star r).
Definition AtLeast2 (r : regex) : regex := Seq r (Seq r (Star r)).

Definition in_range (c : ascii) (p : ascii * ascii) : bool :=
  (nat_of_ascii (fst p) <=? nat_of_ascii c)%nat
  && (nat_of_ascii c <=? nat_of_ascii (snd p))%nat.

Definition in_class (cl : list (ascii * ascii)) (c : ascii) : bool :=
  existsb (in_range c) cl.

(** The language of a regular expression. *)
Inductive Lang : regex -> str -> Prop :=
| LEps : Lang Eps []
| LChr c : Lang (Chr c) [c]
| LCls cl c : in_class cl c = true -> Lang (Cls cl) [c]
| LAltL r1 r2 s : Lang r1 s -> Lang (Alt r1 r2) s
| LAltR r1 r2 s : Lang r2 s -> Lang (Alt r1 r2) s
| LSeq r1 r2 s1 s2 : Lang r1 s1 -> Lang r2 s2 -> Lang (Seq r1 r2) (s1 ++ s2)
| LStar0 r : Lang (Star r) []
| LStarS r s1 s2 : Lang r s1 -> Lang (Star r) s2 -> Lang (Star r) (s1 ++ s2).

Fixpoint nullable (r : regex) : bool :=
  match r with
  | Void => false
  | Eps => true
  | Chr _ => false
  | Cls _ => false
  | Alt r1 r2 => nullable r1 || nullable r2
  | Seq r1 r2 => nullable r1 && nullable r2
  | Star _ => true
  end.

Fixpoint deriv (c : ascii) (r : regex) : regex :=
  match r with
  | Void => Void
  | Eps => Void
  | Chr d => if eqc d c then Eps else Void
  | Cls cl => if in_class cl c then Eps else Void
  | Alt r1 r2 => Alt (deriv c r1) (deriv c r2)
  | Seq r1 r2 =>
      if nullable r1 then Alt (Seq (deriv c r1) r2) (deriv c r2)
      else Seq (deriv c r1) r2
  | Star r1 => Seq (deriv c r1) (Star r1)
  end.

(** Whether the whole of [s] is a word of [r]. *)
Fixpoint matches (r : regex) (s : str) : bool :=
  match s with
  | [] => nullable r
  | c :: s' => matches (deriv c r) s'
  end.

Definition newline : ascii := ascii_of_nat 10.

(** [re.match("^" + r + "$", s) is not None], for an [r] without
    anchors.  Without the MULTILINE flag [^] matches at the start of
    the string only, and [$] matches at the end of the string and also
    just before a newline that is the last character of the string. *)
Definition match_anchored (r : regex) (s : str) : bool :=
  matches r s
  || match rev s with
     | c :: p => eqc c newline && matches r (rev p)
     | [] => false
     end.

(** The end of a match of [r] that starts at the head of [s]: the
    candidates are tried from the longest. *)
Definition match_prefix (r : regex) (s : str) : option nat :=
  find (fun j => matches r (firstn j s)) (rev (seq 0 (S (length s)))).

(** [re.search(r, s).span()]: the match at the leftmost position where
    one starts, [None] when [re.search] returns [None].  Python's
    matcher returns, at that position, the first match in its
    backtracking order; the one pattern searched for in the source has
    at most one match at a position (lemma [first_sym_one_match] below), so
    that the choice among the matches at one position is immaterial. *)
Fixpoint search (r : regex) (s : str) : option (nat * nat) :=
  match match_prefix r s with
  | Some n => Some (0%nat, n)
  | None =>
      match s with
      | [] => None
      | _ :: s' =>
          option_map (fun sp => (S (fst sp), S (snd sp))) (search r s')
      end
  end.

End Regex.

(* ================================================================= *)
(** ** The tensor collaborator *)

(** What the source asks of a tensor, whatever its implementation: its
    type [(k, l)] (attribute [_tensor_type]), and the methods
    [symmetrize( *pos )], [antisymmetrize( *pos )], [trace(pos1, pos2)],
    [contract( *(pos1 + [other] + pos2))] and the product [*].  A value
    of [T] is a Python value, that is a reference to a tensor object;
    equal values are the same object. *)
Class Tensor (T : Type) : Type := {
  tensor_type : T -> nat * nat;
  symmetrize : T -> list Z -> T;
  antisymmetrize : T -> list Z -> T;
  trace : T -> Z -> Z -> T;
  tensor_product : T -> T -> T;
  contract : T -> list Z -> T -> list Z -> T
}.

(** What the tensor library guarantees of the types of its results:
    (anti)symmetrization keeps the type, and the trace on a contravariant
    and a covariant position of a type-[(k, l)] tensor has type
    [(k-1, l-1)]. *)
Class TensorLaws (T : Type) `{Tensor T} : Prop := {
  symmetrize_type : forall t pos, tensor_type (symmetrize t pos) = tensor_type t;
  antisymmetrize_type :
    forall t pos, tensor_type (antisymmetrize t pos) = tensor_type t;
  trace_type :
    forall t pos1 pos2,
      0 <= pos1 < Z.of_nat (fst (tensor_type t)) ->
      Z.of_nat (fst (tensor_type t)) <= pos2
        < Z.of_nat (fst (tensor_type t)) + Z.of_nat (snd (tensor_type t)) ->
      tensor_type (trace t pos1 pos2)
      = (Nat.pred (fst (tensor_type t)), Nat.pred (snd (tensor_type t)))
}.
Arguments TensorLaws T {_}.

(** The free implementation: a tensor is a name with a type, or the
    record of the call that produced it.  Two free tensors are equal
    when they come from the same calls on the same arguments. *)
Module Free.

Inductive tensor : Type :=
| Named (name : string) (k l : nat)
| Symmetrize (t : tensor) (pos : list Z)
| Antisymmetrize (t : tensor) (pos : list Z)
| Trace (t : tensor) (pos1 pos2 : Z)
| Product (t u : tensor)
| Contract (t : tensor) (pos1 : list Z) (u : tensor) (pos2 : list Z).

Fixpoint type_of (t : tensor) : nat * nat :=
  match t with
  | Named _ k l => (k, l)
  | Symmetrize t _ => type_of t
  | Antisymmetrize t _ => type_of t
  | Trace t _ _ => (Nat.pred (fst (type_of t)), Nat.pred (snd (type_of t)))
  | Product t u =>
      (fst (type_of t) + fst (type_of u), snd (type_of t) + snd (type_of u))%nat
  | Contract t pos1 u _ =>
      (fst (type_of t) + fst (type_of u) - length pos1,
       snd (type_of t) + snd (type_of u) - length pos1)%nat
  end.

#[global] Instance free_tensor : Tensor tensor := {
  tensor_type := type_of;
  symmetrize := Symmetrize;
  antisymmetrize := Antisymmetrize;
  trace := Trace;
  tensor_product := Product;
  contract := Contract
}.

End Free.

(* ================================================================= *)
(** ** Exceptions *)

Inductive exn : Type := ValueError | IndexError | TypeError.

(** The outcome of a call: a value, a raised exception, or [OutOfFuel]
    when the bound that the model gives to a [while] loop is used up
    (lemma [init_terminates]: this never happens). *)
Inductive result (A : Type) : Type :=
| Ok : A -> result A
| Raise : exn -> result A
| OutOfFuel : result A.
Arguments Ok {A} _.
Arguments Raise {A} _.
Arguments OutOfFuel {A}.

Definition bind {A B : Type} (m : result A) (k : A -> result B) : result B :=
  match m with
  | Ok a => k a
  | Raise e => Raise e
  | OutOfFuel => OutOfFuel
  end.

Notation "x <- m ;; k" := (bind m (fun x => k))
  (at level 61, m at next level, right associativity).
Notation "' p <- m ;; k" := (bind m (fun x => match x with p => k end))
  (at level 61, p pattern, m at next level, right associativity).

(* ================================================================= *)
(** ** The arithmetic of the tensors

    What the methods [_repr_], [__eq__], [__rmul__], [__pos__] and
    [__neg__] ask of the tensor they hold, besides the interface
    [Tensor]: [tensor_name t] is the attribute [t._name] when [t] has
    one that is not [None]; [tensor_pos t] is [+t], [tensor_neg t] is
    [-t], [tensor_scal x t] is [x*t] for [x] a scalar; [tensor_eq t u]
    is [t == u], which the library may refuse by raising (components
    with no common basis). *)
Class TensorArith (T : Type) `{Tensor T} : Type := {
  scalar : Type;
  tensor_name : T -> option PyStr.str;
  tensor_pos : T -> T;
  tensor_neg : T -> T;
  tensor_scal : scalar -> T -> T;
  tensor_eq : T -> T -> result bool
}.
Arguments TensorArith T {_}.

(** What the tensor library guarantees of them: the three operations
    return a tensor of the type of their argument, and a tensor is
    equal to itself. *)
Class TensorArithLaws (T : Type) `{TensorArith T} : Prop := {
  tensor_pos_type : forall t, tensor_type (tensor_pos t) = tensor_type t;
  tensor_neg_type : forall t, tensor_type (tensor_neg t) = tensor_type t;
  tensor_scal_type : forall x t, tensor_type (tensor_scal x t) = tensor_type t;
  tensor_eq_refl : forall t, tensor_eq t t = Ok true
}.
Arguments TensorArithLaws T {_ _}.

(** The free implementation with its arithmetic: the calls of [Free],
    and the three operations; the scalars are the integers.  The name
    of [+t] is that of [t] after a [+], likewise for [-t], and the
    other results have no name, as in the library. *)
Module FreeArith.

Inductive tensor : Type :=
| Named (name : string) (k l : nat)
| Symmetrize (t : tensor) (pos : list Z)
| Antisymmetrize (t : tensor) (pos : list Z)
| Trace (t : tensor) (pos1 pos2 : Z)
| Product (t u : tensor)
| Contract (t : tensor) (pos1 : list Z) (u : tensor) (pos2 : list Z)
| Pos (t : tensor)
| Neg (t : tensor)
| Scal (x : Z) (t : tensor).

Fixpoint type_of (t : tensor) : nat * nat :=
  match t with
  | Named _ k l => (k, l)
  | Symmetrize t _ => type_of t
  | Antisymmetrize t _ => type_of t
  | Trace t _ _ => (Nat.pred (fst (type_of t)), Nat.pred (snd (type_of t)))
  | Product t u =>
      (fst (type_of t) + fst (type_of u), snd (type_of t) + snd (type_of u))%nat
  | Contract t pos1 u _ =>
      (fst (type_of t) + fst (type_of u) - length pos1,
       snd (type_of t) + snd (type_of u) - length pos1)%nat
  | Pos t => type_of t
  | Neg t => type_of t
  | Scal _ t => type_of t
  end.

Fixpoint name_of (t : tensor) : option PyStr.str :=
  match t with
  | Named name _ _ => Some (PyStr.lit name)
  | Pos t => option_map (cons "+"%char) (name_of t)
  | Neg t => option_map (cons "-"%char) (name_of t)
  | _ => None
  end.

Fixpoint positions_eqb (p q : list Z) : bool :=
  match p, q with
  | [], [] => true
  | x :: p', y :: q' => (x =? y) && positions_eqb p' q'
  | _, _ => false
  end.

(** Two free tensors are equal when they come from the same calls. *)
Fixpoint eqb (t u : tensor) : bool :=
  match t, u with
  | Named n k l, Named n' k' l' =>
      String.eqb n n' && Nat.eqb k k' && Nat.eqb l l'
  | Symmetrize t p, Symmetrize u q => eqb t u && positions_eqb p q
  | Antisymmetrize t p, Antisymmetrize u q => eqb t u && positions_eqb p q
  | Trace t p1 p2, Trace u q1 q2 => eqb t u && (p1 =? q1) && (p2 =? q2)
  | Product t1 t2, Product u1 u2 => eqb t1 u1 && eqb t2 u2
  | Contract t1 p1 t2 p2, Contract u1 q1 u2 q2 =>
      eqb t1 u1 && positions_eqb p1 q1 && eqb t2 u2 && positions_eqb p2 q2
  | Pos t, Pos u => eqb t u
  | Neg t, Neg u => eqb t u
  | Scal x t, Scal y u => (x =? y) && eqb t u
  | _, _ => false
  end.

#[global] Instance free_tensor : Tensor tensor := {
  tensor_type := type_of;
  symmetrize := Symmetrize;
  antisymmetrize := Antisymmetrize;
  trace := Trace;
  tensor_product := Product;
  contract := Contract
}.

#[global] Instance free_arith : TensorArith tensor := {
  scalar := Z;
  tensor_name := name_of;
  tensor_pos := Pos;
  tensor_neg := Neg;
  tensor_scal := Scal;
  tensor_eq := fun t u => Ok (eqb t u)
}.

End FreeArith.

(* ================================================================= *)
(** ** The class [TensorWithIndices] *)

Module TWI.

Import PyStr Regex.

(** The patterns of [__init__]. *)

(** [[a-zA-Z.]] *)
Definition letters : regex := Cls [("a", "z"); ("A", "Z"); (".", ".")]%char.

(** [allowed_pattern =
     r"(\([a-zA-Z.]{2,}\)|\[[a-zA-Z.]{2,}\]|[a-zA-Z.]+)*"] *)
Definition allowed_pattern : regex :=
  Star (Alt (Seq (Chr "(") (Seq (AtLeast2 letters) (Chr ")")))
       (Alt (Seq (Chr "[") (Seq (AtLeast2 letters) (Chr "]")))
            (Plus letters))).

(** [con_then_cov =
     r"^(\^|)" + allowed_pattern + r"(\_" + allowed_pattern + r"|)$"],
    between its anchors. *)
Definition con_then_cov : regex :=
  Seq (Alt (Chr "^") Eps)
      (Seq allowed_pattern (Alt (Seq (Chr "_") allowed_pattern) Eps)).

(** [cov_then_con =
     r"^\_" + allowed_pattern + r"(\^" + allowed_pattern + r"|)$"],
    between its anchors. *)
Definition cov_then_con : regex :=
  Seq (Chr "_")
      (Seq allowed_pattern (Alt (Seq (Chr "^") allowed_pattern) Eps)).

(** [first_sym_regex = r"(\(|\[)[a-zA-Z.]*[)\]]"] *)
Definition first_sym_regex : regex :=
  Seq (Alt (Chr "(") (Chr "["))
      (Seq (Star letters) (Cls [(")", ")"); ("]", "]")]%char)).

(** [indices.replace('{','').replace('}','')] *)
Definition strip_braces (indices : str) : str :=
  remove_char "}" (remove_char "{" indices).

(** The convention check and the split into the two parts (the [if],
    [elif], [else] on the two patterns): the result is [(con, cov)]. *)
Definition split_indices (indices : str) : result (str * str) :=
  if negb (match_anchored con_then_cov indices)
     && negb (match_anchored cov_then_con indices)
  then Raise ValueError
  else if match_anchored con_then_cov indices then
    match split "_" (remove_char "^" indices) with
    | [con; cov] => Ok (con, cov)
    | _ => Ok (remove_char "^" indices, [])
    end
  else
    match split "^" (slice_from indices 1) with
    | [cov; con] => Ok (con, cov)
    | _ => Ok ([], slice_from indices 1)
    end.

(** [s.replace("(","").replace(")","").replace("[","").replace("]","")] *)
Definition without_sym (s : str) : str :=
  remove_char "]" (remove_char "[" (remove_char ")" (remove_char "(" s))).

(** [len(s) != len(set(s)) + max(s.count(".")-1, 0)] *)
Definition repeated_indices (s : str) : bool :=
  negb (len s =? len (distinct s) + Z.max (count "." s - 1) 0).

Section WithTensor.

Context {T : Type} `{Tensor T}.

(** An instance: the attributes [_tensor], [_changed], [_con], [_cov]. *)
Record TensorWithIndices : Type := {
  _tensor : T;
  _changed : bool;
  _con : str;
  _cov : str
}.

(** The two [while re.search(first_sym_regex, ...)] loops of [__init__]
    on the local string [con] (then [cov]), the tensor and the flag.
    They differ by the offset added to the positions only: none for the
    contravariant part, [self._tensor._tensor_type[0]] for the covariant
    one, read off the tensor held at that iteration.  The match found is
    [con[start:stop]], and [first_sym.groups()[0]] is its first
    character, [con[sym1:sym1+1]]. *)
Fixpoint sym_loop (offset : T -> Z) (fuel : nat)
                  (tensor : T) (changed : bool) (con : str)
  : result (T * bool * str) :=
  match search first_sym_regex con with
  | None => Ok (tensor, changed, con)
  | Some (start, stop) =>
      match fuel with
      | O => OutOfFuel
      | S fuel' =>
          let sym1 := Z.of_nat start in
          let sym2 := Z.of_nat stop - 1 in
          let positions :=
            range (offset tensor + sym1) (offset tensor + sym2 - 1) in
          let tensor' :=
            if eqs (slice con sym1 (sym1 + 1)) (lit "(")
            then symmetrize tensor positions
            else antisymmetrize tensor positions in
          sym_loop offset fuel' tensor' true
                   (slice_to con sym1 ++ slice con (sym1 + 1) sym2
                      ++ slice_from con (sym2 + 1))
      end
  end.

Definition con_offset (tensor : T) : Z := 0.
Definition cov_offset (tensor : T) : Z := Z.of_nat (fst (tensor_type tensor)).

(** [for ind in self._con: if ind != '.' and ind in self._cov: ...]:
    the list of contraction pairs, in the order of the appends. *)
Fixpoint contraction_pairs_of (todo : str) (self : TensorWithIndices)
                              (contraction_pair_list : list (Z * Z))
  : result (list (Z * Z)) :=
  match todo with
  | [] => Ok contraction_pair_list
  | ind :: todo' =>
      if negb (eqc ind ".") && contains ind (_cov self) then
        match index ind (_con self), index ind (_cov self) with
        | Some i, Some j =>
            let pos1 := i in
            let pos2 := Z.of_nat (fst (tensor_type (_tensor self))) + j in
            contraction_pairs_of todo' self
                                 (contraction_pair_list ++ [(pos1, pos2)])
        | _, _ => Raise ValueError
        end
      else contraction_pairs_of todo' self contraction_pair_list
  end.

(** [contraction_pair_list.pop()]: the list without its last element,
    and that element. *)
Definition pop (l : list (Z * Z)) : option (list (Z * Z) * (Z * Z)) :=
  match rev l with
  | [] => None
  | p :: _ => Some (removelast l, p)
  end.

(** The body of [for contraction_pair in contraction_pair_list] on one
    pair. *)
Definition renumber (pos1 pos2 : Z) (contraction_pair : Z * Z) : Z * Z :=
  let c0 := fst contraction_pair in
  let c1 := snd contraction_pair in
  let c0 := if c0 >? pos1 then c0 - 1 else c0 in
  let c1 := if c1 >? pos2 then c1 - 1 else c1 in
  let c1 := c1 - 1 in
  (c0, c1).

(** [while contraction_pair_list: ...] *)
Fixpoint contraction_loop (fuel : nat) (contraction_pair_list : list (Z * Z))
                          (self : TensorWithIndices)
  : result TensorWithIndices :=
  match pop contraction_pair_list with
  | None => Ok self
  | Some (contraction_pair_list', (pos1, pos2)) =>
      match fuel with
      | O => OutOfFuel
      | S fuel' =>
          let tensor' := trace (_tensor self) pos1 pos2 in
          let contraction_pair_list'' :=
            map (renumber pos1 pos2) contraction_pair_list' in
          match getitem (_con self) pos1 with
          | None => Raise IndexError
          | Some ind =>
              contraction_loop fuel' contraction_pair_list''
                {| _tensor := tensor';
                   _changed := true;
                   _con := remove_char ind (_con self);
                   _cov := remove_char ind (_cov self) |}
          end
      end
  end.

(** The last part of [__init__], "Treatment of possible
    self-contractions", on the instance as the two loops above left it. *)
Definition self_contractions (self : TensorWithIndices)
  : result TensorWithIndices :=
  contraction_pair_list <- contraction_pairs_of (_con self) self [] ;;
  contraction_loop (length contraction_pair_list) contraction_pair_list self.

(** The first part of [__init__]: the braces, the two patterns and the
    two tests on repeated indices.  The result is [(con, cov)]. *)
Definition check_conventions (indices : str) : result (str * str) :=
  let indices := strip_braces indices in
  '(con, cov) <- split_indices indices ;;
  let con_without_sym := without_sym con in
  let cov_without_sym := without_sym cov in
  if repeated_indices con_without_sym then Raise ValueError
  else if repeated_indices cov_without_sym then Raise ValueError
  else Ok (con, cov).

(** [TensorWithIndices.__init__(self, tensor, indices)]: the instance
    built, or the exception raised. *)
Definition __init__ (tensor : T) (indices : str) : result TensorWithIndices :=
  '(con, cov) <- check_conventions indices ;;
  let con_without_sym := without_sym con in
  let cov_without_sym := without_sym cov in
  if negb (len con_without_sym =? Z.of_nat (fst (tensor_type tensor)))
  then Raise IndexError
  else if negb (len cov_without_sym =? Z.of_nat (snd (tensor_type tensor)))
  then Raise IndexError
  else
    '(tensor1, changed1, con') <-
       sym_loop con_offset (length con) tensor false con ;;
    '(tensor2, changed2, cov') <-
       sym_loop cov_offset (length cov) tensor1 changed1 cov ;;
    self_contractions {| _tensor := tensor2; _changed := changed2;
                         _con := con'; _cov := cov' |}.

(** The values that reach [__mul__] and leave [update]: a tensor (or
    the scalar a full contraction gives), or an instance of
    [TensorWithIndices]. *)
Inductive value : Type :=
| VTensor : T -> value
| VIndexed : TensorWithIndices -> value.

(** [TensorWithIndices.update(self)].  No object is built: what is
    returned is the tensor held, or the receiver itself. *)
Definition update (self : TensorWithIndices) : value :=
  if _changed self then VTensor (_tensor self) else VIndexed self.

(** The first [for] loop of [__mul__], on the indices of [self._con]
    still to visit. *)
Fixpoint mul_con_loop (todo : str) (self other : TensorWithIndices)
                      (contraction_pairs : list (Z * Z))
  : result (list (Z * Z)) :=
  match todo with
  | [] => Ok contraction_pairs
  | ind :: todo' =>
      if negb (eqc ind ".") then
        contraction_pairs' <-
          (if contains ind (_cov other) then
             match index ind (_con self), index ind (_cov other) with
             | Some i, Some j =>
                 let pos1 := i in
                 let pos2 :=
                   Z.of_nat (fst (tensor_type (_tensor other))) + j in
                 Ok (contraction_pairs ++ [(pos1, pos2)])
             | _, _ => Raise ValueError
             end
           else Ok contraction_pairs) ;;
        if contains ind (_con other) then Raise IndexError
        else mul_con_loop todo' self other contraction_pairs'
      else mul_con_loop todo' self other contraction_pairs
  end.

(** The second [for] loop of [__mul__], on the indices of [self._cov]. *)
Fixpoint mul_cov_loop (todo : str) (self other : TensorWithIndices)
                      (contraction_pairs : list (Z * Z))
  : result (list (Z * Z)) :=
  match todo with
  | [] => Ok contraction_pairs
  | ind :: todo' =>
      if negb (eqc ind ".") then
        contraction_pairs' <-
          (if contains ind (_con other) then
             match index ind (_cov self), index ind (_con other) with
             | Some i, Some j =>
                 let pos1 :=
                   Z.of_nat (fst (tensor_type (_tensor self))) + i in
                 let pos2 := j in
                 Ok (contraction_pairs ++ [(pos1, pos2)])
             | _, _ => Raise ValueError
             end
           else Ok contraction_pairs) ;;
        if contains ind (_cov other) then Raise IndexError
        else mul_cov_loop todo' self other contraction_pairs'
      else mul_cov_loop todo' self other contraction_pairs
  end.

(** [TensorWithIndices.__mul__(self, other)] *)
Definition __mul__ (self : TensorWithIndices) (other : value) : result T :=
  match other with
  | VTensor _ => Raise TypeError
  | VIndexed other =>
      contraction_pairs <- mul_con_loop (_con self) self other [] ;;
      contraction_pairs <-
        mul_cov_loop (_cov self) self other contraction_pairs ;;
      match contraction_pairs with
      | [] => Ok (tensor_product (_tensor self) (_tensor other))
      | _ :: _ =>
          let pos1 := map fst contraction_pairs in
          let pos2 := map snd contraction_pairs in
          Ok (contract (_tensor self) pos1 (_tensor other) pos2)
      end
  end.

End WithTensor.

Section WithArith.

Context {T : Type} {HT : Tensor T} {HA : TensorArith T}.

(** [TensorWithIndices._repr_(self)] *)
Definition _repr_ (self : TensorWithIndices) : str :=
  let name := lit "X" in
  let name :=
    match tensor_name (_tensor self) with
    | Some n => n
    | None => name
    end in
  if eqs (_con self) (lit "") then
    if eqs (_cov self) (lit "") then lit "scalar"
    else name ++ lit "_" ++ _cov self
  else if eqs (_cov self) (lit "") then name ++ lit "^" ++ _con self
  else name ++ lit "^" ++ _con self ++ lit "_" ++ _cov self.

(** [TensorWithIndices.__eq__(self, other)]: the comparison of the
    tensors comes first and may raise; the parts are compared only when
    the tensors are equal. *)
Definition __eq__ (self : TensorWithIndices) (other : value) : result bool :=
  match other with
  | VTensor _ => Ok false
  | VIndexed other =>
      same <- tensor_eq (_tensor self) (_tensor other) ;;
      Ok (same && eqs (_con self) (_con other)
               && eqs (_cov self) (_cov other))
  end.

(** [TensorWithIndices.__ne__(self, other)] *)
Definition __ne__ (self : TensorWithIndices) (other : value) : result bool :=
  equal <- __eq__ self other ;; Ok (negb equal).

(** [TensorWithIndices.__rmul__(self, other)] *)
Definition __rmul__ (self : TensorWithIndices) (other : scalar)
  : result TensorWithIndices :=
  __init__ (tensor_scal other (_tensor self))
           (_con self ++ lit "_" ++ _cov self).

(** [TensorWithIndices.__pos__(self)] *)
Definition __pos__ (self : TensorWithIndices) : result TensorWithIndices :=
  __init__ (tensor_pos (_tensor self)) (_con self ++ lit "_" ++ _cov self).

(** [TensorWithIndices.__neg__(self)] *)
Definition __neg__ (self : TensorWithIndices) : result TensorWithIndices :=
  __init__ (tensor_neg (_tensor self)) (_con self ++ lit "_" ++ _cov self).

End WithArith.

(* ----------------------------------------------------------------- *)
(** *** Objects and their identity

    An instance is an object, and Python's [x is y] compares two
    objects by their identity, not by their attributes.  The instances
    live in a store, each under its reference; a call of the class
    puts a new object in the store, and a method receives the reference
    of its receiver.  The tensors stay values: they are the
    collaborator's. *)

Section WithStore.

Context {T : Type} `{Tensor T}.

(** [id(x)] *)
Definition ref : Type := nat.

(** The instances built so far; the object of reference [r] is the
    [r]-th. *)
Definition store : Type := list (@TensorWithIndices T).

Definition deref (objects : store) (self : ref)
  : option (@TensorWithIndices T) :=
  nth_error objects self.

(** What a method returns, with the instances told apart: a tensor, or
    the reference of an instance. *)
Inductive object : Type :=
| OTensor : T -> object
| OIndexed : ref -> object.

(** [x is y], for [y] the instance of reference [self].  A tensor is
    not an instance of [TensorWithIndices]. *)
Definition same_object (x : object) (self : ref) : bool :=
  match x with
  | OTensor _ => false
  | OIndexed r => Nat.eqb r self
  end.

(** [TensorWithIndices(tensor, indices)]: a new object, on which
    [__init__] runs; when [__init__] raises there is no object. *)
Definition new_instance (objects : store) (tensor : T) (indices : str)
  : result (store * ref) :=
  self <- __init__ tensor indices ;;
  Ok (objects ++ [self], length objects).

(** [TensorWithIndices.update(self)] on the object of reference
    [self]: the attributes are read, none is written and no object is
    built; [return self] returns the reference received.  [None] is a
    reference to no object. *)
Definition update_object (objects : store) (self : ref)
  : option (store * object) :=
  match deref objects self with
  | None => None
  | Some this =>
      if _changed this then Some (objects, OTensor (_tensor this))
      else Some (objects, OIndexed self)
  end.

End WithStore.

Arguments store T : clear implicits.
Arguments object T : clear implicits.

(* ----------------------------------------------------------------- *)
(** *** Definitions of the verification

    Nothing from here to the end of the module is in the source: these
    are the notions in which the properties of the class are stated,
    and those named [spec_...] follow the words of the specification. *)

(** The shape of a part *)

(** An index symbol: a letter or the dot. *)
Definition is_index_symbol (c : ascii) : bool :=
  in_class [("a", "z"); ("A", "Z"); (".", ".")]%char c.

Definition is_open (c : ascii) : bool := eqc c "(" || eqc c "[".
Definition is_close (c : ascii) : bool := eqc c ")" || eqc c "]".

(** A part read as a sequence of bare symbols and of groups; [paren]
    tells a parenthesis group from a bracket group. *)
Inductive item : Type :=
| Bare (c : ascii)
| Group (paren : bool) (symbols : str).

Definition opening (paren : bool) : ascii := if paren then "(" else "[".
Definition closing (paren : bool) : ascii := if paren then ")" else "]".

Fixpoint render (items : list item) : str :=
  match items with
  | [] => []
  | Bare c :: items' => c :: render items'
  | Group paren symbols :: items' =>
      opening paren :: symbols ++ closing paren :: render items'
  end.

Definition is_group (it : item) : bool :=
  match it with
  | Bare _ => false
  | Group _ _ => true
  end.

(** The symbols of the items, without the punctuation of the groups. *)
Fixpoint symbols_of (items : list item) : str :=
  match items with
  | [] => []
  | Bare c :: items' => c :: symbols_of items'
  | Group _ symbols :: items' => symbols ++ symbols_of items'
  end.

(** The items the pattern [allowed_pattern] allows, a newline being
    taken for a bare symbol when [nl] is set. *)
Definition item_ok (nl : bool) (it : item) : bool :=
  match it with
  | Bare c => is_index_symbol c || (nl && eqc c newline)
  | Group _ symbols =>
      forallb is_index_symbol symbols && (2 <=? length symbols)%nat
  end.

(** The groups of a part from left to right, each with its kind and
    the axes its symbols occupy, from [first] to [last - 1]: the axis of
    a symbol is the number of symbols on its left, counted from [axis].
    [opened] holds the group being read. *)
Fixpoint spec_groups_from (axis : Z) (opened : option (bool * Z)) (part : str)
  : list (bool * Z * Z) :=
  match part with
  | [] => []
  | c :: part' =>
      if eqc c "(" then spec_groups_from axis (Some (true, axis)) part'
      else if eqc c "[" then spec_groups_from axis (Some (false, axis)) part'
      else if is_close c then
        match opened with
        | Some (paren, first) =>
            (paren, first, axis) :: spec_groups_from axis None part'
        | None => spec_groups_from axis None part'
        end
      else spec_groups_from (axis + 1) opened part'
  end.

Definition spec_groups (part : str) : list (bool * Z * Z) :=
  spec_groups_from 0 None part.

(** The letters to contract *)

(** The position of the first [c] of [part]. *)
Fixpoint position (c : ascii) (part : str) : Z :=
  match part with
  | [] => 0
  | x :: part' => if eqc x c then 0 else 1 + position c part'
  end.

(** The letters of [con] that [cov] has too, in the order of [con]; the
    dot is not a letter. *)
Definition shared_letters (con cov : str) : str :=
  filter (fun c => negb (eqc c ".") && contains c cov) con.

(** No letter occurs twice in [part]; the dot may. *)
Definition letters_distinct (part : str) : Prop :=
  NoDup (remove_char "." part).

(** The letters [zs] are in [con] and in [cov], the first of them the
    rightmost in [con], and so on leftwards. *)
Fixpoint rightmost_first (con cov : str) (zs : str) : Prop :=
  match zs with
  | [] => True
  | x :: zs' =>
      x <> "."%char /\ In x con /\ In x cov
      /\ (forall y, In y zs' -> position y con < position x con)
      /\ rightmost_first con cov zs'
  end.

(** Whether a letter, not the dot, is in both [a] and [b]. *)
Definition collide (a b : str) : bool :=
  existsb (fun c => negb (eqc c ".") && contains c b) a.

(** The four ways through [split_indices]: the notation, and the two
    parts it is split into; [tail] is the newline that [$] lets
    through. *)
Inductive split_shape (s con cov : str) : Prop :=
| ShapeCon (hat a tail : str) :
    hat = [] \/ hat = ["^"%char] -> Lang allowed_pattern a ->
    tail = [] \/ tail = [newline] ->
    s = hat ++ a ++ tail -> con = a ++ tail -> cov = [] ->
    split_shape s con cov
| ShapeConCov (hat a b tail : str) :
    hat = [] \/ hat = ["^"%char] ->
    Lang allowed_pattern a -> Lang allowed_pattern b ->
    tail = [] \/ tail = [newline] ->
    s = hat ++ a ++ "_"%char :: b ++ tail -> con = a -> cov = b ++ tail ->
    split_shape s con cov
| ShapeCov (a tail : str) :
    Lang allowed_pattern a -> tail = [] \/ tail = [newline] ->
    s = "_"%char :: a ++ tail -> con = [] -> cov = a ++ tail ->
    split_shape s con cov
| ShapeCovCon (a b tail : str) :
    Lang allowed_pattern a -> Lang allowed_pattern b ->
    tail = [] \/ tail = [newline] ->
    s = "_"%char :: a ++ "^"%char :: b ++ tail -> cov = a -> con = b ++ tail ->
    split_shape s con cov.

(** The grammar of the specification *)

(** The notation as the specification words it: an optional [^] and the
    contravariant part, then possibly [_] and the covariant part; or
    [_] and the covariant part, then [^] and the contravariant part.  A
    part is a sequence of bare index symbols and of groups of two index
    symbols at least, and no letter occurs twice in a part. *)
Inductive spec_shape (s : str) (con cov : list item) : Prop :=
| SpecCon (hat : str) :
    hat = [] \/ hat = ["^"%char] -> cov = [] -> s = hat ++ render con ->
    spec_shape s con cov
| SpecConCov (hat : str) :
    hat = [] \/ hat = ["^"%char] ->
    s = hat ++ render con ++ "_"%char :: render cov ->
    spec_shape s con cov
| SpecCovCon :
    s = "_"%char :: render cov ++ "^"%char :: render con ->
    spec_shape s con cov.

Definition spec_well_formed (s : str) (con cov : list item) : Prop :=
  spec_shape s con cov
  /\ forallb (item_ok false) con = true
  /\ forallb (item_ok false) cov = true
  /\ letters_distinct (symbols_of con)
  /\ letters_distinct (symbols_of cov).

Section SpecWithTensor.

Context {T : Type} `{Tensor T}.

(** The calls the groups [gs] of a part stand for, in their order, each
    on the tensor the previous one returned. *)
Definition spec_apply_group (offset : T -> Z) (t : T) (g : bool * Z * Z)
  : T :=
  let '(paren, first, last) := g in
  if paren then symmetrize t (range (offset t + first) (offset t + last))
  else antisymmetrize t (range (offset t + first) (offset t + last)).

Definition spec_apply_groups (offset : T -> Z) (gs : list (bool * Z * Z))
           (t : T) : T :=
  fold_left (spec_apply_group offset) gs t.

(** The instance on which the self-contractions start: the groups of
    both parts applied, and the parts without their punctuation. *)
Definition spec_after_groups (tensor : T) (con cov : str)
  : TensorWithIndices :=
  {| _tensor := spec_apply_groups cov_offset (spec_groups cov)
                  (spec_apply_groups con_offset (spec_groups con) tensor);
     _changed := existsb is_open con || existsb is_open cov;
     _con := without_sym con;
     _cov := without_sym cov |}.

(** The self-contraction on one letter [c], as the documentation has
    it: the trace on the position of [c] in the contravariant part and
    on its position in the covariant part, the latter counted after the
    contravariant positions of the tensor held; [c] leaves both parts. *)
Definition spec_contract_letter (self : TensorWithIndices) (c : ascii)
  : TensorWithIndices :=
  {| _tensor :=
       trace (_tensor self) (position c (_con self))
             (Z.of_nat (fst (tensor_type (_tensor self)))
              + position c (_cov self));
     _changed := true;
     _con := remove_char c (_con self);
     _cov := remove_char c (_cov self) |}.

Definition spec_contract_letters (letters : str) (self : TensorWithIndices)
  : TensorWithIndices :=
  fold_left spec_contract_letter letters self.

(** The same with the number [p] of contravariant positions counted
    down by hand instead of read off the tensor. *)
Fixpoint contract_at (p : Z) (letters : str) (self : TensorWithIndices)
  : TensorWithIndices :=
  match letters with
  | [] => self
  | c :: letters' =>
      contract_at (p - 1) letters'
        {| _tensor :=
             trace (_tensor self) (position c (_con self))
                   (p + position c (_cov self));
           _changed := true;
           _con := remove_char c (_con self);
           _cov := remove_char c (_cov self) |}
  end.

(** The pairs of positions to contract, as the documentation has them:
    for each letter of the contravariant part of [self] that the
    covariant part of [other] has, then for each letter of the covariant
    part of [self] that the contravariant part of [other] has, its
    position in the tensor of [self] and its position in the tensor of
    [other]; a covariant position is counted after the contravariant
    positions of its own tensor. *)
Definition spec_cross_pairs (self other : TensorWithIndices) : list (Z * Z) :=
  map (fun c => (position c (_con self),
                 Z.of_nat (fst (tensor_type (_tensor other)))
                 + position c (_cov other)))
      (shared_letters (_con self) (_cov other))
  ++ map (fun c => (Z.of_nat (fst (tensor_type (_tensor self)))
                    + position c (_cov self),
                    position c (_con other)))
         (shared_letters (_cov self) (_con other)).

End SpecWithTensor.

(** The wildcards *)

(** A notation with the dot in the place of every index symbol. *)
Definition dot_of (c : ascii) : ascii :=
  if is_index_symbol c then "."%char else c.

Definition dots (s : str) : str := map dot_of s.

Definition dot_item (it : item) : item :=
  match it with
  | Bare c => Bare (dot_of c)
  | Group paren symbols => Group paren (dots symbols)
  end.

(** The axes of the groups *)

(** The groups [gs], in their order, lie one after the other between
    the axes [from] and [upto], each on two axes at least. *)
Fixpoint groups_apart (from upto : Z) (gs : list (bool * Z * Z)) : Prop :=
  match gs with
  | [] => from <= upto
  | (_, first, last) :: gs' =>
      from <= first /\ first + 2 <= last /\ groups_apart last upto gs'
  end.

Section SpecWithArith.

Context {T : Type} {HT : Tensor T} {HA : TensorArith T}.

(** The name under which the tensor of [self] is displayed. *)
Definition shown_name (self : TensorWithIndices) : str :=
  match tensor_name (_tensor self) with
  | Some n => n
  | None => lit "X"
  end.

End SpecWithArith.

Section SpecWithStore.

Context {T : Type} `{Tensor T}.

(** What an object of the store stands for once the identities are
    forgotten. *)
Definition value_of (objects : store T) (x : object T) : option value :=
  match x with
  | OTensor t => Some (VTensor t)
  | OIndexed r => option_map VIndexed (deref objects r)
  end.

(** Not in the source: what [update] would be if it returned a copy of
    its receiver instead of the receiver, for the comparison with
    [update_object]. *)
Definition update_by_copy (objects : store T) (self : ref)
  : option (store T * object T) :=
  match deref objects self with
  | None => None
  | Some this =>
      if _changed this then Some (objects, OTensor (_tensor this))
      else Some (objects ++ [this], OIndexed (length objects))
  end.

End SpecWithStore.

End TWI.

(* ================================================================= *)
(** ** The tensors of the docstrings *)

Import PyStr Regex TWI.

(** The tensors of the examples: [a] of type (2,0), [b] of type (0,2),
    [t = a*b] of type (2,2), [aa = a*a] of type (4,0). *)
Definition doc_a : Free.tensor := Free.Named "a" 2 0.
Definition doc_b : Free.tensor := Free.Named "b" 0 2.
Definition doc_t : Free.tensor := Free.Named "t" 2 2.
Definition doc_aa : Free.tensor := Free.Named "aa" 4 0.

(** [TensorWithIndices(tensor, indices).update()], as the square
    bracket operator of a tensor returns it. *)
Definition doc_getitem (tensor : Free.tensor) (indices : string)
  : result value :=
  self <- __init__ tensor (lit indices) ;; Ok (update self).

(* ================================================================= *)
(** ** Facts on strings *)

Lemma eqc_eq (a b : ascii) : eqc a b = true <-> a = b.
Proof. apply Ascii.eqb_eq. Qed.

Lemma eqc_neq (a b : ascii) : eqc a b = false <-> a <> b.
Proof. apply Ascii.eqb_neq. Qed.

Lemma eqc_refl (a : ascii) : eqc a a = true.
Proof. apply eqc_eq; reflexivity. Qed.

Lemma eqc_sym (a b : ascii) : eqc a b = eqc b a.
Proof.
  destruct (eqc a b) eqn:E.
  - apply eqc_eq in E; subst; symmetry; apply eqc_refl.
  - symmetry; apply eqc_neq; apply eqc_neq in E; congruence.
Qed.

Lemma contains_In (c : ascii) (s : str) : contains c s = true <-> In c s.
Proof.
  unfold contains; rewrite existsb_exists; split.
  - intros [x [Hx E]]; apply eqc_eq in E; subst; exact Hx.
  - intros Hc; exists c; split; [exact Hc | apply eqc_refl].
Qed.

Lemma contains_not_In (c : ascii) (s : str) :
  contains c s = false <-> ~ In c s.
Proof.
  rewrite <- contains_In; destruct (contains c s); split; congruence.
Qed.

Lemma In_remove_char (c x : ascii) (s : str) :
  In x (remove_char c s) <-> In x s /\ x <> c.
Proof.
  unfold remove_char; rewrite filter_In.
  rewrite negb_true_iff, eqc_neq; reflexivity.
Qed.

Lemma remove_char_app (c : ascii) (s u : str) :
  remove_char c (s ++ u) = remove_char c s ++ remove_char c u.
Proof. apply filter_app. Qed.

Lemma remove_char_id (c : ascii) (s : str) :
  ~ In c s -> remove_char c s = s.
Proof.
  induction s as [|x s IH]; simpl; intros Hn; [reflexivity|].
  destruct (eqc x c) eqn:E; simpl.
  - apply eqc_eq in E; subst; exfalso; apply Hn; left; reflexivity.
  - rewrite IH; [reflexivity | intros Hc; apply Hn; right; exact Hc].
Qed.

Lemma bound_of_nat (n i : nat) : bound n (Z.of_nat i) = Nat.min i n.
Proof.
  unfold bound.
  destruct (Z.ltb_spec (Z.of_nat i) 0); lia.
Qed.

Lemma slice_to_of_nat (s : str) (i : nat) :
  slice_to s (Z.of_nat i) = firstn i s.
Proof.
  unfold slice_to; rewrite bound_of_nat.
  destruct (Nat.le_ge_cases i (length s)) as [Hle|Hge].
  - rewrite Nat.min_l by exact Hle; reflexivity.
  - rewrite Nat.min_r by exact Hge.
    rewrite !firstn_all2 by lia; reflexivity.
Qed.

Lemma slice_from_of_nat (s : str) (i : nat) :
  slice_from s (Z.of_nat i) = skipn i s.
Proof.
  unfold slice_from; rewrite bound_of_nat.
  destruct (Nat.le_ge_cases i (length s)) as [Hle|Hge].
  - rewrite Nat.min_l by exact Hle; reflexivity.
  - rewrite Nat.min_r by exact Hge.
    rewrite !skipn_all2 by lia; reflexivity.
Qed.

Lemma slice_of_nat (s : str) (i j : nat) :
  (i <= j <= length s)%nat ->
  slice s (Z.of_nat i) (Z.of_nat j) = firstn (j - i) (skipn i s).
Proof.
  intros Hij; unfold slice; rewrite !bound_of_nat.
  rewrite !Nat.min_l by lia; reflexivity.
Qed.

(** The slices of [__init__] on a string cut around a group. *)
Lemma slices_around (pre mid post : str) (o c : ascii) :
  let s := pre ++ o :: mid ++ c :: post in
  let sym1 := Z.of_nat (length pre) in
  let sym2 := Z.of_nat (length pre + length mid + 2) - 1 in
  slice s sym1 (sym1 + 1) = [o]
  /\ slice_to s sym1 ++ slice s (sym1 + 1) sym2 ++ slice_from s (sym2 + 1)
     = pre ++ mid ++ post.
Proof.
  intros s sym1 sym2.
  assert (Hlen : length s = (length pre + S (length mid + S (length post)))%nat).
  { unfold s; rewrite length_app; simpl; rewrite length_app; simpl; lia. }
  assert (E1 : sym1 + 1 = Z.of_nat (S (length pre))) by (unfold sym1; lia).
  assert (E2 : sym2 = Z.of_nat (S (length pre + length mid))) by (unfold sym2; lia).
  assert (E3 : sym2 + 1 = Z.of_nat (S (S (length pre + length mid)))) by lia.
  assert (Sk1 : skipn (length pre) s = o :: mid ++ c :: post).
  { unfold s; rewrite skipn_app, skipn_all, Nat.sub_diag; reflexivity. }
  assert (Sk2 : skipn (S (length pre)) s = mid ++ c :: post).
  { replace (S (length pre)) with (1 + length pre)%nat by lia.
    rewrite <- skipn_skipn, Sk1; reflexivity. }
  assert (Sk3 : skipn (S (S (length pre + length mid))) s = post).
  { replace (S (S (length pre + length mid)))
      with (S (length mid) + S (length pre))%nat by lia.
    rewrite <- skipn_skipn, Sk2.
    replace (S (length mid)) with (length mid + 1)%nat by lia.
    rewrite skipn_app.
    rewrite skipn_all2 by lia.
    replace (length mid + 1 - length mid)%nat with 1%nat by lia.
    reflexivity. }
  split.
  - rewrite E1; unfold sym1; rewrite slice_of_nat by lia.
    rewrite Sk1; replace (S (length pre) - length pre)%nat with 1%nat by lia.
    reflexivity.
  - rewrite E1, E3; unfold sym1; rewrite slice_to_of_nat, slice_from_of_nat.
    rewrite E2, slice_of_nat by lia.
    rewrite Sk2, Sk3.
    replace (S (length pre + length mid) - S (length pre))%nat
      with (length mid + 0)%nat by lia.
    rewrite firstn_app_2; simpl; rewrite app_nil_r.
    unfold s; rewrite firstn_app, firstn_all, Nat.sub_diag; simpl.
    rewrite app_nil_r; reflexivity.
Qed.

(* ================================================================= *)
(** ** The matcher decides the language *)

Lemma nullable_Lang (r : regex) : nullable r = true <-> Lang r [].
Proof.
  split.
  - induction r; simpl; intros Hn; try discriminate.
    + constructor.
    + apply orb_true_iff in Hn as [Hn|Hn];
        [apply LAltL | apply LAltR]; auto.
    + apply andb_true_iff in Hn as [H1 H2].
      apply (@LSeq r1 r2 [] []); auto.
    + constructor.
  - intros HL; remember [] as w eqn:Ew.
    induction HL; simpl; try discriminate; try reflexivity.
    + rewrite IHHL by exact Ew; reflexivity.
    + rewrite IHHL by exact Ew; apply orb_true_r.
    + apply app_eq_nil in Ew as [E1 E2].
      rewrite IHHL1, IHHL2 by assumption; reflexivity.
Qed.

Lemma deriv_Lang (c : ascii) (r : regex) (s : str) :
  Lang (deriv c r) s <-> Lang r (c :: s).
Proof.
  split.
  - revert s; induction r; simpl; intros s HL.
    + inversion HL.
    + inversion HL.
    + destruct (eqc a c) eqn:E; inversion HL; subst.
      apply eqc_eq in E; subst; constructor.
    + destruct (in_class l c) eqn:E; inversion HL; subst.
      constructor; exact E.
    + inversion HL; subst; [apply LAltL | apply LAltR]; auto.
    + destruct (nullable r1) eqn:N.
      * inversion HL as [| | |? ? ? HS|? ? ? HR| | |]; subst.
        -- inversion HS; subst.
           apply (@LSeq r1 r2 (c :: s1) s2); auto.
        -- apply (@LSeq r1 r2 [] (c :: s)); auto.
           apply nullable_Lang; exact N.
      * inversion HL; subst.
        apply (@LSeq r1 r2 (c :: s1) s2); auto.
    + inversion HL; subst.
      apply (@LStarS r (c :: s1) s2); auto.
  - intros HL; remember (c :: s) as w eqn:Ew; revert s Ew.
    induction HL; intros s' Ew; simpl; try discriminate.
    + injection Ew as E1 E2; subst; rewrite eqc_refl; constructor.
    + injection Ew as E1 E2; subst; rewrite H; constructor.
    + apply LAltL; auto.
    + apply LAltR; auto.
    + destruct s1 as [|x s1]; simpl in Ew.
      * assert (N : nullable r1 = true) by (apply nullable_Lang; exact HL1).
        rewrite N; apply LAltR; auto.
      * injection Ew as E1 E2; subst.
        destruct (nullable r1); [apply LAltL|]; constructor; auto.
    + destruct s1 as [|x s1]; simpl in Ew.
      * auto.
      * injection Ew as E1 E2; subst; constructor; auto.
Qed.

Lemma matches_Lang (r : regex) (s : str) : matches r s = true <-> Lang r s.
Proof.
  revert r; induction s as [|c s IH]; intros r; simpl.
  - apply nullable_Lang.
  - rewrite IH; apply deriv_Lang.
Qed.

(* ================================================================= *)
(** ** The languages of the patterns of [__init__] *)

Lemma in_range_single (c d : ascii) : in_range c (d, d) = true <-> c = d.
Proof.
  unfold in_range; simpl; rewrite andb_true_iff, !Nat.leb_le; split.
  - intros [H1 H2].
    rewrite <- (ascii_nat_embedding c), <- (ascii_nat_embedding d).
    f_equal; lia.
  - intros ->; lia.
Qed.

Lemma is_close_spec (c : ascii) :
  in_class [(")", ")"); ("]", "]")]%char c = is_close c.
Proof.
  unfold in_class, is_close; simpl; rewrite orb_false_r.
  assert (E : forall d, in_range c (d, d) = eqc c d).
  { intros d; destruct (eqc c d) eqn:E.
    - apply in_range_single, eqc_eq; exact E.
    - destruct (in_range c (d, d)) eqn:R; [|reflexivity].
      apply in_range_single in R; apply eqc_neq in E; contradiction. }
  rewrite !E; reflexivity.
Qed.

Lemma index_symbol_not_open (c : ascii) :
  is_index_symbol c = true -> is_open c = false.
Proof.
  intros Hc; unfold is_open.
  destruct (eqc c "(") eqn:E1; [apply eqc_eq in E1; subst; discriminate|].
  destruct (eqc c "[") eqn:E2; [apply eqc_eq in E2; subst; discriminate|].
  reflexivity.
Qed.

Lemma index_symbol_not_close (c : ascii) :
  is_index_symbol c = true -> is_close c = false.
Proof.
  intros Hc; unfold is_close.
  destruct (eqc c ")") eqn:E1; [apply eqc_eq in E1; subst; discriminate|].
  destruct (eqc c "]") eqn:E2; [apply eqc_eq in E2; subst; discriminate|].
  reflexivity.
Qed.

Lemma Lang_letters (w : str) :
  Lang letters w <-> exists c, w = [c] /\ is_index_symbol c = true.
Proof.
  split.
  - intros HL; inversion HL; subst; eauto.
  - intros [c [-> Hc]]; constructor; exact Hc.
Qed.

Lemma Lang_star_letters (w : str) :
  Lang (Star letters) w <-> forallb is_index_symbol w = true.
Proof.
  split.
  - intros HL; remember (Star letters) as r eqn:Er.
    induction HL; try discriminate; [reflexivity|].
    injection Er as ->.
    apply Lang_letters in HL1 as [c [-> Hc]].
    simpl; rewrite Hc; auto.
  - induction w as [|c w IH]; simpl; intros Hw; [constructor|].
    apply andb_true_iff in Hw as [Hc Hw].
    apply (@LStarS letters [c] w); [constructor; exact Hc | auto].
Qed.

Lemma Lang_chr (c : ascii) (w : str) : Lang (Chr c) w <-> w = [c].
Proof.
  split; [intros HL; inversion HL; reflexivity | intros ->; constructor].
Qed.

Lemma Lang_seq (r1 r2 : regex) (w : str) :
  Lang (Seq r1 r2) w <-> exists u v, w = u ++ v /\ Lang r1 u /\ Lang r2 v.
Proof.
  split.
  - intros HL; inversion HL; subst; eauto.
  - intros [u [v [-> [H1 H2]]]]; constructor; assumption.
Qed.

Lemma Lang_alt (r1 r2 : regex) (w : str) :
  Lang (Alt r1 r2) w <-> Lang r1 w \/ Lang r2 w.
Proof.
  split.
  - intros HL; inversion HL; subst; auto.
  - intros [H1|H2]; [apply LAltL | apply LAltR]; assumption.
Qed.

Lemma Lang_eps (w : str) : Lang Eps w <-> w = [].
Proof.
  split; [intros HL; inversion HL; reflexivity | intros ->; constructor].
Qed.

(** A word of [first_sym_regex]: an opening character, index symbols,
    a closing character. *)
Lemma Lang_first_sym (w : str) :
  Lang first_sym_regex w <->
  exists o symbols c,
    w = o :: symbols ++ [c] /\ is_open o = true
    /\ forallb is_index_symbol symbols = true /\ is_close c = true.
Proof.
  unfold first_sym_regex; rewrite Lang_seq; split.
  - intros [u [v [-> [Hu Hv]]]].
    apply Lang_seq in Hv as [a [b [-> [Ha Hb]]]].
    apply Lang_star_letters in Ha.
    inversion Hb as [| |cl c Hc| | | | |]; subst.
    rewrite is_close_spec in Hc.
    apply Lang_alt in Hu as [Hu|Hu]; apply Lang_chr in Hu; subst;
      eexists; exists a, c; repeat split; auto.
  - intros [o [symbols [c [-> [Ho [Hs Hc]]]]]].
    exists [o], (symbols ++ [c]); split; [reflexivity|]; split.
    + unfold is_open in Ho; apply orb_true_iff in Ho as [Ho|Ho];
        apply eqc_eq in Ho; subst; [apply LAltL | apply LAltR]; constructor.
    + constructor; [apply Lang_star_letters; exact Hs|].
      constructor; rewrite is_close_spec; exact Hc.
Qed.

(* ================================================================= *)
(** ** Searching for the first group *)

Lemma find_downwards_some (P : nat -> bool) (n j0 : nat) :
  (j0 <= n)%nat -> P j0 = true ->
  (forall j, (j0 < j <= n)%nat -> P j = false) ->
  find P (rev (seq 0 (S n))) = Some j0.
Proof.
  induction n as [|n IH]; intros Hle Hj0 Hgt.
  - assert (j0 = 0%nat) by lia; subst; simpl; rewrite Hj0; reflexivity.
  - rewrite seq_S, rev_app_distr; simpl.
    destruct (Nat.eq_dec j0 (S n)) as [->|Hne].
    + rewrite Hj0; reflexivity.
    + rewrite (Hgt (S n)) by lia.
      apply IH; [lia | exact Hj0 | intros j Hj; apply Hgt; lia].
Qed.

Lemma find_downwards_none (P : nat -> bool) (n : nat) :
  (forall j, (j <= n)%nat -> P j = false) ->
  find P (rev (seq 0 (S n))) = None.
Proof.
  induction n as [|n IH]; intros Hall.
  - simpl; rewrite Hall by lia; reflexivity.
  - rewrite seq_S, rev_app_distr; simpl.
    rewrite Hall by lia; apply IH; intros j Hj; apply Hall; lia.
Qed.

Lemma matches_false (r : regex) (s : str) :
  ~ Lang r s -> matches r s = false.
Proof.
  intros Hn; destruct (matches r s) eqn:E; [|reflexivity].
  apply matches_Lang in E; contradiction.
Qed.

(** No match of [first_sym_regex] starts on a character that does not
    open a group. *)
Lemma match_prefix_not_open (x : ascii) (s : str) :
  is_open x = false -> match_prefix first_sym_regex (x :: s) = None.
Proof.
  intros Hx; unfold match_prefix; apply find_downwards_none; intros j _.
  apply matches_false; intros HL.
  apply Lang_first_sym in HL as [o [symbols [c [E [Ho _]]]]].
  destruct j; simpl in E; [discriminate|].
  injection E as -> _; congruence.
Qed.

(** At an opening character followed by index symbols and a closing
    character there is one match exactly: the group. *)
Lemma first_sym_unique (o c : ascii) (symbols rest : str) (j : nat) :
  forallb is_index_symbol symbols = true -> is_close c = true ->
  (j <= length (o :: symbols ++ c :: rest))%nat ->
  Lang first_sym_regex (firstn j (o :: symbols ++ c :: rest)) ->
  j = (length symbols + 2)%nat.
Proof.
  intros Hs Hc Hj HL.
  apply Lang_first_sym in HL as [o' [symbols' [c' [E [_ [Hs' Hc']]]]]].
  destruct j; simpl in E; [discriminate|].
  injection E as _ E.
  (* the first closing character of both sides is at the same place *)
  assert (Hfirst : forall (a b : str) (x y : ascii) (k : nat) (tl : str),
             forallb is_index_symbol a = true -> is_close x = true ->
             forallb is_index_symbol b = true -> is_close y = true ->
             (k <= length (a ++ x :: tl))%nat ->
             firstn k (a ++ x :: tl) = b ++ [y] -> k = S (length a)).
  { clear. induction a as [|a0 a IH]; intros b x y k tl Ha Hx Hb Hy Hk E.
    - destruct k; simpl in E; [destruct b; discriminate|].
      destruct b as [|b0 b]; simpl in E.
      + injection E as _ E; destruct k; [reflexivity|].
        destruct tl; simpl in E; [simpl in Hk; lia | discriminate].
      + injection E as -> _; simpl in Hb.
        apply andb_true_iff in Hb as [Hb _].
        apply index_symbol_not_close in Hb; congruence.
    - simpl in Ha; apply andb_true_iff in Ha as [Ha0 Ha].
      destruct k; simpl in E; [destruct b; discriminate|].
      destruct b as [|b0 b]; simpl in E.
      + injection E as -> E.
        apply index_symbol_not_close in Ha0; congruence.
      + injection E as _ E; simpl in Hb.
        apply andb_true_iff in Hb as [_ Hb].
        simpl; f_equal; apply (IH b x y k tl); auto.
        simpl in Hk; lia. }
  apply Hfirst in E; auto; [lia | simpl in Hj; lia].
Qed.

(** No two matches of [first_sym_regex] start at the same place. *)
Lemma first_sym_one_match (s : str) (j1 j2 : nat) :
  (j1 <= j2 <= length s)%nat ->
  Lang first_sym_regex (firstn j1 s) -> Lang first_sym_regex (firstn j2 s) ->
  j1 = j2.
Proof.
  intros Hj H1 H2.
  pose proof (Lang_first_sym (firstn j2 s)) as [F _].
  destruct (F H2) as [o [symbols [c [E [_ [Hs Hc]]]]]].
  assert (E1 : firstn j1 s = firstn j1 (o :: symbols ++ c :: [])).
  { rewrite <- E, firstn_firstn, Nat.min_l by lia; reflexivity. }
  assert (L2 : length (firstn j2 s) = j2) by (apply firstn_length_le; lia).
  rewrite E in L2; simpl in L2; rewrite length_app in L2; simpl in L2.
  rewrite E1 in H1.
  apply first_sym_unique in H1; auto; [lia|].
  simpl; rewrite length_app; simpl; lia.
Qed.

Lemma match_prefix_group (o c : ascii) (symbols rest : str) :
  is_open o = true -> forallb is_index_symbol symbols = true ->
  is_close c = true ->
  match_prefix first_sym_regex (o :: symbols ++ c :: rest)
  = Some (length symbols + 2)%nat.
Proof.
  intros Ho Hs Hc; unfold match_prefix.
  assert (Hlen : length (o :: symbols ++ c :: rest)
                 = (length symbols + 2 + length rest)%nat).
  { simpl; rewrite length_app; simpl; lia. }
  apply find_downwards_some.
  - lia.
  - apply matches_Lang, Lang_first_sym.
    exists o, symbols, c; repeat split; auto.
    replace (length symbols + 2)%nat with (S (length symbols + 1)) by lia.
    simpl; f_equal.
    rewrite firstn_app.
    rewrite firstn_all2 by lia.
    replace (length symbols + 1 - length symbols)%nat with 1%nat by lia.
    reflexivity.
  - intros j Hj; apply matches_false; intros HL.
    apply first_sym_unique in HL; auto; lia.
Qed.

Lemma search_nil : search first_sym_regex [] = None.
Proof. reflexivity. Qed.

Lemma search_skip (pre s : str) :
  forallb (fun c => negb (is_open c)) pre = true ->
  search first_sym_regex (pre ++ s)
  = option_map (fun sp => (length pre + fst sp, length pre + snd sp)%nat)
               (search first_sym_regex s).
Proof.
  induction pre as [|x pre IH]; intros Hpre.
  - simpl app; simpl length.
    destruct (search first_sym_regex s) as [[a b]|]; reflexivity.
  - simpl in Hpre; apply andb_true_iff in Hpre as [Hx Hpre].
    apply negb_true_iff in Hx.
    change ((x :: pre) ++ s) with (x :: pre ++ s).
    cbn [search]; rewrite match_prefix_not_open by exact Hx.
    rewrite IH by exact Hpre.
    destruct (search first_sym_regex s) as [[a b]|]; reflexivity.
Qed.

Lemma search_group (pre : str) (o c : ascii) (symbols rest : str) :
  forallb (fun c => negb (is_open c)) pre = true ->
  is_open o = true -> forallb is_index_symbol symbols = true ->
  is_close c = true ->
  search first_sym_regex (pre ++ o :: symbols ++ c :: rest)
  = Some (length pre, length pre + length symbols + 2)%nat.
Proof.
  intros Hpre Ho Hs Hc; rewrite search_skip by exact Hpre.
  cbn [search]; rewrite match_prefix_group by assumption.
  simpl; f_equal; f_equal; lia.
Qed.

Lemma search_no_group (pre : str) :
  forallb (fun c => negb (is_open c)) pre = true ->
  search first_sym_regex pre = None.
Proof.
  intros Hpre; rewrite <- (app_nil_r pre), search_skip by exact Hpre.
  reflexivity.
Qed.

(* ================================================================= *)
(** ** The two loops on the groups *)

Lemma item_ok_bare_not_open (nl : bool) (c : ascii) :
  item_ok nl (Bare c) = true -> is_open c = false.
Proof.
  simpl; intros Hc; apply orb_true_iff in Hc as [Hc|Hc].
  - apply index_symbol_not_open; exact Hc.
  - apply andb_true_iff in Hc as [_ Hc]; apply eqc_eq in Hc; subst.
    reflexivity.
Qed.

Lemma item_ok_bare_not_close (nl : bool) (c : ascii) :
  item_ok nl (Bare c) = true -> is_close c = false.
Proof.
  simpl; intros Hc; apply orb_true_iff in Hc as [Hc|Hc].
  - apply index_symbol_not_close; exact Hc.
  - apply andb_true_iff in Hc as [_ Hc]; apply eqc_eq in Hc; subst.
    reflexivity.
Qed.

Lemma symbols_not_open (symbols : str) :
  forallb is_index_symbol symbols = true ->
  forallb (fun c => negb (is_open c)) symbols = true.
Proof.
  rewrite !forallb_forall; intros Hs c Hc.
  rewrite (index_symbol_not_open _ (Hs c Hc)); reflexivity.
Qed.

Lemma is_open_opening (paren : bool) : is_open (opening paren) = true.
Proof. destruct paren; reflexivity. Qed.

Lemma is_close_closing (paren : bool) : is_close (closing paren) = true.
Proof. destruct paren; reflexivity. Qed.

Lemma groups_from_symbols (axis : Z) (opened : option (bool * Z))
      (symbols rest : str) :
  forallb is_index_symbol symbols = true ->
  spec_groups_from axis opened (symbols ++ rest)
  = spec_groups_from (axis + len symbols) opened rest.
Proof.
  revert axis; induction symbols as [|c symbols IH]; intros axis Hs.
  - unfold len; simpl; rewrite Z.add_0_r; reflexivity.
  - simpl in Hs; apply andb_true_iff in Hs as [Hc Hs].
    pose proof (index_symbol_not_open _ Hc) as Ho.
    pose proof (index_symbol_not_close _ Hc) as Hcl.
    unfold is_open in Ho; apply orb_false_iff in Ho as [Ho1 Ho2].
    simpl; rewrite Ho1, Ho2, Hcl, IH by exact Hs.
    f_equal; unfold len; simpl length; lia.
Qed.

Lemma groups_from_bare (nl : bool) (axis : Z) (opened : option (bool * Z))
      (c : ascii) (rest : str) :
  item_ok nl (Bare c) = true ->
  spec_groups_from axis opened (c :: rest) = spec_groups_from (axis + 1) opened rest.
Proof.
  intros Hc.
  pose proof (item_ok_bare_not_open _ _ Hc) as Ho.
  pose proof (item_ok_bare_not_close _ _ Hc) as Hcl.
  unfold is_open in Ho; apply orb_false_iff in Ho as [Ho1 Ho2].
  simpl; rewrite Ho1, Ho2, Hcl; reflexivity.
Qed.

Lemma groups_from_group (axis : Z) (paren : bool) (symbols rest : str) :
  forallb is_index_symbol symbols = true ->
  spec_groups_from axis None (opening paren :: symbols ++ closing paren :: rest)
  = (paren, axis, axis + len symbols)
      :: spec_groups_from (axis + len symbols) None rest.
Proof.
  intros Hs.
  assert (E : forall o,
             spec_groups_from axis (Some (paren, axis))
                         (symbols ++ closing paren :: rest)
             = (paren, axis, axis + len symbols)
                 :: spec_groups_from (axis + len symbols) o rest
             -> o = None ->
             spec_groups_from axis None
                         (opening paren :: symbols ++ closing paren :: rest)
             = (paren, axis, axis + len symbols)
                 :: spec_groups_from (axis + len symbols) None rest).
  { intros o E ->; destruct paren; simpl; exact E. }
  apply (E None); [|reflexivity].
  rewrite groups_from_symbols by exact Hs.
  destruct paren; reflexivity.
Qed.

Section GroupLoops.

Context {T : Type} {HT : Tensor T}.

Lemma sym_loop_done (offset : T -> Z) (fuel : nat) (t : T) (ch : bool)
      (con : str) :
  search first_sym_regex con = None ->
  sym_loop offset fuel t ch con = Ok (t, ch, con).
Proof. intros E; destruct fuel; simpl; rewrite E; reflexivity. Qed.

Lemma sym_loop_step (offset : T -> Z) (fuel : nat) (t : T) (ch : bool)
      (con : str) (start stop : nat) :
  search first_sym_regex con = Some (start, stop) ->
  sym_loop offset (S fuel) t ch con
  = let sym1 := Z.of_nat start in
    let sym2 := Z.of_nat stop - 1 in
    let positions := range (offset t + sym1) (offset t + sym2 - 1) in
    sym_loop offset fuel
      (if eqs (slice con sym1 (sym1 + 1)) (lit "(")
       then symmetrize t positions else antisymmetrize t positions)
      true
      (slice_to con sym1 ++ slice con (sym1 + 1) sym2
         ++ slice_from con (sym2 + 1)).
Proof. intros E; simpl; rewrite E; reflexivity. Qed.

(** On a part made of well-formed items the loop applies the groups
    from left to right and leaves the symbols. *)
Lemma sym_loop_items (nl : bool) (offset : T -> Z) (items : list item) :
  forallb (item_ok nl) items = true ->
  forall (pre : str) (fuel : nat) (t : T) (ch : bool),
    forallb (fun c => negb (is_open c)) pre = true ->
    (length (filter is_group items) <= fuel)%nat ->
    sym_loop offset fuel t ch (pre ++ render items)
    = Ok (spec_apply_groups offset (spec_groups_from (len pre) None (render items)) t,
          ch || existsb is_group items,
          pre ++ symbols_of items).
Proof.
  induction items as [|it items IH]; intros Hok pre fuel t ch Hpre Hfuel.
  - simpl; rewrite app_nil_r, orb_false_r.
    apply sym_loop_done, search_no_group; exact Hpre.
  - simpl in Hok; apply andb_true_iff in Hok as [Hit Hok].
    destruct it as [c|paren symbols].
    + (* a bare symbol *)
      cbn [render symbols_of existsb is_group filter] in *.
      rewrite (groups_from_bare _ _ _ _ _ Hit).
      replace (pre ++ c :: render items) with ((pre ++ [c]) ++ render items)
        by (rewrite <- app_assoc; reflexivity).
      replace (pre ++ c :: symbols_of items)
        with ((pre ++ [c]) ++ symbols_of items)
        by (rewrite <- app_assoc; reflexivity).
      rewrite IH; auto.
      * repeat f_equal; unfold len; rewrite length_app; simpl; lia.
      * rewrite forallb_app, Hpre; simpl.
        rewrite (item_ok_bare_not_open _ _ Hit); reflexivity.
    + (* a group *)
      cbn [render symbols_of existsb is_group filter length] in *.
      simpl in Hit; apply andb_true_iff in Hit as [Hs _].
      destruct fuel as [|fuel]; [lia|].
      rewrite (sym_loop_step _ _ _ _ _ _ _
                 (search_group pre _ _ _ (render items) Hpre
                    (is_open_opening paren) Hs (is_close_closing paren))).
      destruct (slices_around pre symbols (render items)
                              (opening paren) (closing paren)) as [E1 E2].
      cbv zeta in E1, E2 |- *.
      rewrite E1, E2.
      rewrite groups_from_group by exact Hs.
      replace (pre ++ symbols ++ render items)
        with ((pre ++ symbols) ++ render items)
        by (rewrite <- app_assoc; reflexivity).
      rewrite IH; auto.
      * rewrite orb_true_r; simpl.
        replace (pre ++ symbols ++ symbols_of items)
          with ((pre ++ symbols) ++ symbols_of items)
          by (rewrite <- app_assoc; reflexivity).
        unfold spec_apply_groups; simpl fold_left.
        assert (Elen : len (pre ++ symbols) = len pre + len symbols)
          by (unfold len; rewrite length_app; lia).
        rewrite Elen.
        replace (offset t + (Z.of_nat (length pre + length symbols + 2) - 1) - 1)
          with (offset t + (len pre + len symbols)) by (unfold len; lia).
        fold (len pre).
        destruct paren; reflexivity.
      * rewrite forallb_app, Hpre; simpl; apply symbols_not_open; exact Hs.
      * lia.
Qed.

End GroupLoops.

(* ================================================================= *)
(** ** What the convention check lets through *)

Lemma render_app (a b : list item) : render (a ++ b) = render a ++ render b.
Proof.
  induction a as [|[c|paren symbols] a IH]; simpl; rewrite ?IH;
    [reflexivity | reflexivity |].
  rewrite <- app_assoc; reflexivity.
Qed.

Lemma render_bare (w : str) : render (map Bare w) = w.
Proof. induction w as [|c w IH]; simpl; rewrite ?IH; reflexivity. Qed.

Lemma Lang_plus_letters (w : str) :
  Lang (Plus letters) w <->
  forallb is_index_symbol w = true /\ (1 <= length w)%nat.
Proof.
  unfold Plus; rewrite Lang_seq; split.
  - intros [u [v [-> [Hu Hv]]]].
    apply Lang_letters in Hu as [c [-> Hc]].
    apply Lang_star_letters in Hv; simpl; rewrite Hc, Hv; split; [auto|lia].
  - intros [Hw Hlen]; destruct w as [|c w]; [simpl in Hlen; lia|].
    simpl in Hw; apply andb_true_iff in Hw as [Hc Hw].
    exists [c], w; repeat split.
    + constructor; exact Hc.
    + apply Lang_star_letters; exact Hw.
Qed.

Lemma Lang_atleast2_letters (w : str) :
  Lang (AtLeast2 letters) w <->
  forallb is_index_symbol w = true /\ (2 <= length w)%nat.
Proof.
  unfold AtLeast2; rewrite Lang_seq; split.
  - intros [u [v [-> [Hu Hv]]]].
    apply Lang_letters in Hu as [c [-> Hc]].
    apply Lang_plus_letters in Hv as [Hv Hlen].
    simpl; rewrite Hc, Hv; split; [auto|lia].
  - intros [Hw Hlen]; destruct w as [|c w]; [simpl in Hlen; lia|].
    simpl in Hw; apply andb_true_iff in Hw as [Hc Hw].
    exists [c], w; repeat split.
    + constructor; exact Hc.
    + apply Lang_plus_letters; split; [exact Hw | simpl in Hlen; lia].
Qed.

(** The three alternatives under the star of [allowed_pattern]. *)
Lemma Lang_allowed_item (w : str) :
  Lang (Alt (Seq (Chr "(") (Seq (AtLeast2 letters) (Chr ")")))
            (Alt (Seq (Chr "[") (Seq (AtLeast2 letters) (Chr "]")))
                 (Plus letters))) w <->
  (exists paren symbols,
      w = render [Group paren symbols]
      /\ item_ok false (Group paren symbols) = true)
  \/ (forallb is_index_symbol w = true /\ (1 <= length w)%nat).
Proof.
  rewrite !Lang_alt, Lang_plus_letters.
  assert (G : forall paren,
             Lang (Seq (Chr (opening paren))
                       (Seq (AtLeast2 letters) (Chr (closing paren)))) w
             <-> exists symbols,
                 w = render [Group paren symbols]
                 /\ item_ok false (Group paren symbols) = true).
  { intros paren; rewrite Lang_seq; split.
    - intros [u [v [-> [Hu Hv]]]].
      apply Lang_chr in Hu; subst.
      apply Lang_seq in Hv as [a [b [-> [Ha Hb]]]].
      apply Lang_chr in Hb; subst.
      apply Lang_atleast2_letters in Ha as [Ha Hlen].
      exists a; split; [reflexivity|].
      unfold item_ok; rewrite Ha; apply Nat.leb_le in Hlen; rewrite Hlen.
      reflexivity.
    - intros [symbols [-> Hok]]; unfold item_ok in Hok.
      apply andb_true_iff in Hok as [Hs Hlen]; apply Nat.leb_le in Hlen.
      exists [opening paren], (symbols ++ [closing paren]).
      split; [reflexivity|]; split; [constructor|].
      constructor; [|constructor].
      apply Lang_atleast2_letters; split; assumption. }
  pose proof (G true) as Gp; pose proof (G false) as Gb.
  cbn [opening closing] in Gp, Gb.
  rewrite Gp, Gb; split.
  - intros [[symbols Hs]|[[symbols Hs]|Hw]].
    + left; exists true, symbols; exact Hs.
    + left; exists false, symbols; exact Hs.
    + right; exact Hw.
  - intros [[[|] [symbols Hs]]|Hw].
    + left; exists symbols; exact Hs.
    + right; left; exists symbols; exact Hs.
    + right; right; exact Hw.
Qed.

(** A word of [allowed_pattern] is a sequence of well-formed items. *)
Lemma Lang_allowed_items (w : str) :
  Lang allowed_pattern w <->
  exists items, w = render items /\ forallb (item_ok false) items = true.
Proof.
  unfold allowed_pattern; split.
  - intros HL.
    remember (Star (Alt (Seq (Chr "(") (Seq (AtLeast2 letters) (Chr ")")))
                        (Alt (Seq (Chr "[") (Seq (AtLeast2 letters) (Chr "]")))
                             (Plus letters)))) as r eqn:Er.
    induction HL; try discriminate.
    + exists []; split; reflexivity.
    + injection Er as ->.
      destruct (IHHL2 eq_refl) as [items2 [-> Hok2]].
      apply Lang_allowed_item in HL1
        as [[paren [symbols [-> Hok]]]|[Hs Hlen]].
      * exists (Group paren symbols :: items2); split.
        -- simpl; rewrite <- app_assoc; reflexivity.
        -- cbn [forallb]; rewrite Hok, Hok2; reflexivity.
      * exists (map Bare s1 ++ items2); split.
        -- rewrite render_app, render_bare; reflexivity.
        -- rewrite forallb_app, Hok2, andb_true_r.
           rewrite forallb_forall in *; intros it Hit.
           apply in_map_iff in Hit as [c [<- Hc]]; simpl.
           rewrite (Hs c Hc); reflexivity.
  - intros [items [-> Hok]].
    induction items as [|it items IH]; [constructor|].
    simpl in Hok; apply andb_true_iff in Hok as [Hit Hok].
    destruct it as [c|paren symbols].
    + apply (@LStarS _ [c] (render items)); [|auto].
      apply Lang_allowed_item; right; simpl in *.
      rewrite orb_false_r in Hit; rewrite Hit; split; [reflexivity|lia].
    + replace (render (Group paren symbols :: items))
        with (render [Group paren symbols] ++ render items)
        by (simpl; rewrite <- app_assoc; reflexivity).
      apply LStarS; [|auto].
      apply Lang_allowed_item; left; eauto.
Qed.

(** The characters of a part. *)
Lemma render_chars (nl : bool) (items : list item) (c : ascii) :
  forallb (item_ok nl) items = true -> In c (render items) ->
  is_index_symbol c = true \/ is_open c = true \/ is_close c = true
  \/ (nl = true /\ c = newline).
Proof.
  induction items as [|it items IH]; simpl; intros Hok Hc; [contradiction|].
  apply andb_true_iff in Hok as [Hit Hok].
  destruct it as [d|paren symbols]; simpl in Hc.
  - destruct Hc as [->|Hc]; [|auto].
    simpl in Hit; apply orb_true_iff in Hit as [Hit|Hit]; [auto|].
    apply andb_true_iff in Hit as [Hnl Hd]; apply eqc_eq in Hd; auto.
  - destruct Hc as [<-|Hc]; [right; left; apply is_open_opening|].
    apply in_app_or in Hc as [Hc|[<-|Hc]].
    + simpl in Hit; apply andb_true_iff in Hit as [Hs _].
      rewrite forallb_forall in Hs; auto.
    + right; right; left; apply is_close_closing.
    + auto.
Qed.

Lemma render_no_hat_underscore (nl : bool) (items : list item) :
  forallb (item_ok nl) items = true ->
  ~ In "^"%char (render items) /\ ~ In "_"%char (render items).
Proof.
  intros Hok; split; intros Hc;
    apply (render_chars _ _ _ Hok) in Hc as [Hc|[Hc|[Hc|[_ Hc]]]];
    discriminate.
Qed.

Lemma split_no_sep (c : ascii) (a : str) : ~ In c a -> split c a = [a].
Proof.
  induction a as [|x a IH]; simpl; intros Hn; [reflexivity|].
  destruct (eqc x c) eqn:E.
  - apply eqc_eq in E; subst; exfalso; apply Hn; left; reflexivity.
  - rewrite IH; [reflexivity | intros Hc; apply Hn; right; exact Hc].
Qed.

Lemma split_at_sep (c : ascii) (a b : str) :
  ~ In c a -> split c (a ++ c :: b) = a :: split c b.
Proof.
  induction a as [|x a IH]; simpl; intros Hn.
  - rewrite eqc_refl; reflexivity.
  - destruct (eqc x c) eqn:E.
    + apply eqc_eq in E; subst; exfalso; apply Hn; left; reflexivity.
    + rewrite IH; [reflexivity | intros Hc; apply Hn; right; exact Hc].
Qed.

Lemma match_anchored_spec (r : regex) (s : str) :
  match_anchored r s = true <->
  exists w tail, s = w ++ tail /\ Lang r w /\ (tail = [] \/ tail = [newline]).
Proof.
  unfold match_anchored; rewrite orb_true_iff, matches_Lang; split.
  - intros [HL|HL].
    + exists s, []; rewrite app_nil_r; auto.
    + destruct (rev s) as [|c p] eqn:E; [discriminate|].
      apply andb_true_iff in HL as [Hc HL].
      apply eqc_eq in Hc; subst; apply matches_Lang in HL.
      exists (rev p), [newline]; repeat split; auto.
      rewrite <- (rev_involutive s), E; reflexivity.
  - intros [w [tail [-> [HL [->| ->]]]]].
    + left; rewrite app_nil_r; exact HL.
    + right; rewrite rev_app_distr; simpl.
      rewrite rev_involutive; apply matches_Lang; exact HL.
Qed.

Lemma Lang_allowed_no_hat_underscore (a : str) :
  Lang allowed_pattern a -> ~ In "^"%char a /\ ~ In "_"%char a.
Proof.
  intros HL; apply Lang_allowed_items in HL as [items [-> Hok]].
  apply (render_no_hat_underscore _ _ Hok).
Qed.

Lemma tail_no_hat_underscore (tail : str) :
  tail = [] \/ tail = [newline] ->
  ~ In "^"%char tail /\ ~ In "_"%char tail.
Proof.
  intros [->| ->]; split; simpl; intros Hc; try contradiction;
    destruct Hc as [Hc|Hc]; try discriminate; contradiction.
Qed.

Lemma not_In_app (c : ascii) (a b : str) :
  ~ In c a -> ~ In c b -> ~ In c (a ++ b).
Proof. intros Ha Hb Hc; apply in_app_or in Hc as [Hc|Hc]; auto. Qed.

Lemma split_indices_shape (s con cov : str) :
  split_indices s = Ok (con, cov) -> split_shape s con cov.
Proof.
  unfold split_indices.
  destruct (match_anchored con_then_cov s) eqn:A; simpl.
  - apply match_anchored_spec in A as [w [tail [-> [HL Ht]]]].
    unfold con_then_cov in HL.
    apply Lang_seq in HL as [hat [v [-> [Hhat Hv]]]].
    apply Lang_seq in Hv as [a [post [-> [Ha Hpost]]]].
    assert (Hh : hat = [] \/ hat = ["^"%char]).
    { apply Lang_alt in Hhat as [Hh|Hh];
        [apply Lang_chr in Hh | apply Lang_eps in Hh]; auto. }
    destruct (Lang_allowed_no_hat_underscore _ Ha) as [Ha1 Ha2].
    destruct (tail_no_hat_underscore _ Ht) as [Ht1 Ht2].
    assert (Ehat : remove_char "^" hat = []) by (destruct Hh; subst; reflexivity).
    apply Lang_alt in Hpost as [Hpost|Hpost].
    + apply Lang_seq in Hpost as [u [b [-> [Hu Hb]]]].
      apply Lang_chr in Hu; subst.
      destruct (Lang_allowed_no_hat_underscore _ Hb) as [Hb1 Hb2].
      rewrite !remove_char_app, Ehat; simpl.
      rewrite !remove_char_id by assumption.
      rewrite <- !app_assoc; simpl.
      rewrite split_at_sep by exact Ha2.
      rewrite split_no_sep by (apply not_In_app; assumption).
      intros E; injection E as <- <-.
      eapply (ShapeConCov _ _ _ hat a b tail); auto.
    + apply Lang_eps in Hpost; subst.
      rewrite !remove_char_app, Ehat; simpl.
      rewrite !remove_char_id by assumption.
      rewrite !app_nil_r.
      rewrite split_no_sep by (apply not_In_app; assumption).
      intros E; injection E as <- <-.
      eapply (ShapeCon _ _ _ hat a tail); auto;
        rewrite <- ?app_assoc, ?app_nil_r; reflexivity.
  - destruct (match_anchored cov_then_con s) eqn:B; simpl; [|discriminate].
    apply match_anchored_spec in B as [w [tail [-> [HL Ht]]]].
    unfold cov_then_con in HL.
    apply Lang_seq in HL as [u [v [-> [Hu Hv]]]].
    apply Lang_chr in Hu; subst.
    apply Lang_seq in Hv as [a [post [-> [Ha Hpost]]]].
    destruct (Lang_allowed_no_hat_underscore _ Ha) as [Ha1 Ha2].
    destruct (tail_no_hat_underscore _ Ht) as [Ht1 Ht2].
    change (slice_from ((["_"%char] ++ a ++ post) ++ tail) 1)
      with (slice_from ("_"%char :: (a ++ post) ++ tail) (Z.of_nat 1)).
    rewrite slice_from_of_nat; simpl skipn.
    apply Lang_alt in Hpost as [Hpost|Hpost].
    + apply Lang_seq in Hpost as [u [b [-> [Hu Hb]]]].
      apply Lang_chr in Hu; subst.
      destruct (Lang_allowed_no_hat_underscore _ Hb) as [Hb1 Hb2].
      rewrite <- !app_assoc; simpl.
      rewrite split_at_sep by exact Ha1.
      rewrite split_no_sep by (apply not_In_app; assumption).
      intros E; injection E as <- <-.
      eapply (ShapeCovCon _ _ _ a b tail); auto;
        simpl; rewrite <- ?app_assoc; reflexivity.
    + apply Lang_eps in Hpost; subst.
      rewrite app_nil_r.
      rewrite split_no_sep by (apply not_In_app; assumption).
      intros E; injection E as <- <-.
      eapply (ShapeCov _ _ _ a tail); auto;
        simpl; rewrite ?app_nil_r; reflexivity.
Qed.

Lemma item_ok_weaken (nl : bool) (items : list item) :
  forallb (item_ok false) items = true -> forallb (item_ok nl) items = true.
Proof.
  rewrite !forallb_forall; intros Hok it Hit; specialize (Hok it Hit).
  destruct it as [c|paren symbols]; [|exact Hok].
  simpl in *; rewrite orb_false_r in Hok; rewrite Hok; reflexivity.
Qed.

(** A part that got through the check is a sequence of well-formed
    items; a newline is among them only when the notation has one. *)
Lemma part_items (nl : bool) (a tail : str) :
  Lang allowed_pattern a -> tail = [] \/ tail = [newline] ->
  (nl = false -> tail = []) ->
  exists items, a ++ tail = render items /\ forallb (item_ok nl) items = true.
Proof.
  intros Ha Ht Hnl.
  apply Lang_allowed_items in Ha as [items [-> Hok]].
  destruct Ht as [->| ->].
  - exists items; rewrite app_nil_r; split; [reflexivity|].
    apply item_ok_weaken; exact Hok.
  - destruct nl; [|specialize (Hnl eq_refl); discriminate].
    exists (items ++ [Bare newline]); split.
    + rewrite render_app; reflexivity.
    + rewrite forallb_app, (item_ok_weaken true _ Hok); reflexivity.
Qed.

Lemma split_indices_items (nl : bool) (s con cov : str) :
  split_indices s = Ok (con, cov) ->
  (nl = false -> ~ In newline s) ->
  exists items_con items_cov,
    con = render items_con /\ cov = render items_cov
    /\ forallb (item_ok nl) items_con = true
    /\ forallb (item_ok nl) items_cov = true.
Proof.
  intros Hs Hnl.
  assert (Hnil : exists items : list item,
             [] = render items /\ forallb (item_ok nl) items = true)
    by (exists []; split; reflexivity).
  assert (Hplain : forall a, Lang allowed_pattern a ->
             exists items, a = render items
                           /\ forallb (item_ok nl) items = true).
  { intros a Ha; apply Lang_allowed_items in Ha as [items [-> Hok]].
    exists items; split; [reflexivity | apply item_ok_weaken; exact Hok]. }
  assert (Htail : forall pre tail, s = pre ++ tail ->
             tail = [] \/ tail = [newline] -> nl = false -> tail = []).
  { intros pre tail -> [->| ->] E; [reflexivity|].
    exfalso; apply (Hnl E), in_or_app; right; left; reflexivity. }
  destruct (split_indices_shape _ _ _ Hs)
    as [hat a tail Hh Ha Ht Es -> ->
       |hat a b tail Hh Ha Hb Ht Es -> ->
       |a tail Ha Ht Es -> ->
       |a b tail Ha Hb Ht Es -> ->].
  - destruct (part_items nl _ _ Ha Ht) as [ic [E Hok]].
    { apply (Htail (hat ++ a)); [rewrite <- app_assoc; exact Es | exact Ht]. }
    destruct Hnil as [iv [E' Hok']]; exists ic, iv; auto.
  - destruct (part_items nl _ _ Hb Ht) as [iv [E Hok]].
    { apply (Htail (hat ++ a ++ "_"%char :: b)); [|exact Ht].
      rewrite Es, <- !app_assoc; simpl; reflexivity. }
    destruct (Hplain a Ha) as [ic [E' Hok']]; exists ic, iv; auto.
  - destruct (part_items nl _ _ Ha Ht) as [iv [E Hok]].
    { apply (Htail ("_"%char :: a)); [exact Es | exact Ht]. }
    destruct Hnil as [ic [E' Hok']]; exists ic, iv; auto.
  - destruct (part_items nl _ _ Hb Ht) as [ic [E Hok]].
    { apply (Htail ("_"%char :: a ++ "^"%char :: b)); [|exact Ht].
      rewrite Es; simpl; rewrite <- !app_assoc; reflexivity. }
    destruct (Hplain a Ha) as [iv [E' Hok']]; exists ic, iv; auto.
Qed.

Lemma check_conventions_inv (indices con cov : str) :
  check_conventions indices = Ok (con, cov) ->
  split_indices (strip_braces indices) = Ok (con, cov)
  /\ repeated_indices (without_sym con) = false
  /\ repeated_indices (without_sym cov) = false.
Proof.
  unfold check_conventions.
  destruct (split_indices (strip_braces indices)) as [[con' cov']|e|];
    simpl; try discriminate.
  destruct (repeated_indices (without_sym con')) eqn:R1; [discriminate|].
  destruct (repeated_indices (without_sym cov')) eqn:R2; [discriminate|].
  intros E; injection E as <- <-; auto.
Qed.

Lemma without_sym_app (a b : str) :
  without_sym (a ++ b) = without_sym a ++ without_sym b.
Proof. unfold without_sym; rewrite !remove_char_app; reflexivity. Qed.

Lemma without_sym_id (s : str) :
  forallb (fun c => negb (is_open c) && negb (is_close c)) s = true ->
  without_sym s = s.
Proof.
  intros Hs; rewrite forallb_forall in Hs.
  assert (Hn : forall c, is_open c = true \/ is_close c = true -> ~ In c s).
  { intros c Hc Hin; specialize (Hs c Hin).
    apply andb_true_iff in Hs as [H1 H2].
    apply negb_true_iff in H1, H2; destruct Hc; congruence. }
  unfold without_sym.
  rewrite (remove_char_id "(" s), (remove_char_id ")" s),
    (remove_char_id "[" s), (remove_char_id "]" s);
    [reflexivity| | | |]; apply Hn; auto.
Qed.

Lemma without_sym_symbols (symbols : str) :
  forallb is_index_symbol symbols = true -> without_sym symbols = symbols.
Proof.
  intros Hs; apply without_sym_id.
  rewrite forallb_forall in *; intros c Hc; specialize (Hs c Hc).
  rewrite (index_symbol_not_open _ Hs), (index_symbol_not_close _ Hs).
  reflexivity.
Qed.

Lemma without_sym_render (nl : bool) (items : list item) :
  forallb (item_ok nl) items = true ->
  without_sym (render items) = symbols_of items.
Proof.
  induction items as [|it items IH]; intros Hok; [reflexivity|].
  simpl in Hok; apply andb_true_iff in Hok as [Hit Hok].
  destruct it as [c|paren symbols]; cbn [render symbols_of].
  - change (c :: render items) with ([c] ++ render items).
    rewrite without_sym_app, IH by exact Hok.
    rewrite without_sym_id; [reflexivity|].
    simpl; rewrite (item_ok_bare_not_open _ _ Hit),
             (item_ok_bare_not_close _ _ Hit); reflexivity.
  - change (opening paren :: symbols ++ closing paren :: render items)
      with ([opening paren] ++ symbols ++ [closing paren] ++ render items).
    rewrite !without_sym_app, IH by exact Hok.
    simpl in Hit; apply andb_true_iff in Hit as [Hs _].
    rewrite (without_sym_symbols _ Hs).
    destruct paren; reflexivity.
Qed.

Lemma existsb_is_open_symbols (symbols : str) :
  forallb is_index_symbol symbols = true -> existsb is_open symbols = false.
Proof.
  induction symbols as [|c symbols IH]; simpl; intros Hs; [reflexivity|].
  apply andb_true_iff in Hs as [Hc Hs].
  rewrite (index_symbol_not_open _ Hc), IH by exact Hs; reflexivity.
Qed.

Lemma existsb_is_open_render (nl : bool) (items : list item) :
  forallb (item_ok nl) items = true ->
  existsb is_open (render items) = existsb is_group items.
Proof.
  induction items as [|it items IH]; intros Hok; [reflexivity|].
  simpl in Hok; apply andb_true_iff in Hok as [Hit Hok].
  destruct it as [c|paren symbols]; cbn [render existsb is_group].
  - rewrite (item_ok_bare_not_open _ _ Hit), IH by exact Hok; reflexivity.
  - rewrite is_open_opening; reflexivity.
Qed.

Lemma groups_count_le (items : list item) :
  (length (filter is_group items) <= length (render items))%nat.
Proof.
  induction items as [|[c|paren symbols] items IH]; simpl; [lia|lia|].
  rewrite length_app; simpl; lia.
Qed.

Section InitGroups.

Context {T : Type} {HT : Tensor T}.

Lemma sym_loop_part (nl : bool) (offset : T -> Z) (items : list item)
      (t : T) (ch : bool) :
  forallb (item_ok nl) items = true ->
  sym_loop offset (length (render items)) t ch (render items)
  = Ok (spec_apply_groups offset (spec_groups (render items)) t,
        ch || existsb is_open (render items),
        without_sym (render items)).
Proof.
  intros Hok.
  rewrite (existsb_is_open_render _ _ Hok), (without_sym_render _ _ Hok).
  apply (sym_loop_items nl offset items Hok [] _ t ch eq_refl).
  apply groups_count_le.
Qed.

(** [__init__] after a successful convention check: the test of the
    number of indices, the groups of the contravariant part, those of
    the covariant part, then the self-contractions. *)
Lemma init_groups (tensor : T) (indices con cov : str) :
  check_conventions indices = Ok (con, cov) ->
  __init__ tensor indices
  = if negb (len (without_sym con) =? Z.of_nat (fst (tensor_type tensor)))
    then Raise IndexError
    else if negb (len (without_sym cov) =? Z.of_nat (snd (tensor_type tensor)))
    then Raise IndexError
    else
      self_contractions
        {| _tensor := spec_apply_groups cov_offset (spec_groups cov)
                        (spec_apply_groups con_offset (spec_groups con) tensor);
           _changed := existsb is_open con || existsb is_open cov;
           _con := without_sym con;
           _cov := without_sym cov |}.
Proof.
  intros Hc; unfold __init__; rewrite Hc; simpl.
  apply check_conventions_inv in Hc as [Hs _].
  destruct (split_indices_items true _ _ _ Hs)
    as [ic [iv [-> [-> [Hic Hiv]]]]]; [discriminate|].
  destruct (negb _); [reflexivity|].
  destruct (negb _); [reflexivity|].
  rewrite (sym_loop_part true con_offset ic tensor false Hic); simpl.
  rewrite (sym_loop_part true cov_offset iv _ _ Hiv); simpl.
  reflexivity.
Qed.

End InitGroups.

(* ================================================================= *)
(** ** Positions of letters *)

#[local] Arguments Z.add _ _ : simpl never.
#[local] Arguments Z.sub _ _ : simpl never.
#[local] Arguments Z.of_nat _ : simpl never.

Lemma position_bounds (c : ascii) (s : str) :
  0 <= position c s <= len s.
Proof.
  unfold len; induction s as [|x s IH]; simpl; [lia|].
  destruct (eqc x c); lia.
Qed.

Lemma position_In (c : ascii) (s : str) : In c s -> position c s < len s.
Proof.
  unfold len; induction s as [|x s IH]; simpl; [contradiction|].
  intros [->|Hc]; [rewrite eqc_refl; lia|].
  destruct (eqc x c); [lia | specialize (IH Hc); lia].
Qed.

Lemma index_position (c : ascii) (s : str) :
  In c s -> index c s = Some (position c s).
Proof.
  induction s as [|x s IH]; simpl; [contradiction|].
  intros Hc; destruct (eqc x c) eqn:E; [reflexivity|].
  destruct Hc as [->|Hc]; [rewrite eqc_refl in E; discriminate|].
  rewrite (IH Hc); simpl; f_equal; lia.
Qed.

Lemma getitem_position (c : ascii) (s : str) :
  In c s -> getitem s (position c s) = Some c.
Proof.
  intros Hc; unfold getitem.
  pose proof (position_bounds c s) as Hb.
  destruct (Z.ltb_spec (position c s) 0); [lia|]; clear Hb.
  induction s as [|x s IH]; simpl; [contradiction|].
  destruct (eqc x c) eqn:E; [apply eqc_eq in E; subst; reflexivity|].
  destruct Hc as [->|Hc]; [rewrite eqc_refl in E; discriminate|].
  pose proof (position_bounds c s) as Hb.
  replace (Z.to_nat (1 + position c s)) with (S (Z.to_nat (position c s)))
    by lia.
  simpl; apply IH; [exact Hc | lia].
Qed.

Lemma position_inj (x y : ascii) (s : str) :
  In x s -> In y s -> position x s = position y s -> x = y.
Proof.
  induction s as [|h s IH]; simpl; [contradiction|].
  intros Hx Hy E.
  destruct (eqc h x) eqn:Ex, (eqc h y) eqn:Ey.
  - apply eqc_eq in Ex, Ey; congruence.
  - pose proof (position_bounds y s); lia.
  - pose proof (position_bounds x s); lia.
  - apply eqc_neq in Ex, Ey.
    destruct Hx as [?|Hx]; [contradiction|].
    destruct Hy as [?|Hy]; [contradiction|].
    apply IH; auto; lia.
Qed.

(** Removing [x] does not move what stands on its left. *)
Lemma position_remove_before (x y : ascii) (s : str) :
  position y s < position x s ->
  position y (remove_char x s) = position y s.
Proof.
  induction s as [|h s IH]; simpl; [lia|].
  destruct (eqc h y) eqn:Ey.
  - destruct (eqc h x) eqn:Ex; [lia|]; intros _; simpl.
    rewrite Ey; reflexivity.
  - destruct (eqc h x) eqn:Ex; simpl.
    + pose proof (position_bounds y s); lia.
    + rewrite Ey; intros Hlt; rewrite IH by lia; reflexivity.
Qed.

Lemma letters_distinct_cons (h : ascii) (s : str) :
  letters_distinct (h :: s) ->
  letters_distinct s /\ (h <> "."%char -> ~ In h s).
Proof.
  unfold letters_distinct; simpl.
  destruct (eqc h ".") eqn:E; simpl; intros Hnd.
  - apply eqc_eq in E; split; [exact Hnd | congruence].
  - inversion Hnd as [|? ? Hn Hnd']; subst; split; [exact Hnd'|].
    intros _ Hin; apply Hn, In_remove_char; split; [exact Hin|].
    apply eqc_neq; exact E.
Qed.

(** Removing [x], which occurs once, moves what stands on its right one
    place leftwards. *)
Lemma position_remove_after (x y : ascii) (s : str) :
  letters_distinct s -> x <> "."%char -> x <> y ->
  position x s < position y s ->
  position y (remove_char x s) = position y s - 1.
Proof.
  induction s as [|h s IH]; simpl; [lia|].
  intros Hd Hx Hxy.
  apply letters_distinct_cons in Hd as [Hd Hh].
  destruct (eqc h x) eqn:Ex.
  - apply eqc_eq in Ex; subst h.
    assert (Ey : eqc x y = false) by (apply eqc_neq; exact Hxy).
    rewrite Ey; intros _; simpl.
    rewrite remove_char_id by (apply Hh; exact Hx); lia.
  - destruct (eqc h y) eqn:Ey.
    + pose proof (position_bounds x s); lia.
    + intros Hlt; simpl; rewrite Ey, IH; auto; lia.
Qed.

Lemma letters_distinct_remove (x : ascii) (s : str) :
  letters_distinct s -> letters_distinct (remove_char x s).
Proof.
  unfold letters_distinct, remove_char; intros Hd.
  assert (E : forall (f g : ascii -> bool) (l : str),
             filter f (filter g l) = filter g (filter f l)).
  { intros f g l; induction l as [|a l IHl]; simpl; [reflexivity|].
    destruct (f a) eqn:Ef, (g a) eqn:Eg; simpl;
      rewrite ?Ef, ?Eg, IHl; reflexivity. }
  rewrite E; apply NoDup_filter; exact Hd.
Qed.

Lemma length_remove_once (x : ascii) (s : str) :
  letters_distinct s -> x <> "."%char -> In x s ->
  S (length (remove_char x s)) = length s.
Proof.
  induction s as [|h s IH]; simpl; [contradiction|].
  intros Hd Hx Hin; apply letters_distinct_cons in Hd as [Hd Hh].
  destruct (eqc h x) eqn:E; simpl.
  - apply eqc_eq in E; subst h.
    rewrite remove_char_id by (apply Hh; exact Hx); reflexivity.
  - destruct Hin as [->|Hin]; [rewrite eqc_refl in E; discriminate|].
    rewrite IH; auto.
Qed.

(* ================================================================= *)
(** ** The self-contractions *)

Lemma pop_nil : pop [] = None.
Proof. reflexivity. Qed.

Lemma pop_snoc (l : list (Z * Z)) (p : Z * Z) : pop (l ++ [p]) = Some (l, p).
Proof.
  unfold pop; rewrite rev_app_distr; simpl.
  rewrite removelast_last; reflexivity.
Qed.

Lemma rightmost_first_In (con cov zs : str) (y : ascii) :
  rightmost_first con cov zs -> In y zs ->
  y <> "."%char /\ In y con /\ In y cov.
Proof.
  induction zs as [|x zs IH]; simpl; [contradiction|].
  intros [Hx [Hcon [Hcov [_ Hr]]]] [->|Hy]; auto.
Qed.

Lemma rightmost_first_remove (con cov zs : str) (x : ascii) :
  rightmost_first con cov zs ->
  (forall y, In y zs -> position y con < position x con) ->
  rightmost_first (remove_char x con) (remove_char x cov) zs.
Proof.
  induction zs as [|z zs IH]; simpl; [auto|].
  intros [Hz [Hcon [Hcov [Hlt Hr]]]] Hx.
  assert (Hzx : z <> x).
  { intros ->; specialize (Hx x (or_introl eq_refl)); lia. }
  split; [exact Hz|].
  split; [apply In_remove_char; auto|].
  split; [apply In_remove_char; auto|].
  split.
  - intros y Hy.
    rewrite !position_remove_before; auto.
  - apply IH; auto.
Qed.

Section SelfContractions.

Context {T : Type} {HT : Tensor T}.

Lemma contraction_pairs_of_spec (todo : str) (self : TensorWithIndices)
      (acc : list (Z * Z)) :
  (forall c, In c todo -> In c (_con self)) ->
  contraction_pairs_of todo self acc
  = Ok (acc ++ map (fun c => (position c (_con self),
                              Z.of_nat (fst (tensor_type (_tensor self)))
                              + position c (_cov self)))
                   (filter (fun c => negb (eqc c ".")
                                     && contains c (_cov self)) todo)).
Proof.
  revert acc; induction todo as [|ind todo IH]; intros acc Hin; simpl.
  - rewrite app_nil_r; reflexivity.
  - destruct (negb (eqc ind ".") && contains ind (_cov self)) eqn:E.
    + apply andb_true_iff in E as [_ E]; apply contains_In in E.
      rewrite (index_position _ _ (Hin ind (or_introl eq_refl))).
      rewrite (index_position _ _ E).
      rewrite IH by (intros c Hc; apply Hin; right; exact Hc).
      simpl; rewrite <- app_assoc; reflexivity.
    + apply IH; intros c Hc; apply Hin; right; exact Hc.
Qed.

Lemma contraction_loop_nil (fuel : nat) (self : TensorWithIndices) :
  contraction_loop fuel [] self = Ok self.
Proof. destruct fuel; reflexivity. Qed.

Lemma contraction_loop_step (fuel : nat) (l : list (Z * Z)) (pos1 pos2 : Z)
      (self : TensorWithIndices) (ind : ascii) :
  getitem (_con self) pos1 = Some ind ->
  contraction_loop (S fuel) (l ++ [(pos1, pos2)]) self
  = contraction_loop fuel (map (renumber pos1 pos2) l)
      {| _tensor := trace (_tensor self) pos1 pos2;
         _changed := true;
         _con := remove_char ind (_con self);
         _cov := remove_char ind (_cov self) |}.
Proof. intros E; simpl; rewrite pop_snoc, E; reflexivity. Qed.

(** The loop, with the pairs as the code numbers them: the letters go
    from the rightmost of the contravariant part leftwards, each traced
    on its positions in the parts as they are by then. *)
Lemma contraction_loop_at (zs : str) :
  forall (p : Z) (self : TensorWithIndices) (fuel : nat),
    letters_distinct (_cov self) ->
    rightmost_first (_con self) (_cov self) zs ->
    (length zs <= fuel)%nat ->
    contraction_loop fuel
      (map (fun c => (position c (_con self), p + position c (_cov self)))
           (rev zs)) self
    = Ok (contract_at p zs self).
Proof.
  induction zs as [|x zs IH]; intros p self fuel Hcov Hr Hfuel.
  - apply contraction_loop_nil.
  - simpl in Hr; destruct Hr as [Hx [Hxcon [Hxcov [Hlt Hr]]]].
    destruct fuel as [|fuel]; [simpl in Hfuel; lia|].
    simpl rev; rewrite map_app; simpl map.
    rewrite (contraction_loop_step _ _ _ _ _ x)
      by (apply getitem_position; exact Hxcon).
    rewrite map_map.
    set (self' := {| _tensor := trace (_tensor self) (position x (_con self))
                                      (p + position x (_cov self));
                     _changed := true;
                     _con := remove_char x (_con self);
                     _cov := remove_char x (_cov self) |}).
    rewrite (map_ext_in _
               (fun c => (position c (_con self'),
                          (p - 1) + position c (_cov self')))).
    + apply IH.
      * apply letters_distinct_remove; exact Hcov.
      * apply rightmost_first_remove; assumption.
      * simpl in Hfuel; lia.
    + intros y Hy; apply in_rev in Hy.
      destruct (rightmost_first_In _ _ _ _ Hr Hy) as [Hy1 [Hy2 Hy3]].
      specialize (Hlt y Hy).
      assert (Hxy : x <> y) by (intros ->; lia).
      unfold renumber; simpl.
      destruct (Z.gtb_spec (position y (_con self)) (position x (_con self)));
        [lia|].
      rewrite position_remove_before by exact Hlt.
      f_equal.
      destruct (Z.gtb_spec (p + position y (_cov self))
                           (p + position x (_cov self))).
      * rewrite position_remove_after; auto; lia.
      * rewrite position_remove_before; [lia|].
        assert (position x (_cov self) <> position y (_cov self))
          by (intros E; apply Hxy; eapply position_inj; eauto).
        lia.
Qed.

End SelfContractions.

(* ================================================================= *)
(** ** The test on repeated indices *)

Lemma count_cons (c x : ascii) (s : str) :
  count c (x :: s) = (if eqc c x then 1 else 0) + count c s.
Proof.
  unfold count; simpl; destruct (eqc c x); simpl length; lia.
Qed.

Lemma count_nonneg (c : ascii) (s : str) : 0 <= count c s.
Proof. unfold count; lia. Qed.

Lemma count_zero (c : ascii) (s : str) : count c s = 0 <-> ~ In c s.
Proof.
  induction s as [|x s IH]; [unfold count; simpl; tauto|].
  rewrite count_cons; pose proof (count_nonneg c s) as Hn; simpl.
  destruct (eqc c x) eqn:E.
  - apply eqc_eq in E; subst; split; [lia | intros Hc; exfalso; auto].
  - apply eqc_neq in E; rewrite Z.add_0_l, IH; split.
    + intros Hs [Hx|Hx]; [congruence | contradiction].
    + intros Hs Hx; apply Hs; right; exact Hx.
Qed.

Lemma len_cons (x : ascii) (s : str) : len (x :: s) = 1 + len s.
Proof. unfold len; simpl length; lia. Qed.

Lemma distinct_cons (x : ascii) (s : str) :
  len (distinct (x :: s))
  = (if contains x s then 0 else 1) + len (distinct s).
Proof. simpl; destruct (contains x s); [lia | apply len_cons]. Qed.

Lemma distinct_dots_le (s : str) :
  len (distinct s) + Z.max (count "." s - 1) 0 <= len s.
Proof.
  induction s as [|x s IH]; [unfold len, count; simpl; lia|].
  rewrite distinct_cons, count_cons, len_cons.
  pose proof (count_nonneg "." s) as Hn.
  pose proof (count_zero "." s) as Hz.
  destruct (contains x s) eqn:Ec.
  - destruct (eqc "." x) eqn:E; lia.
  - destruct (eqc "." x) eqn:E; [|lia].
    apply eqc_eq in E; subst x.
    apply contains_not_In in Ec; apply Hz in Ec; lia.
Qed.

Lemma letters_distinct_cons_iff (x : ascii) (s : str) :
  letters_distinct (x :: s) <->
  letters_distinct s /\ (x <> "."%char -> ~ In x s).
Proof.
  split; [apply letters_distinct_cons|].
  unfold letters_distinct; simpl; intros [Hd Hx].
  destruct (eqc x ".") eqn:E; simpl; [exact Hd|].
  apply eqc_neq in E; constructor; [|exact Hd].
  intros Hin; apply In_remove_char in Hin as [Hin _]; apply (Hx E Hin).
Qed.

(** The test is passed exactly when no letter occurs twice; dots are
    not counted. *)
Lemma repeated_indices_spec (s : str) :
  repeated_indices s = false <-> letters_distinct s.
Proof.
  unfold repeated_indices; rewrite negb_false_iff, Z.eqb_eq.
  induction s as [|x s IH].
  - split; [intros _; constructor | reflexivity].
  - rewrite letters_distinct_cons_iff, <- IH.
    rewrite distinct_cons, count_cons, len_cons.
    pose proof (count_nonneg "." s) as Hn.
    pose proof (count_zero "." s) as Hz.
    pose proof (distinct_dots_le s) as Hle.
    destruct (contains x s) eqn:Ec.
    + apply contains_In in Ec.
      destruct (eqc "." x) eqn:E.
      * apply eqc_eq in E; subst x.
        assert (count "." s <> 0) by (intros E0; apply Hz in E0; auto).
        split; [intros E; split; [lia | congruence] | intros [E _]; lia].
      * apply eqc_neq in E.
        split; [lia | intros [_ Hx]; exfalso; apply Hx; auto].
    + apply contains_not_In in Ec.
      destruct (eqc "." x) eqn:E.
      * apply eqc_eq in E; subst x; apply Hz in Ec.
        split; [intros E; split; [lia | congruence] | intros [E _]; lia].
      * split; [intros E'; split; [lia | auto] | intros [E' _]; lia].
Qed.

(* ================================================================= *)
(** ** The letters contracted, from the rightmost leftwards *)

Lemma rightmost_first_cons (h : ascii) (con cov zs : str) :
  rightmost_first con cov zs -> (forall z, In z zs -> z <> h) ->
  rightmost_first (h :: con) cov zs.
Proof.
  induction zs as [|x zs IH]; simpl; [auto|].
  intros [Hx [Hcon [Hcov [Hlt Hr]]]] Hne.
  assert (Ex : eqc h x = false).
  { apply eqc_neq; intros ->; apply (Hne x); auto. }
  split; [exact Hx|]; split; [auto|]; split; [exact Hcov|]; split.
  - intros y Hy; rewrite Ex.
    assert (Ey : eqc h y = false).
    { apply eqc_neq; intros ->; apply (Hne y); auto. }
    rewrite Ey; specialize (Hlt y Hy); lia.
  - apply IH; auto.
Qed.

Lemma rightmost_first_snoc (con cov zs : str) (h : ascii) :
  rightmost_first con cov zs ->
  h <> "."%char -> In h con -> In h cov ->
  (forall z, In z zs -> position h con < position z con) ->
  rightmost_first con cov (zs ++ [h]).
Proof.
  induction zs as [|x zs IH]; simpl.
  - intros _ Hh Hcon Hcov _; repeat split; auto; contradiction.
  - intros [Hx [Hxcon [Hxcov [Hlt Hr]]]] Hh Hcon Hcov Hall.
    split; [exact Hx|]; split; [exact Hxcon|]; split; [exact Hxcov|]; split.
    + intros y Hy; apply in_app_or in Hy as [Hy|[<-|[]]]; auto.
    + apply IH; auto.
Qed.

Lemma shared_rightmost (con cov : str) :
  letters_distinct con ->
  rightmost_first con cov (rev (shared_letters con cov)).
Proof.
  unfold shared_letters; induction con as [|h con IH]; intros Hd;
    [exact I|].
  apply letters_distinct_cons in Hd as [Hd Hh].
  assert (Hmem : forall z,
             In z (rev (filter (fun c => negb (eqc c ".") && contains c cov)
                               con)) ->
             z <> "."%char /\ In z con /\ In z cov).
  { intros z Hz; apply in_rev, filter_In in Hz as [Hz Hf].
    apply andb_true_iff in Hf as [Hf1 Hf2].
    apply negb_true_iff, eqc_neq in Hf1; apply contains_In in Hf2; auto. }
  simpl filter.
  destruct (negb (eqc h ".") && contains h cov) eqn:E.
  - apply andb_true_iff in E as [E1 E2].
    apply negb_true_iff, eqc_neq in E1; apply contains_In in E2.
    simpl rev; apply rightmost_first_snoc; auto.
    + apply rightmost_first_cons; [apply IH; exact Hd|].
      intros z Hz ->; apply (Hh E1), (Hmem _ Hz).
    + left; reflexivity.
    + intros z Hz; simpl; rewrite eqc_refl.
      assert (Ez : eqc h z = false).
      { apply eqc_neq; intros ->; apply (Hh E1), (Hmem _ Hz). }
      rewrite Ez; pose proof (position_bounds z con); lia.
  - apply rightmost_first_cons; [apply IH; exact Hd|].
    intros z Hz ->; destruct (Hmem _ Hz) as [Hz1 [Hz2 Hz3]].
    apply eqc_neq in Hz1; apply contains_In in Hz3.
    rewrite Hz1, Hz3 in E; discriminate.
Qed.

Section SelfContractionsSpec.

Context {T : Type} {HT : Tensor T}.

(** The self-contractions never fail: every letter shared by the two
    parts is traced, from the rightmost of the contravariant part
    leftwards. *)
Lemma self_contractions_at (self : TensorWithIndices) :
  letters_distinct (_con self) -> letters_distinct (_cov self) ->
  self_contractions self
  = Ok (contract_at (Z.of_nat (fst (tensor_type (_tensor self))))
                    (rev (shared_letters (_con self) (_cov self))) self).
Proof.
  intros Hcon Hcov; unfold self_contractions.
  rewrite contraction_pairs_of_spec by auto; simpl.
  fold (shared_letters (_con self) (_cov self)).
  rewrite <- (rev_involutive (shared_letters (_con self) (_cov self))) at 1 2.
  rewrite length_map.
  apply contraction_loop_at.
  - exact Hcov.
  - apply shared_rightmost; exact Hcon.
  - rewrite !length_rev; lia.
Qed.

Lemma contract_at_parts (zs : str) :
  forall (p : Z) (self : TensorWithIndices),
    (forall c, In c (_con (contract_at p zs self))
               <-> In c (_con self) /\ ~ In c zs)
    /\ (forall c, In c (_cov (contract_at p zs self))
                  <-> In c (_cov self) /\ ~ In c zs)
    /\ (letters_distinct (_con self) ->
        letters_distinct (_con (contract_at p zs self)))
    /\ (letters_distinct (_cov self) ->
        letters_distinct (_cov (contract_at p zs self)))
    /\ _changed (contract_at p zs self)
       = (_changed self || negb (Nat.eqb (length zs) 0)).
Proof.
  induction zs as [|x zs IH]; intros p self.
  - simpl; rewrite orb_false_r; repeat split; tauto.
  - cbn [contract_at].
    match goal with |- context [contract_at (p - 1) zs ?s] =>
      destruct (IH (p - 1) s) as [I1 [I2 [I3 [I4 I5]]]] end.
    cbn [_con _cov _changed] in *.
    split; [|split; [|split; [|split]]].
    + intros c; rewrite I1, In_remove_char; simpl.
      split; [intros [[? ?] ?] | intros [? ?]]; repeat split; auto;
        intros [?|?]; auto; congruence.
    + intros c; rewrite I2, In_remove_char; simpl.
      split; [intros [[? ?] ?] | intros [? ?]]; repeat split; auto;
        intros [?|?]; auto; congruence.
    + intros Hd; apply I3, letters_distinct_remove; exact Hd.
    + intros Hd; apply I4, letters_distinct_remove; exact Hd.
    + rewrite I5; simpl; rewrite orb_true_r; reflexivity.
Qed.

Context {HL : TensorLaws T}.

Lemma apply_groups_type (offset : T -> Z) (gs : list (bool * Z * Z)) (t : T) :
  tensor_type (spec_apply_groups offset gs t) = tensor_type t.
Proof.
  unfold spec_apply_groups; revert t; induction gs as [|[[paren a] b] gs IH];
    intros t; simpl; [reflexivity|].
  rewrite IH; destruct paren;
    [apply symmetrize_type | apply antisymmetrize_type].
Qed.

(** With the types the tensor library gives to traces, the count kept
    by the code is the number of contravariant positions of the tensor
    held, and the parts have the lengths of its type. *)
Lemma contract_at_letters (zs : str) :
  forall (self : TensorWithIndices),
    tensor_type (_tensor self) = (length (_con self), length (_cov self)) ->
    letters_distinct (_con self) -> letters_distinct (_cov self) ->
    rightmost_first (_con self) (_cov self) zs ->
    contract_at (Z.of_nat (fst (tensor_type (_tensor self)))) zs self
    = spec_contract_letters zs self
    /\ tensor_type (_tensor (spec_contract_letters zs self))
       = (length (_con (spec_contract_letters zs self)),
          length (_cov (spec_contract_letters zs self))).
Proof.
  induction zs as [|x zs IH]; intros self Ht Hcon Hcov Hr.
  - simpl; auto.
  - simpl in Hr; destruct Hr as [Hx [Hxcon [Hxcov [Hlt Hr]]]].
    pose proof (position_bounds x (_con self)) as B1.
    pose proof (position_In _ _ Hxcon) as B2.
    pose proof (position_bounds x (_cov self)) as B3.
    pose proof (position_In _ _ Hxcov) as B4.
    pose proof (length_remove_once _ _ Hcon Hx Hxcon) as L1.
    pose proof (length_remove_once _ _ Hcov Hx Hxcov) as L2.
    unfold len in *.
    assert (Ht' : tensor_type (_tensor (spec_contract_letter self x))
                  = (length (_con (spec_contract_letter self x)),
                     length (_cov (spec_contract_letter self x)))).
    { unfold spec_contract_letter; cbn [_tensor _con _cov].
      rewrite trace_type; rewrite Ht; cbn [fst snd]; [|lia|lia].
      f_equal; lia. }
    destruct (IH (spec_contract_letter self x) Ht') as [E1 E2].
    + apply letters_distinct_remove; exact Hcon.
    + apply letters_distinct_remove; exact Hcov.
    + apply rightmost_first_remove; assumption.
    + unfold spec_contract_letters; cbn [fold_left contract_at].
      fold (spec_contract_letters zs (spec_contract_letter self x)).
      split; [|exact E2].
      rewrite <- E1; rewrite Ht', Ht; cbn [fst].
      unfold spec_contract_letter at 2; cbn [_con].
      replace (Z.of_nat (length (_con self)) - 1)
        with (Z.of_nat (length (remove_char x (_con self)))) by lia.
      unfold spec_contract_letter; rewrite Ht; reflexivity.
Qed.

End SelfContractionsSpec.

(* ================================================================= *)
(** ** The outcome of [__init__] *)

Lemma split_indices_raises (s : str) (e : exn) :
  split_indices s = Raise e -> e = ValueError.
Proof.
  unfold split_indices.
  destruct (negb (match_anchored con_then_cov s)
            && negb (match_anchored cov_then_con s)).
  - intros E; injection E as <-; reflexivity.
  - destruct (match_anchored con_then_cov s).
    + destruct (split "_" (remove_char "^" s)) as [|? [|? [|? ?]]];
        discriminate.
    + destruct (split "^" (slice_from s 1)) as [|? [|? [|? ?]]];
        discriminate.
Qed.

Lemma split_indices_terminates (s : str) : split_indices s <> OutOfFuel.
Proof.
  unfold split_indices.
  destruct (negb (match_anchored con_then_cov s)
            && negb (match_anchored cov_then_con s)); [discriminate|].
  destruct (match_anchored con_then_cov s).
  - destruct (split "_" (remove_char "^" s)) as [|? [|? [|? ?]]];
      discriminate.
  - destruct (split "^" (slice_from s 1)) as [|? [|? [|? ?]]];
      discriminate.
Qed.

Lemma check_conventions_raises (indices : str) (e : exn) :
  check_conventions indices = Raise e -> e = ValueError.
Proof.
  unfold check_conventions.
  destruct (split_indices (strip_braces indices)) as [[con cov]|e'|] eqn:E;
    simpl.
  - destruct (repeated_indices (without_sym con));
      [intros E'; injection E' as <-; reflexivity|].
    destruct (repeated_indices (without_sym cov));
      [intros E'; injection E' as <-; reflexivity | discriminate].
  - intros E'; injection E' as <-; apply (split_indices_raises _ _ E).
  - discriminate.
Qed.

Lemma check_conventions_terminates (indices : str) :
  check_conventions indices <> OutOfFuel.
Proof.
  unfold check_conventions.
  destruct (split_indices (strip_braces indices)) as [[con cov]|e'|] eqn:E;
    simpl.
  - destruct (repeated_indices (without_sym con)); [discriminate|].
    destruct (repeated_indices (without_sym cov)); discriminate.
  - discriminate.
  - exfalso; apply (split_indices_terminates _ E).
Qed.

Section InitOutcome.

Context {T : Type} {HT : Tensor T}.

(** [__init__] in closed form. *)
Lemma init_closed_form (tensor : T) (indices : str) :
  __init__ tensor indices
  = match check_conventions indices with
    | Ok (con, cov) =>
        if negb (len (without_sym con) =? Z.of_nat (fst (tensor_type tensor)))
        then Raise IndexError
        else if negb (len (without_sym cov)
                      =? Z.of_nat (snd (tensor_type tensor)))
        then Raise IndexError
        else
          let start := spec_after_groups tensor con cov in
          Ok (contract_at
                (Z.of_nat (fst (tensor_type (_tensor start))))
                (rev (shared_letters (_con start) (_cov start))) start)
    | Raise e => Raise ValueError
    | OutOfFuel => Raise ValueError
    end.
Proof.
  destruct (check_conventions indices) as [[con cov]|e|] eqn:E.
  - rewrite (init_groups tensor indices con cov E).
    destruct (negb _); [reflexivity|].
    destruct (negb _); [reflexivity|].
    apply check_conventions_inv in E as [_ [R1 R2]].
    apply repeated_indices_spec in R1, R2.
    apply (self_contractions_at (spec_after_groups tensor con cov)); assumption.
  - unfold __init__; rewrite E; simpl.
    rewrite (check_conventions_raises _ _ E); reflexivity.
  - exfalso; apply (check_conventions_terminates _ E).
Qed.

Lemma init_ok_inv (tensor : T) (indices : str) (self : TensorWithIndices) :
  __init__ tensor indices = Ok self ->
  exists con cov,
    check_conventions indices = Ok (con, cov)
    /\ len (without_sym con) = Z.of_nat (fst (tensor_type tensor))
    /\ len (without_sym cov) = Z.of_nat (snd (tensor_type tensor))
    /\ self = contract_at
                (Z.of_nat (fst (tensor_type
                                  (_tensor (spec_after_groups tensor con cov)))))
                (rev (shared_letters (without_sym con) (without_sym cov)))
                (spec_after_groups tensor con cov).
Proof.
  rewrite init_closed_form.
  destruct (check_conventions indices) as [[con cov]|e|]; try discriminate.
  destruct (Z.eqb_spec (len (without_sym con))
                       (Z.of_nat (fst (tensor_type tensor))));
    simpl; [|discriminate].
  destruct (Z.eqb_spec (len (without_sym cov))
                       (Z.of_nat (snd (tensor_type tensor))));
    simpl; [|discriminate].
  intros E; injection E as <-; exists con, cov; auto.
Qed.

(** The bounds given to the loops of the model are never used up. *)
Lemma init_terminates (tensor : T) (indices : str) :
  __init__ tensor indices <> OutOfFuel.
Proof.
  rewrite init_closed_form.
  destruct (check_conventions indices) as [[con cov]|e|]; try discriminate.
  destruct (negb _); [discriminate|].
  destruct (negb _); discriminate.
Qed.

End InitOutcome.

(* ================================================================= *)
(** ** Groups: symmetrizations and antisymmetrizations *)

Section Groups.

Context {T : Type} {HT : Tensor T}.


End Groups.

(* ================================================================= *)
(** ** Self-contractions: traces *)

Section Traces.

Context {T : Type} {HT : Tensor T} {HL : TensorLaws T}.

Lemma after_groups_type (tensor : T) (con cov : str) :
  len (without_sym con) = Z.of_nat (fst (tensor_type tensor)) ->
  len (without_sym cov) = Z.of_nat (snd (tensor_type tensor)) ->
  tensor_type (_tensor (spec_after_groups tensor con cov))
  = (length (_con (spec_after_groups tensor con cov)),
     length (_cov (spec_after_groups tensor con cov))).
Proof.
  unfold len, spec_after_groups; cbn [_tensor _con _cov]; intros H1 H2.
  rewrite !apply_groups_type.
  destruct (tensor_type tensor) as [k l]; cbn [fst snd] in *.
  f_equal; lia.
Qed.


End Traces.

(* ================================================================= *)
(** ** Multiplication *)

Section Multiplication.

Context {T : Type} {HT : Tensor T}.

Lemma mul_con_loop_spec (todo : str) (self other : TensorWithIndices)
      (acc : list (Z * Z)) :
  (forall c, In c todo -> In c (_con self)) ->
  mul_con_loop todo self other acc
  = if existsb (fun c => negb (eqc c ".") && contains c (_con other)) todo
    then Raise IndexError
    else Ok (acc ++ map (fun c => (position c (_con self),
                                   Z.of_nat (fst (tensor_type (_tensor other)))
                                   + position c (_cov other)))
                        (shared_letters todo (_cov other))).
Proof.
  unfold shared_letters.
  revert acc; induction todo as [|ind todo IH]; intros acc Hin.
  - simpl; rewrite app_nil_r; reflexivity.
  - assert (Hin' : forall c, In c todo -> In c (_con self))
      by (intros c Hc; apply Hin; right; exact Hc).
    cbn [mul_con_loop existsb filter].
    destruct (negb (eqc ind ".")) eqn:Edot; cbn [andb]; [|apply IH, Hin'].
    destruct (contains ind (_cov other)) eqn:Ecov.
    + apply contains_In in Ecov.
      rewrite (index_position _ _ (Hin ind (or_introl eq_refl))).
      rewrite (index_position _ _ Ecov); cbn [bind].
      destruct (contains ind (_con other)); cbn [orb]; [reflexivity|].
      rewrite IH by exact Hin'.
      cbn [map]; rewrite <- app_assoc; reflexivity.
    + cbn [bind].
      destruct (contains ind (_con other)); cbn [orb]; [reflexivity|].
      apply IH, Hin'.
Qed.

Lemma mul_cov_loop_spec (todo : str) (self other : TensorWithIndices)
      (acc : list (Z * Z)) :
  (forall c, In c todo -> In c (_cov self)) ->
  mul_cov_loop todo self other acc
  = if existsb (fun c => negb (eqc c ".") && contains c (_cov other)) todo
    then Raise IndexError
    else Ok (acc ++ map (fun c => (Z.of_nat (fst (tensor_type (_tensor self)))
                                   + position c (_cov self),
                                   position c (_con other)))
                        (shared_letters todo (_con other))).
Proof.
  unfold shared_letters.
  revert acc; induction todo as [|ind todo IH]; intros acc Hin.
  - simpl; rewrite app_nil_r; reflexivity.
  - assert (Hin' : forall c, In c todo -> In c (_cov self))
      by (intros c Hc; apply Hin; right; exact Hc).
    cbn [mul_cov_loop existsb filter].
    destruct (negb (eqc ind ".")) eqn:Edot; cbn [andb]; [|apply IH, Hin'].
    destruct (contains ind (_con other)) eqn:Econ.
    + apply contains_In in Econ.
      rewrite (index_position _ _ (Hin ind (or_introl eq_refl))).
      rewrite (index_position _ _ Econ); cbn [bind].
      destruct (contains ind (_cov other)); cbn [orb]; [reflexivity|].
      rewrite IH by exact Hin'.
      cbn [map]; rewrite <- app_assoc; reflexivity.
    + cbn [bind].
      destruct (contains ind (_cov other)); cbn [orb]; [reflexivity|].
      apply IH, Hin'.
Qed.

Lemma collide_spec (a b : str) :
  collide a b = true <->
  exists c, c <> "."%char /\ In c a /\ In c b.
Proof.
  unfold collide; rewrite existsb_exists; split.
  - intros [c [Ha Hc]]; apply andb_true_iff in Hc as [H1 H2].
    apply negb_true_iff, eqc_neq in H1; apply contains_In in H2; eauto.
  - intros [c [H1 [Ha Hb]]]; exists c; split; [exact Ha|].
    apply andb_true_iff; split;
      [apply negb_true_iff, eqc_neq; exact H1 | apply contains_In; exact Hb].
Qed.

(** [__mul__] in closed form. *)
Lemma mul_closed_form (self other : TensorWithIndices) :
  __mul__ self (VIndexed other)
  = if collide (_con self) (_con other) then Raise IndexError
    else if collide (_cov self) (_cov other) then Raise IndexError
    else match spec_cross_pairs self other with
         | [] => Ok (tensor_product (_tensor self) (_tensor other))
         | _ :: _ =>
             Ok (contract (_tensor self) (map fst (spec_cross_pairs self other))
                          (_tensor other) (map snd (spec_cross_pairs self other)))
         end.
Proof.
  unfold __mul__, collide, spec_cross_pairs.
  rewrite mul_con_loop_spec by auto.
  destruct (existsb _ (_con self)); [reflexivity|]; cbn [bind app].
  rewrite mul_cov_loop_spec by auto.
  destruct (existsb _ (_cov self)); reflexivity.
Qed.

(** C3, amended.  When no letter is in the contravariant parts of both
    operands nor in the covariant parts of both, the product is the
    tensor product of the two tensors if no letter of a part of [self]
    is in the part of the other variance of [other], and otherwise one
    call of [contract] on all the pairs of positions, each computed on
    the operands as they are. *)
Theorem mul_product_or_contract (self other : TensorWithIndices) :
  (forall c, c <> "."%char ->
             ~ (In c (_con self) /\ In c (_con other))
             /\ ~ (In c (_cov self) /\ In c (_cov other))) ->
  (shared_letters (_con self) (_cov other) = []
   /\ shared_letters (_cov self) (_con other) = [] ->
   __mul__ self (VIndexed other)
   = Ok (tensor_product (_tensor self) (_tensor other)))
  /\ (~ (shared_letters (_con self) (_cov other) = []
         /\ shared_letters (_cov self) (_con other) = []) ->
      __mul__ self (VIndexed other)
      = Ok (contract (_tensor self) (map fst (spec_cross_pairs self other))
                     (_tensor other) (map snd (spec_cross_pairs self other)))).
Proof.
  intros Hno; rewrite mul_closed_form.
  assert (C1 : collide (_con self) (_con other) = false).
  { destruct (collide (_con self) (_con other)) eqn:E; [|reflexivity].
    apply collide_spec in E as [c [Hc [H1 H2]]].
    destruct (Hno c Hc) as [Hn _]; exfalso; auto. }
  assert (C2 : collide (_cov self) (_cov other) = false).
  { destruct (collide (_cov self) (_cov other)) eqn:E; [|reflexivity].
    apply collide_spec in E as [c [Hc [H1 H2]]].
    destruct (Hno c Hc) as [_ Hn]; exfalso; auto. }
  rewrite C1, C2; unfold spec_cross_pairs; split.
  - intros [-> ->]; reflexivity.
  - intros Hsome.
    destruct (shared_letters (_con self) (_cov other)) as [|a la];
      [|reflexivity].
    destruct (shared_letters (_cov self) (_con other)) as [|b lb];
      [|reflexivity].
    exfalso; apply Hsome; auto.
Qed.

(** C4.  [__mul__] raises [IndexError] exactly when some letter, not
    the dot, is in the contravariant parts of both operands or in the
    covariant parts of both. *)
Theorem mul_index_collision (self other : TensorWithIndices) :
  __mul__ self (VIndexed other) = Raise IndexError <->
  exists c, c <> "."%char
            /\ ((In c (_con self) /\ In c (_con other))
                \/ (In c (_cov self) /\ In c (_cov other))).
Proof.
  rewrite mul_closed_form; split.
  - destruct (collide (_con self) (_con other)) eqn:C1.
    + apply collide_spec in C1 as [c [Hc [H1 H2]]]; eauto.
    + destruct (collide (_cov self) (_cov other)) eqn:C2.
      * apply collide_spec in C2 as [c [Hc [H1 H2]]]; eauto 6.
      * destruct (spec_cross_pairs self other); discriminate.
  - intros [c [Hc [[H1 H2]|[H1 H2]]]].
    + assert (C1 : collide (_con self) (_con other) = true)
        by (apply collide_spec; eauto).
      rewrite C1; reflexivity.
    + assert (C2 : collide (_cov self) (_cov other) = true)
        by (apply collide_spec; eauto).
      rewrite C2; destruct (collide (_con self) (_con other)); reflexivity.
Qed.

End Multiplication.

(* ================================================================= *)
(** ** The number of indices *)

Lemma filter_index_symbols (symbols : str) :
  forallb is_index_symbol symbols = true ->
  filter is_index_symbol symbols = symbols.
Proof.
  induction symbols as [|c symbols IH]; simpl; intros Hs; [reflexivity|].
  apply andb_true_iff in Hs as [Hc Hs]; rewrite Hc, IH by exact Hs.
  reflexivity.
Qed.

Lemma symbols_of_index_symbols (items : list item) :
  forallb (item_ok false) items = true ->
  forallb is_index_symbol (symbols_of items) = true
  /\ filter is_index_symbol (render items) = symbols_of items.
Proof.
  induction items as [|it items IH]; intros Hok; [split; reflexivity|].
  simpl in Hok; apply andb_true_iff in Hok as [Hit Hok].
  destruct (IH Hok) as [IH1 IH2].
  destruct it as [c|paren symbols]; cbn [symbols_of render].
  - simpl in Hit; rewrite orb_false_r in Hit; simpl.
    rewrite Hit, IH1, IH2; split; reflexivity.
  - simpl in Hit; apply andb_true_iff in Hit as [Hs _].
    rewrite forallb_app, Hs, IH1; split; [reflexivity|].
    change (opening paren :: symbols ++ closing paren :: render items)
      with ([opening paren] ++ symbols ++ [closing paren] ++ render items).
    rewrite !filter_app, IH2, (filter_index_symbols _ Hs).
    destruct paren; reflexivity.
Qed.

Lemma strip_braces_newline (indices : str) :
  ~ In newline indices -> ~ In newline (strip_braces indices).
Proof.
  unfold strip_braces; intros Hn Hin.
  apply In_remove_char in Hin as [Hin _].
  apply In_remove_char in Hin as [Hin _]; auto.
Qed.

(** Without a newline in the notation the parts are made of index
    symbols and of the punctuation of the groups. *)
Lemma check_conventions_symbols (indices con cov : str) :
  check_conventions indices = Ok (con, cov) -> ~ In newline indices ->
  forallb is_index_symbol (without_sym con) = true
  /\ forallb is_index_symbol (without_sym cov) = true
  /\ without_sym con = filter is_index_symbol con
  /\ without_sym cov = filter is_index_symbol cov.
Proof.
  intros Hc Hn; apply check_conventions_inv in Hc as [Hs _].
  destruct (split_indices_items false _ _ _ Hs)
    as [ic [iv [-> [-> [Hic Hiv]]]]].
  { intros _; apply strip_braces_newline; exact Hn. }
  rewrite !(without_sym_render false) by assumption.
  destruct (symbols_of_index_symbols _ Hic) as [A1 A2].
  destruct (symbols_of_index_symbols _ Hiv) as [B1 B2].
  auto.
Qed.

Section Ranks.

Context {T : Type} {HT : Tensor T}.

(** C6.  On a notation that passes the convention check, [__init__]
    raises [IndexError] exactly when the number of symbols of the
    contravariant part, the punctuation of the groups apart, differs
    from the first component of the type of the tensor, or that of the
    covariant part from the second; it does not raise [ValueError], the
    error of the convention check.  Without a newline in the notation
    the symbols counted are the index symbols of the part. *)
Theorem init_rank_mismatch (tensor : T) (indices con cov : str) :
  check_conventions indices = Ok (con, cov) ->
  (__init__ tensor indices = Raise IndexError
   <-> len (without_sym con) <> Z.of_nat (fst (tensor_type tensor))
       \/ len (without_sym cov) <> Z.of_nat (snd (tensor_type tensor)))
  /\ __init__ tensor indices <> Raise ValueError
  /\ IndexError <> ValueError
  /\ (~ In newline indices ->
      without_sym con = filter is_index_symbol con
      /\ without_sym cov = filter is_index_symbol cov).
Proof.
  intros Hc; rewrite init_closed_form, Hc.
  split; [|split; [|split]].
  - destruct (Z.eqb_spec (len (without_sym con))
                         (Z.of_nat (fst (tensor_type tensor)))) as [E1|E1];
      cbn [negb].
    + destruct (Z.eqb_spec (len (without_sym cov))
                           (Z.of_nat (snd (tensor_type tensor)))) as [E2|E2];
        cbn [negb].
      * split; [discriminate | intros [?|?]; contradiction].
      * split; auto.
    + split; auto.
  - destruct (negb _); [discriminate|].
    destruct (negb _); discriminate.
  - discriminate.
  - intros Hn.
    destruct (check_conventions_symbols _ _ _ Hc Hn) as [_ [_ [E1 E2]]].
    auto.
Qed.

End Ranks.

(* ================================================================= *)
(** ** [update] *)

Section Update.

Context {T : Type} {HT : Tensor T}.

Lemma new_instance_inv (objects objects' : store T) (tensor : T)
      (indices : str) (self : ref) :
  new_instance objects tensor indices = Ok (objects', self) ->
  exists this,
    __init__ tensor indices = Ok this
    /\ objects' = objects ++ [this] /\ self = length objects.
Proof.
  unfold new_instance.
  destruct (__init__ tensor indices) as [this|e|]; cbn [bind];
    try discriminate.
  intros E; injection E as <- <-; exists this; auto.
Qed.

(** The object that a call of the class builds is a new one, and the
    objects stay where they are when others are built after them. *)
Lemma deref_new (objects more : store T) (this : TensorWithIndices) :
  deref objects (length objects) = None
  /\ deref ((objects ++ [this]) ++ more) (length objects) = Some this.
Proof.
  unfold deref; split.
  - apply nth_error_None; lia.
  - rewrite <- app_assoc, nth_error_app2, Nat.sub_diag by lia; reflexivity.
Qed.

Lemma update_object_value (objects : store T) (self : ref)
      (this : TensorWithIndices) :
  deref objects self = Some this ->
  exists x,
    update_object objects self = Some (objects, x)
    /\ value_of objects x = Some (update this).
Proof.
  intros Hd; unfold update_object, update; rewrite Hd.
  destruct (_changed this); eexists; split; try reflexivity.
  cbn [value_of]; rewrite Hd; reflexivity.
Qed.

(** C8.  Let [self] be the reference of the object that
    [TensorWithIndices(tensor, indices)] builds, and [this] its
    attributes as [__init__] sets them.  Whatever is built afterwards,
    [update] on [self] leaves the store as it is; it returns the tensor
    held when [_changed] is set; otherwise it returns the reference
    [self]: what is returned is the receiver ([x.update() is x]), and
    is not any other object, be its attributes those of the
    receiver. *)
Theorem update_returns (objects objects' : store T) (tensor : T)
        (indices : str) (self : ref) :
  new_instance objects tensor indices = Ok (objects', self) ->
  exists this,
    __init__ tensor indices = Ok this
    /\ deref objects self = None
    /\ forall more : store T,
        deref (objects' ++ more) self = Some this
        /\ (_changed this = true ->
            update_object (objects' ++ more) self
            = Some (objects' ++ more, OTensor (_tensor this)))
        /\ (_changed this = false ->
            update_object (objects' ++ more) self
            = Some (objects' ++ more, OIndexed self)
            /\ same_object (T := T) (OIndexed self) self = true
            /\ forall copy,
                deref (objects' ++ more) copy = Some this ->
                copy <> self ->
                same_object (T := T) (OIndexed self) copy = false).
Proof.
  intros Hnew.
  destruct (new_instance_inv _ _ _ _ _ Hnew) as [this [Hinit [-> ->]]].
  exists this; split; [exact Hinit|].
  split; [apply (deref_new objects [] this)|].
  intros more.
  destruct (deref_new objects more this) as [_ Hd].
  split; [exact Hd|]; split.
  - intros Hch; unfold update_object; rewrite Hd, Hch; reflexivity.
  - intros Hch; unfold update_object; rewrite Hd, Hch.
    split; [reflexivity|].
    cbn [same_object]; split; [apply Nat.eqb_refl|].
    intros copy _ Hne; apply Nat.eqb_neq; auto.
Qed.

(** Returning a copy would not do: it would change the store and
    return an object that is not the receiver. *)
Remark update_is_not_a_copy (objects : store T) (self : ref)
       (this : TensorWithIndices) :
  deref objects self = Some this -> _changed this = false ->
  exists after x,
    update_by_copy objects self = Some (after, x)
    /\ value_of after x = value_of objects (OIndexed self)
    /\ after <> objects /\ same_object x self = false
    /\ update_by_copy objects self <> update_object objects self.
Proof.
  intros Hd Hch.
  assert (Hlt : (self < length objects)%nat)
    by (apply nth_error_Some; unfold deref in Hd; congruence).
  assert (Hgrow : objects ++ [this] <> objects).
  { intros E; apply (f_equal (@length _)) in E.
    rewrite length_app in E; cbn [length] in E; lia. }
  unfold update_by_copy, update_object; rewrite Hd, Hch.
  eexists; eexists; split; [reflexivity|].
  split; [|split; [exact Hgrow|split]].
  - cbn [value_of]; rewrite Hd.
    destruct (deref_new objects [] this) as [_ E].
    rewrite app_nil_r in E; rewrite E; reflexivity.
  - cbn [same_object]; apply Nat.eqb_neq; lia.
  - intros E; injection E as E _; exact (Hgrow E).
Qed.

End Update.

(* ================================================================= *)
(** ** A notation without operations *)

Lemma strip_braces_In (c : ascii) (indices : str) :
  In c (strip_braces indices) -> In c indices.
Proof.
  unfold strip_braces; intros Hin.
  apply In_remove_char in Hin as [Hin _].
  apply In_remove_char in Hin as [Hin _]; exact Hin.
Qed.

Lemma split_indices_In (s con cov : str) (c : ascii) :
  split_indices s = Ok (con, cov) -> In c con \/ In c cov -> In c s.
Proof.
  intros Hs Hc.
  destruct (split_indices_shape _ _ _ Hs)
    as [hat a tail Hh Ha Ht -> -> ->
       |hat a b tail Hh Ha Hb Ht -> -> ->
       |a tail Ha Ht -> -> ->
       |a b tail Ha Hb Ht -> -> ->].
  - destruct Hc as [Hc|[]]; apply in_or_app; right; exact Hc.
  - apply in_or_app; right; apply in_or_app.
    destruct Hc as [Hc|Hc]; [left; exact Hc | right; right; exact Hc].
  - destruct Hc as [[]|Hc]; right; exact Hc.
  - right; apply in_or_app.
    destruct Hc as [Hc|Hc]; [right; right; exact Hc | left; exact Hc].
Qed.

Lemma no_group_part (nl : bool) (items : list item) :
  forallb (item_ok nl) items = true ->
  existsb is_open (render items) = false ->
  forall axis, spec_groups_from axis None (render items) = []
               /\ without_sym (render items) = render items.
Proof.
  induction items as [|it items IH]; intros Hok Hno axis;
    [split; reflexivity|].
  simpl in Hok; apply andb_true_iff in Hok as [Hit Hok].
  destruct it as [c|paren symbols]; cbn [render existsb] in *.
  - apply orb_false_iff in Hno as [_ Hno].
    destruct (IH Hok Hno (axis + 1)) as [G W].
    rewrite (groups_from_bare _ _ _ _ _ Hit), G; split; [reflexivity|].
    change (c :: render items) with ([c] ++ render items).
    rewrite without_sym_app, W, without_sym_id; [reflexivity|].
    simpl; rewrite (item_ok_bare_not_open _ _ Hit),
             (item_ok_bare_not_close _ _ Hit); reflexivity.
  - rewrite is_open_opening in Hno; discriminate.
Qed.

Lemma existsb_false_In (f : ascii -> bool) (s u : str) :
  existsb f s = false -> (forall c, In c u -> In c s) -> existsb f u = false.
Proof.
  intros Hs Hsub; destruct (existsb f u) eqn:E; [|reflexivity].
  apply existsb_exists in E as [c [Hc Hf]].
  assert (existsb f s = true) by (apply existsb_exists; eauto).
  congruence.
Qed.

Section NoOperation.

Context {T : Type} {HT : Tensor T}.

(** C10.  When the notation has no opening parenthesis or bracket and
    its two parts share no letter, the instance that [__init__] builds
    holds the tensor it was given, with [_changed] unset, and the two
    parts as they are in the notation. *)
Theorem init_no_operation (tensor : T) (indices con cov : str)
        (self : TensorWithIndices) :
  check_conventions indices = Ok (con, cov) ->
  __init__ tensor indices = Ok self ->
  existsb is_open indices = false ->
  shared_letters con cov = [] ->
  self = {| _tensor := tensor; _changed := false;
            _con := con; _cov := cov |}.
Proof.
  intros Hc Hinit Hno Hshared.
  destruct (init_ok_inv _ _ _ Hinit) as [con' [cov' [Hc' [_ [_ ->]]]]].
  rewrite Hc in Hc'; injection Hc' as <- <-.
  pose proof (check_conventions_inv _ _ _ Hc) as [Hs _].
  assert (Ncon : existsb is_open con = false).
  { apply (existsb_false_In _ _ _ Hno); intros c Hin.
    apply strip_braces_In, (split_indices_In _ _ _ _ Hs); auto. }
  assert (Ncov : existsb is_open cov = false).
  { apply (existsb_false_In _ _ _ Hno); intros c Hin.
    apply strip_braces_In, (split_indices_In _ _ _ _ Hs); auto. }
  destruct (split_indices_items true _ _ _ Hs)
    as [ic [iv [Econ [Ecov [Hic Hiv]]]]]; [discriminate|].
  assert (Gcon : spec_groups con = [] /\ without_sym con = con).
  { rewrite Econ in *; apply (no_group_part true ic Hic Ncon 0). }
  assert (Gcov : spec_groups cov = [] /\ without_sym cov = cov).
  { rewrite Ecov in *; apply (no_group_part true iv Hiv Ncov 0). }
  destruct Gcon as [G1 W1], Gcov as [G2 W2].
  unfold spec_after_groups; rewrite G1, G2, W1, W2, Ncon, Ncov, Hshared.
  reflexivity.
Qed.

End NoOperation.

(* ================================================================= *)
(** ** The instance built *)

Section Invariant.

Context {T : Type} {HT : Tensor T} {HL : TensorLaws T}.

(** What holds of every instance built from a notation without a
    newline: the parts are made of index symbols, share no letter, have
    no letter twice, and have the lengths of the type of the tensor
    held. *)
Lemma init_invariant (tensor : T) (indices : str)
      (self : TensorWithIndices) :
  __init__ tensor indices = Ok self -> ~ In newline indices ->
  forallb is_index_symbol (_con self) = true
  /\ forallb is_index_symbol (_cov self) = true
  /\ (forall c, c <> "."%char -> In c (_con self) -> ~ In c (_cov self))
  /\ letters_distinct (_con self) /\ letters_distinct (_cov self)
  /\ tensor_type (_tensor self) = (length (_con self), length (_cov self)).
Proof.
  intros Hinit Hn.
  destruct (init_ok_inv _ _ _ Hinit) as [con [cov [Hc [L1 [L2 Hself]]]]].
  pose proof (check_conventions_inv _ _ _ Hc) as [_ [R1 R2]].
  apply repeated_indices_spec in R1, R2.
  destruct (check_conventions_symbols _ _ _ Hc Hn) as [S1 [S2 _]].
  set (start := spec_after_groups tensor con cov) in *.
  set (zs := rev (shared_letters (without_sym con) (without_sym cov))) in *.
  destruct (contract_at_parts zs
              (Z.of_nat (fst (tensor_type (_tensor start)))) start)
    as [P1 [P2 [P3 [P4 _]]]].
  assert (Hr : rightmost_first (_con start) (_cov start) zs)
    by (apply shared_rightmost; exact R1).
  destruct (contract_at_letters zs start) as [E1 E2]; auto.
  { apply after_groups_type; assumption. }
  rewrite <- Hself in P1, P2, P3, P4.
  split; [|split; [|split; [|split; [|split]]]].
  - apply forallb_forall; intros c Hc'; apply P1 in Hc' as [Hc' _].
    rewrite forallb_forall in S1; apply S1; exact Hc'.
  - apply forallb_forall; intros c Hc'; apply P2 in Hc' as [Hc' _].
    rewrite forallb_forall in S2; apply S2; exact Hc'.
  - intros c Hdot H1 H2; apply P1 in H1 as [H1 Hz]; apply P2 in H2 as [H2 _].
    apply Hz; unfold zs; rewrite <- in_rev.
    apply filter_In; split; [exact H1|].
    apply andb_true_iff; split;
      [apply negb_true_iff, eqc_neq; exact Hdot | apply contains_In; exact H2].
  - apply P3; exact R1.
  - apply P4; exact R2.
  - rewrite Hself, E1; exact E2.
Qed.

End Invariant.

(* ================================================================= *)
(** ** Equivalent notations *)

Lemma Lang_con_then_cov (w : str) :
  Lang con_then_cov w <->
  exists hat a post,
    w = hat ++ a ++ post /\ (hat = [] \/ hat = ["^"%char])
    /\ Lang allowed_pattern a
    /\ (post = [] \/ exists b, post = "_"%char :: b /\ Lang allowed_pattern b).
Proof.
  unfold con_then_cov; rewrite Lang_seq; split.
  - intros [hat [v [-> [Hh Hv]]]].
    apply Lang_seq in Hv as [a [post [-> [Ha Hp]]]].
    exists hat, a, post; split; [reflexivity|]; split; [|split; [exact Ha|]].
    + apply Lang_alt in Hh as [Hh|Hh];
        [apply Lang_chr in Hh | apply Lang_eps in Hh]; auto.
    + apply Lang_alt in Hp as [Hp|Hp]; [right | left; apply Lang_eps; exact Hp].
      apply Lang_seq in Hp as [u [b [-> [Hu Hb]]]].
      apply Lang_chr in Hu; subst; exists b; auto.
  - intros [hat [a [post [-> [Hh [Ha Hp]]]]]].
    exists hat, (a ++ post); split; [reflexivity|]; split.
    + apply Lang_alt; destruct Hh as [->| ->];
        [right; apply Lang_eps | left; apply Lang_chr]; reflexivity.
    + apply Lang_seq; exists a, post; split; [reflexivity|].
      split; [exact Ha|]; apply Lang_alt.
      destruct Hp as [->|[b [-> Hb]]]; [right; apply Lang_eps; reflexivity|].
      left; apply Lang_seq; exists ["_"%char], b; repeat split; auto.
      apply Lang_chr; reflexivity.
Qed.

Lemma Lang_cov_then_con (w : str) :
  Lang cov_then_con w <->
  exists a post,
    w = "_"%char :: a ++ post /\ Lang allowed_pattern a
    /\ (post = [] \/ exists b, post = "^"%char :: b /\ Lang allowed_pattern b).
Proof.
  unfold cov_then_con; rewrite Lang_seq; split.
  - intros [u [v [-> [Hu Hv]]]]; apply Lang_chr in Hu; subst.
    apply Lang_seq in Hv as [a [post [-> [Ha Hp]]]].
    exists a, post; split; [reflexivity|]; split; [exact Ha|].
    apply Lang_alt in Hp as [Hp|Hp]; [right | left; apply Lang_eps; exact Hp].
    apply Lang_seq in Hp as [u [b [-> [Hu Hb]]]].
    apply Lang_chr in Hu; subst; exists b; auto.
  - intros [a [post [-> [Ha Hp]]]].
    exists ["_"%char], (a ++ post); split; [reflexivity|]; split.
    + apply Lang_chr; reflexivity.
    + apply Lang_seq; exists a, post; split; [reflexivity|].
      split; [exact Ha|]; apply Lang_alt.
      destruct Hp as [->|[b [-> Hb]]]; [right; apply Lang_eps; reflexivity|].
      left; apply Lang_seq; exists ["^"%char], b; repeat split; auto.
      apply Lang_chr; reflexivity.
Qed.

Lemma post_no_hat (post : str) :
  post = [] \/ (exists b, post = "_"%char :: b /\ Lang allowed_pattern b) ->
  ~ In "^"%char post.
Proof.
  intros [->|[b [-> Hb]]]; [auto|].
  intros [E|Hin]; [discriminate|].
  apply (proj1 (Lang_allowed_no_hat_underscore _ Hb)); exact Hin.
Qed.

Lemma match_con_then_cov_hat (s : str) :
  ~ In "^"%char s ->
  match_anchored con_then_cov ("^"%char :: s) = match_anchored con_then_cov s.
Proof.
  intros Hs; apply eq_true_iff_eq; rewrite !match_anchored_spec; split.
  - intros [w [tail [E [HL Ht]]]].
    apply Lang_con_then_cov in HL as [hat [a [post [-> [Hh [Ha Hp]]]]]].
    destruct Hh as [->| ->].
    + exfalso.
      assert (Hin : In "^"%char (([] ++ a ++ post) ++ tail))
        by (rewrite <- E; left; reflexivity).
      simpl in Hin; apply in_app_or in Hin as [Hin|Hin].
      * apply in_app_or in Hin as [Hin|Hin].
        -- apply (proj1 (Lang_allowed_no_hat_underscore _ Ha)); exact Hin.
        -- apply (post_no_hat _ Hp); exact Hin.
      * apply (proj1 (tail_no_hat_underscore _ Ht)); exact Hin.
    + simpl in E; injection E as E.
      exists (a ++ post), tail; split; [exact E|]; split; [|exact Ht].
      apply Lang_con_then_cov; exists [], a, post; auto.
  - intros [w [tail [-> [HL Ht]]]].
    apply Lang_con_then_cov in HL as [hat [a [post [-> [Hh [Ha Hp]]]]]].
    destruct Hh as [->| ->].
    + exists ("^"%char :: a ++ post), tail; split; [reflexivity|].
      split; [|exact Ht].
      apply Lang_con_then_cov; exists ["^"%char], a, post; auto.
    + exfalso; apply Hs; left; reflexivity.
Qed.

Lemma match_cov_then_con_hat (s : str) :
  match_anchored cov_then_con ("^"%char :: s) = false.
Proof.
  destruct (match_anchored cov_then_con ("^"%char :: s)) eqn:E;
    [|reflexivity].
  apply match_anchored_spec in E as [w [tail [E [HL Ht]]]].
  apply Lang_cov_then_con in HL as [a [post [-> _]]].
  discriminate.
Qed.

Lemma match_cov_then_con_plain (s : str) :
  ~ In "^"%char s -> match_anchored cov_then_con s = true ->
  match_anchored con_then_cov s = true.
Proof.
  intros Hs HB.
  apply match_anchored_spec in HB as [w [tail [-> [HL Ht]]]].
  apply Lang_cov_then_con in HL as [a [post [-> [Ha Hp]]]].
  apply match_anchored_spec.
  exists ("_"%char :: a ++ post), tail; split; [reflexivity|].
  split; [|exact Ht].
  destruct Hp as [->|[b [-> Hb]]].
  - apply Lang_con_then_cov.
    exists [], [], ("_"%char :: a ++ []); split; [reflexivity|].
    split; [auto|]; split; [constructor|].
    right; exists (a ++ []); rewrite app_nil_r; auto.
  - exfalso; apply Hs.
    right; apply in_or_app; left; apply in_or_app; right; left; reflexivity.
Qed.

(** The leading [^] may be left out. *)
Lemma split_indices_hat (s : str) :
  ~ In "^"%char s -> split_indices ("^"%char :: s) = split_indices s.
Proof.
  intros Hs; unfold split_indices.
  rewrite (match_con_then_cov_hat _ Hs), match_cov_then_con_hat.
  change (remove_char "^" ("^"%char :: s)) with (remove_char "^" s).
  destruct (match_anchored con_then_cov s) eqn:A; [reflexivity|].
  destruct (match_anchored cov_then_con s) eqn:B; [|reflexivity].
  rewrite (match_cov_then_con_plain _ Hs B) in A; discriminate.
Qed.

Lemma strip_braces_idem (indices : str) :
  strip_braces (strip_braces indices) = strip_braces indices.
Proof.
  unfold strip_braces.
  rewrite (remove_char_id "{" (remove_char "}" (remove_char "{" indices))).
  - apply remove_char_id; intros Hin.
    apply In_remove_char in Hin as [_ Hin]; congruence.
  - intros Hin; apply In_remove_char in Hin as [Hin _].
    apply In_remove_char in Hin as [_ Hin]; congruence.
Qed.

Section Variants.

Context {T : Type} {HT : Tensor T}.

Lemma init_same_check (tensor : T) (indices indices' : str) :
  check_conventions indices = check_conventions indices' ->
  __init__ tensor indices = __init__ tensor indices'.
Proof. intros E; unfold __init__; rewrite E; reflexivity. Qed.

(** C7.  For every tensor the notations ["ab_c"], ["^ab_c"] and
    ["^{ab}_{c}"] have the same outcome, which on a tensor of type (2,1)
    is the instance with the parts ["ab"] and ["c"] on the tensor given:
    braces are removed before anything else, so that two notations that
    differ by braces only have the same outcome, and a [^] put in front
    of a notation without [^] does not change the outcome. *)
Theorem notation_variants (tensor : T) :
  __init__ tensor (lit "^ab_c") = __init__ tensor (lit "ab_c")
  /\ __init__ tensor (lit "^{ab}_{c}") = __init__ tensor (lit "ab_c")
  /\ (tensor_type tensor = (2, 1)%nat ->
      __init__ tensor (lit "ab_c")
      = Ok {| _tensor := tensor; _changed := false;
              _con := lit "ab"; _cov := lit "c" |})
  /\ (forall indices indices',
         strip_braces indices = strip_braces indices' ->
         __init__ tensor indices = __init__ tensor indices')
  /\ (forall indices,
         __init__ tensor (strip_braces indices) = __init__ tensor indices)
  /\ (forall indices,
         ~ In "^"%char indices ->
         __init__ tensor ("^"%char :: indices) = __init__ tensor indices).
Proof.
  split; [|split; [|split; [|split; [|split]]]].
  - apply init_same_check; vm_compute; reflexivity.
  - apply init_same_check; vm_compute; reflexivity.
  - intros Ht.
    rewrite (init_groups tensor (lit "ab_c") (lit "ab") (lit "c"))
      by (vm_compute; reflexivity).
    rewrite Ht; reflexivity.
  - intros indices indices' E; apply init_same_check.
    unfold check_conventions; rewrite E; reflexivity.
  - intros indices; apply init_same_check.
    unfold check_conventions; rewrite strip_braces_idem; reflexivity.
  - intros indices Hn; apply init_same_check.
    unfold check_conventions.
    change (strip_braces ("^"%char :: indices))
      with ("^"%char :: strip_braces indices).
    rewrite split_indices_hat; [reflexivity|].
    intros Hin; apply Hn, strip_braces_In; exact Hin.
Qed.

End Variants.

(* ================================================================= *)
(** ** The convention check against the grammar of the specification *)

Lemma render_no_newline (items : list item) :
  forallb (item_ok false) items = true -> ~ In newline (render items).
Proof.
  intros Hok Hin.
  apply (render_chars _ _ _ Hok) in Hin as [Hc|[Hc|[Hc|[Hc _]]]];
    discriminate.
Qed.

Lemma Lang_allowed_render (items : list item) :
  forallb (item_ok false) items = true -> Lang allowed_pattern (render items).
Proof. intros Hok; apply Lang_allowed_items; exists items; auto. Qed.

Lemma hat_remove (hat : str) :
  hat = [] \/ hat = ["^"%char] -> remove_char "^" hat = [].
Proof. intros [->| ->]; reflexivity. Qed.

(** A well-formed notation passes the two patterns and is split into
    its two parts. *)
Lemma split_indices_complete (s : str) (con cov : list item) :
  spec_shape s con cov ->
  forallb (item_ok false) con = true -> forallb (item_ok false) cov = true ->
  split_indices s = Ok (render con, render cov).
Proof.
  intros Hshape Hcon Hcov.
  pose proof (Lang_allowed_render _ Hcon) as Lcon.
  pose proof (Lang_allowed_render _ Hcov) as Lcov.
  destruct (render_no_hat_underscore _ _ Hcon) as [C1 C2].
  destruct (render_no_hat_underscore _ _ Hcov) as [V1 V2].
  unfold split_indices.
  destruct Hshape as [hat Hh -> ->|hat Hh ->| ->].
  - assert (A : match_anchored con_then_cov (hat ++ render con) = true).
    { apply match_anchored_spec; exists (hat ++ render con), [].
      rewrite app_nil_r; split; [reflexivity|]; split; [|auto].
      apply Lang_con_then_cov; exists hat, (render con), [].
      rewrite app_nil_r; auto. }
    rewrite A; cbn [negb andb].
    rewrite remove_char_app, (hat_remove _ Hh); cbn [app].
    rewrite remove_char_id by exact C1.
    rewrite split_no_sep by exact C2; reflexivity.
  - assert (A : match_anchored con_then_cov
                  (hat ++ render con ++ "_"%char :: render cov) = true).
    { apply match_anchored_spec.
      exists (hat ++ render con ++ "_"%char :: render cov), [].
      rewrite app_nil_r; split; [reflexivity|]; split; [|auto].
      apply Lang_con_then_cov.
      exists hat, (render con), ("_"%char :: render cov).
      split; [reflexivity|]; split; [exact Hh|]; split; [exact Lcon|].
      right; exists (render cov); auto. }
    rewrite A; cbn [negb andb].
    rewrite !remove_char_app, (hat_remove _ Hh); cbn [app].
    rewrite (remove_char_id "^" (render con)) by exact C1.
    change (remove_char "^" ("_"%char :: render cov))
      with ("_"%char :: remove_char "^" (render cov)).
    rewrite remove_char_id by exact V1.
    rewrite split_at_sep by exact C2.
    rewrite split_no_sep by exact V2; reflexivity.
  - assert (A : match_anchored con_then_cov
                  ("_"%char :: render cov ++ "^"%char :: render con) = false).
    { destruct (match_anchored con_then_cov _) eqn:A; [|reflexivity].
      exfalso.
      apply match_anchored_spec in A as [w [tail [E [HL Ht]]]].
      apply Lang_con_then_cov in HL as [hat [a [post [-> [Hh [Ha Hp]]]]]].
      assert (Hin : In "^"%char ((hat ++ a ++ post) ++ tail)).
      { rewrite <- E; right; apply in_or_app; right; left; reflexivity. }
      destruct Hh as [->| ->]; [|discriminate].
      cbn [app] in E, Hin.
      apply in_app_or in Hin as [Hin|Hin];
        [|apply (proj1 (tail_no_hat_underscore _ Ht)); exact Hin].
      apply in_app_or in Hin as [Hin|Hin];
        [apply (proj1 (Lang_allowed_no_hat_underscore _ Ha)); exact Hin|].
      apply (post_no_hat _ Hp); exact Hin. }
    assert (B : match_anchored cov_then_con
                  ("_"%char :: render cov ++ "^"%char :: render con) = true).
    { apply match_anchored_spec.
      exists ("_"%char :: render cov ++ "^"%char :: render con), [].
      rewrite app_nil_r; split; [reflexivity|]; split; [|auto].
      apply Lang_cov_then_con.
      exists (render cov), ("^"%char :: render con).
      split; [reflexivity|]; split; [exact Lcov|].
      right; exists (render con); auto. }
    rewrite A, B; cbn [negb andb].
    change (slice_from ("_"%char :: render cov ++ "^"%char :: render con) 1)
      with (slice_from ("_"%char :: render cov ++ "^"%char :: render con)
                       (Z.of_nat 1)).
    rewrite slice_from_of_nat; cbn [skipn].
    rewrite split_at_sep by exact V1.
    rewrite split_no_sep by exact C1; reflexivity.
Qed.

(** The convention check accepts a notation without a newline exactly
    when it is well formed, and then returns its two parts; it raises
    [ValueError] exactly when the notation is not well formed. *)
Lemma check_conventions_grammar (indices : str) :
  ~ In newline indices ->
  (forall c v,
      check_conventions indices = Ok (c, v)
      <-> exists con cov,
          spec_well_formed (strip_braces indices) con cov
          /\ c = render con /\ v = render cov)
  /\ (check_conventions indices = Raise ValueError
      <-> ~ exists con cov, spec_well_formed (strip_braces indices) con cov).
Proof.
  intros Hn.
  assert (Hok : forall c v,
             check_conventions indices = Ok (c, v)
             <-> exists con cov,
                 spec_well_formed (strip_braces indices) con cov
                 /\ c = render con /\ v = render cov).
  { intros c v; split.
    - intros Hc.
      pose proof (check_conventions_inv _ _ _ Hc) as [Hs [R1 R2]].
      apply repeated_indices_spec in R1, R2.
      pose proof (strip_braces_newline _ Hn) as Hn'.
      assert (Htail : forall pre tail,
                 strip_braces indices = pre ++ tail ->
                 tail = [] \/ tail = [newline] -> tail = []).
      { intros pre tail E [->| ->]; [reflexivity|].
        exfalso; apply Hn'; rewrite E; apply in_or_app; right; left.
        reflexivity. }
      destruct (split_indices_shape _ _ _ Hs)
        as [hat a tail Hh Ha Ht Es Ec Ev
           |hat a b tail Hh Ha Hb Ht Es Ec Ev
           |a tail Ha Ht Es Ec Ev
           |a b tail Ha Hb Ht Es Ec Ev].
      + assert (tail = []) as ->.
        { apply (Htail (hat ++ a)); [rewrite <- app_assoc; exact Es|exact Ht]. }
        rewrite app_nil_r in *.
        apply Lang_allowed_items in Ha as [ic [-> Hic]].
        subst c v; exists ic, []; split; [|auto].
        rewrite (without_sym_render false) in R1 by exact Hic.
        split; [apply (SpecCon _ _ _ hat); auto|].
        repeat split; auto; constructor.
      + assert (tail = []) as ->.
        { apply (Htail (hat ++ a ++ "_"%char :: b)); [|exact Ht].
          rewrite Es, <- !app_assoc; reflexivity. }
        rewrite app_nil_r in *.
        apply Lang_allowed_items in Ha as [ic [-> Hic]].
        apply Lang_allowed_items in Hb as [iv [-> Hiv]].
        subst c v; exists ic, iv; split; [|auto].
        rewrite (without_sym_render false) in R1, R2 by assumption.
        split; [apply (SpecConCov _ _ _ hat); auto|].
        repeat split; auto.
      + assert (tail = []) as ->.
        { apply (Htail ("_"%char :: a)); [exact Es|exact Ht]. }
        rewrite app_nil_r in *.
        apply Lang_allowed_items in Ha as [iv [-> Hiv]].
        subst c v; exists [], iv; split; [|auto].
        rewrite (without_sym_render false) in R2 by exact Hiv.
        split; [apply (SpecConCov _ _ _ []); auto|].
        repeat split; auto; constructor.
      + assert (tail = []) as ->.
        { apply (Htail ("_"%char :: a ++ "^"%char :: b)); [|exact Ht].
          rewrite Es; cbn [app]; rewrite <- !app_assoc; reflexivity. }
        rewrite app_nil_r in *.
        apply Lang_allowed_items in Ha as [iv [-> Hiv]].
        apply Lang_allowed_items in Hb as [ic [-> Hic]].
        subst c v; exists ic, iv; split; [|auto].
        rewrite (without_sym_render false) in R1, R2 by assumption.
        split; [apply SpecCovCon; auto|].
        repeat split; auto.
    - intros [con [cov [[Hshape [Hcon [Hcov [D1 D2]]]] [-> ->]]]].
      unfold check_conventions.
      rewrite (split_indices_complete _ _ _ Hshape Hcon Hcov); cbn [bind].
      rewrite !(without_sym_render false) by assumption.
      apply repeated_indices_spec in D1, D2; rewrite D1, D2; reflexivity. }
  split; [exact Hok|]; split.
  - intros Hr [con [cov Hw]].
    assert (check_conventions indices = Ok (render con, render cov))
      by (apply Hok; eauto).
    congruence.
  - intros Hnw.
    destruct (check_conventions indices) as [[c v]|e|] eqn:E.
    + exfalso; apply Hnw.
      destruct (proj1 (Hok c v) eq_refl) as [con [cov [Hw _]]]; eauto.
    + rewrite (check_conventions_raises _ _ E); reflexivity.
    + exfalso; apply (check_conventions_terminates _ E).
Qed.

(* ================================================================= *)
(** ** The newline that [$] lets through *)

Section TrailingNewline.

Context {T : Type} {HT : Tensor T}.

(** C5, on the notation ["ab\n"].  A newline is not an index symbol,
    yet the convention check lets the notation through, with the newline
    as the third symbol of the contravariant part: [$] matches before a
    newline that ends the string.  [__init__] does not raise
    [ValueError] on it, whatever the tensor. *)
Theorem init_accepts_trailing_newline (tensor : T) :
  is_index_symbol newline = false
  /\ check_conventions (lit "ab" ++ [newline])
     = Ok (lit "ab" ++ [newline], [])
  /\ __init__ tensor (lit "ab" ++ [newline]) <> Raise ValueError.
Proof.
  split; [reflexivity|]; split; [vm_compute; reflexivity|].
  rewrite init_closed_form.
  replace (check_conventions (lit "ab" ++ [newline]))
    with (@Ok (str * str) (lit "ab" ++ [newline], []))
    by (vm_compute; reflexivity).
  cbv beta iota.
  destruct (negb _); [discriminate|].
  destruct (negb _); discriminate.
Qed.

End TrailingNewline.

#[global] Instance free_laws : TensorLaws Free.tensor.
Proof.
  constructor; intros; reflexivity.
Qed.

(** C9, on the notation ["ab\n"] and a tensor of type (3,0).  The
    instance is built, and its contravariant part holds the newline,
    which is neither a letter nor the dot. *)
Theorem init_keeps_trailing_newline :
  __init__ (Free.Named "t" 3 0) (lit "ab" ++ [newline])
  = Ok {| _tensor := Free.Named "t" 3 0; _changed := false;
          _con := lit "ab" ++ [newline]; _cov := [] |}
  /\ forallb is_index_symbol (lit "ab" ++ [newline]) = false.
Proof. split; vm_compute; reflexivity. Qed.

(* ================================================================= *)
(** ** Parts without punctuation *)

Lemma eqs_eq (s u : str) : eqs s u = true <-> s = u.
Proof.
  revert u; induction s as [|a s IH]; intros [|b u]; simpl; split;
    try discriminate; try reflexivity.
  - intros E; apply andb_true_iff in E as [E1 E2].
    apply eqc_eq in E1; apply IH in E2; subst; reflexivity.
  - intros E; injection E as -> ->.
    rewrite eqc_refl; simpl; apply IH; reflexivity.
Qed.

Lemma existsb_false_iff (f : ascii -> bool) (s : str) :
  existsb f s = false <-> forall c, In c s -> f c = false.
Proof.
  induction s as [|x s IH]; simpl.
  - split; [intros _ c [] | reflexivity].
  - rewrite orb_false_iff, IH; split.
    + intros [Hx Hs] c [<-|Hc]; auto.
    + intros Hall; split; [apply Hall; left; reflexivity|].
      intros c Hc; apply Hall; right; exact Hc.
Qed.

(** A string of index symbols, read as a part: its items are its
    symbols, and it has no group. *)
Lemma plain_items (s : str) :
  forallb is_index_symbol s = true ->
  forallb (item_ok false) (map Bare s) = true
  /\ symbols_of (map Bare s) = s
  /\ existsb is_open (render (map Bare s)) = false.
Proof.
  rewrite render_bare.
  induction s as [|c s IH]; simpl; intros Hs; [auto|].
  apply andb_true_iff in Hs as [Hc Hs].
  destruct (IH Hs) as [H1 [H2 H3]].
  rewrite Hc, H1, H2, H3, (index_symbol_not_open _ Hc); auto.
Qed.

Lemma shared_letters_nil (con cov : str) :
  shared_letters con cov = []
  <-> (forall c, c <> "."%char -> In c con -> ~ In c cov).
Proof.
  unfold shared_letters; induction con as [|x con IH]; simpl.
  - split; [intros _ c _ [] | reflexivity].
  - destruct (negb (eqc x ".") && contains x cov) eqn:E.
    + split; [discriminate|]; intros Hall; exfalso.
      apply andb_true_iff in E as [E1 E2].
      apply negb_true_iff, eqc_neq in E1; apply contains_In in E2.
      exact (Hall x E1 (or_introl eq_refl) E2).
    + rewrite IH; split.
      * intros Hall c Hc [<-|Hin] Hcov; [|exact (Hall c Hc Hin Hcov)].
        apply andb_false_iff in E as [E|E].
        -- apply negb_false_iff, eqc_eq in E; contradiction.
        -- apply contains_In in Hcov; congruence.
      * intros Hall c Hc Hin; apply (Hall c Hc); right; exact Hin.
Qed.

(** The characters of a notation of the grammar. *)
Lemma shape_chars (s : str) (con cov : list item) (c : ascii) :
  spec_shape s con cov -> In c s ->
  c = "^"%char \/ c = "_"%char \/ In c (render con) \/ In c (render cov).
Proof.
  intros [hat Hh _ ->|hat Hh ->| ->] Hin.
  - apply in_app_or in Hin as [Hin|Hin]; [|auto].
    destruct Hh as [->| ->]; [destruct Hin|].
    destruct Hin as [<-|[]]; auto.
  - apply in_app_or in Hin as [Hin|Hin].
    + destruct Hh as [->| ->]; [destruct Hin|].
      destruct Hin as [<-|[]]; auto.
    + apply in_app_or in Hin as [Hin|[<-|Hin]]; auto.
  - destruct Hin as [<-|Hin]; [auto|].
    apply in_app_or in Hin as [Hin|[<-|Hin]]; auto.
Qed.

Section PlainNotation.

Context {T : Type} {HT : Tensor T}.

(** A notation of the grammar whose parts are [con] and [cov] without
    any group, neither sharing a letter nor repeating one: on a tensor
    of the type of their lengths the constructor builds the instance
    with these parts on the tensor itself. *)
Lemma init_plain (t : T) (s con cov : str) :
  spec_shape s (map Bare con) (map Bare cov) ->
  forallb is_index_symbol con = true -> forallb is_index_symbol cov = true ->
  letters_distinct con -> letters_distinct cov ->
  shared_letters con cov = [] ->
  tensor_type t = (length con, length cov) ->
  __init__ t s = Ok {| _tensor := t; _changed := false;
                       _con := con; _cov := cov |}.
Proof.
  intros Hshape Hcon Hcov Dcon Dcov Hshared Htype.
  destruct (plain_items _ Hcon) as [Hic [Sic Oic]].
  destruct (plain_items _ Hcov) as [Hiv [Siv Oiv]].
  assert (Hbrace : forall b, is_index_symbol b = false ->
                             b <> "^"%char -> b <> "_"%char -> ~ In b s).
  { intros b Hb H1 H2 Hin.
    destruct (shape_chars _ _ _ b Hshape Hin) as [E|[E|[E|E]]];
      try contradiction; rewrite render_bare in E.
    - rewrite forallb_forall in Hcon; rewrite (Hcon b E) in Hb; discriminate.
    - rewrite forallb_forall in Hcov; rewrite (Hcov b E) in Hb; discriminate. }
  assert (Hstrip : strip_braces s = s).
  { unfold strip_braces.
    rewrite (remove_char_id "{" s)
      by (apply Hbrace; [reflexivity | discriminate | discriminate]).
    apply remove_char_id, Hbrace; [reflexivity | discriminate | discriminate]. }
  assert (Wcon : without_sym con = con).
  { rewrite <- (render_bare con) at 1.
    rewrite (without_sym_render false _ Hic); exact Sic. }
  assert (Wcov : without_sym cov = cov).
  { rewrite <- (render_bare cov) at 1.
    rewrite (without_sym_render false _ Hiv); exact Siv. }
  assert (Hcheck : check_conventions s = Ok (con, cov)).
  { unfold check_conventions; rewrite Hstrip.
    rewrite (split_indices_complete s _ _ Hshape Hic Hiv), !render_bare.
    cbn [bind]; rewrite Wcon, Wcov.
    rewrite (proj2 (repeated_indices_spec con) Dcon).
    rewrite (proj2 (repeated_indices_spec cov) Dcov); reflexivity. }
  rewrite init_closed_form, Hcheck, Wcon, Wcov, Htype.
  cbn [fst snd]; unfold len; rewrite !Z.eqb_refl; cbn [negb].
  rewrite render_bare in Oic, Oiv.
  assert (Gcon : spec_groups con = []).
  { rewrite <- (render_bare con).
    apply (no_group_part false _ Hic); rewrite render_bare; exact Oic. }
  assert (Gcov : spec_groups cov = []).
  { rewrite <- (render_bare cov).
    apply (no_group_part false _ Hiv); rewrite render_bare; exact Oiv. }
  cbv zeta; unfold spec_after_groups.
  rewrite Gcon, Gcov, Wcon, Wcov, Oic, Oiv.
  cbn [_con _cov]; rewrite Hshared; reflexivity.
Qed.

End PlainNotation.

(* ================================================================= *)
(** ** The outcomes of the constructor *)

Section Outcomes.

Context {T : Type} {HT : Tensor T}.


Lemma contract_at_same_parts (zs : str) :
  forall (p p' : Z) (self self' : TensorWithIndices),
    _con self' = _con self -> _cov self' = _cov self ->
    _changed self' = _changed self ->
    _con (contract_at p' zs self') = _con (contract_at p zs self)
    /\ _cov (contract_at p' zs self') = _cov (contract_at p zs self)
    /\ _changed (contract_at p' zs self') = _changed (contract_at p zs self).
Proof.
  induction zs as [|c zs IH]; intros p p' self self' E1 E2 E3; [auto|].
  cbn [contract_at]; apply IH; cbn [_con _cov _changed]; congruence.
Qed.

(** X2.  Of the tensor, the parts and the flag of the instance built
    depend on the type only: on another tensor of the same type the
    same notation builds an instance with the same parts and the same
    flag. *)
Theorem init_reads_type_only (tensor tensor' : T) (indices : str)
        (self : TensorWithIndices) :
  tensor_type tensor' = tensor_type tensor ->
  __init__ tensor indices = Ok self ->
  exists self',
    __init__ tensor' indices = Ok self'
    /\ _con self' = _con self /\ _cov self' = _cov self
    /\ _changed self' = _changed self.
Proof.
  intros Htype Hinit.
  destruct (init_ok_inv _ _ _ Hinit) as [con [cov [Hc [L1 [L2 ->]]]]].
  rewrite init_closed_form, Hc, Htype, L1, L2, !Z.eqb_refl; cbn [negb].
  cbv zeta; eexists; split; [reflexivity|].
  apply contract_at_same_parts; reflexivity.
Qed.

End Outcomes.

(* ================================================================= *)
(** ** The notation made of the parts of an instance *)

Section Rebuild.

Context {T : Type} {HT : Tensor T} {HL : TensorLaws T}.

(** The parts of an instance built from a notation without a newline,
    put in a notation of the grammar, are read back as they are on any
    tensor of the type of the one held. *)
Lemma init_rebuild (tensor t : T) (indices s : str)
      (self : TensorWithIndices) :
  __init__ tensor indices = Ok self -> ~ In newline indices ->
  spec_shape s (map Bare (_con self)) (map Bare (_cov self)) ->
  tensor_type t = tensor_type (_tensor self) ->
  __init__ t s = Ok {| _tensor := t; _changed := false;
                       _con := _con self; _cov := _cov self |}.
Proof.
  intros Hinit Hnl Hshape Htype.
  destruct (init_invariant _ _ _ Hinit Hnl)
    as [Hcon [Hcov [Hsh [Dcon [Dcov Hty]]]]].
  apply init_plain; try assumption.
  - apply shared_letters_nil; exact Hsh.
  - congruence.
Qed.

End Rebuild.

(* ================================================================= *)
(** ** [__pos__], [__neg__] and [__rmul__] *)

(** [con + '_' + cov] is a notation of the grammar. *)
Lemma shape_con_cov (con cov : list item) :
  spec_shape (render con ++ lit "_" ++ render cov) con cov.
Proof. apply (SpecConCov _ _ _ []); [left|]; reflexivity. Qed.

(** A newline that is not the last character is refused. *)
Lemma split_indices_inner_newline (a b : str) :
  b <> [] -> split_indices (a ++ newline :: b) = Raise ValueError.
Proof.
  intros Hb.
  destruct (split_indices (a ++ newline :: b)) as [[con cov]|e|] eqn:E.
  - exfalso.
    assert (Hend : forall x tail (y : str),
               ~ In newline x -> tail = [] \/ tail = [newline] ->
               x ++ tail = a ++ newline :: b -> False).
    { intros x tail y Hx Ht Heq.
      assert (Hin : In newline x).
      { destruct Ht as [->| ->].
        - rewrite app_nil_r in Heq; rewrite Heq.
          apply in_or_app; right; left; reflexivity.
        - destruct (exists_last Hb) as [b' [z Eb]]; rewrite Eb in Heq.
          change (x ++ [newline] = a ++ (newline :: b') ++ [z]) in Heq.
          rewrite !app_assoc in Heq.
          apply app_inj_tail in Heq as [-> _].
          apply in_or_app; right; left; reflexivity. }
      exact (Hx Hin). }
    assert (Hlang : forall x, Lang allowed_pattern x -> ~ In newline x).
    { intros x Hx.
      destruct (part_items false x [] Hx (or_introl eq_refl) (fun _ => eq_refl))
        as [items [Ex Hok]].
      rewrite app_nil_r in Ex; rewrite Ex; apply render_no_newline; exact Hok. }
    assert (Hhat : forall hat, hat = [] \/ hat = ["^"%char] ->
                               ~ In newline hat).
    { intros hat [->| ->] Hin; [destruct Hin|].
      destruct Hin as [Hin|[]]; discriminate Hin. }
    destruct (split_indices_shape _ _ _ E)
      as [hat x tail Hh Hx Ht Heq _ _
         |hat x y tail Hh Hx Hy Ht Heq _ _
         |x tail Hx Ht Heq _ _
         |x y tail Hx Hy Ht Heq _ _].
    + apply (Hend (hat ++ x) tail []); [|exact Ht|].
      * intros Hin; apply in_app_or in Hin as [Hin|Hin];
          [exact (Hhat _ Hh Hin) | exact (Hlang _ Hx Hin)].
      * rewrite <- app_assoc; symmetry; exact Heq.
    + apply (Hend (hat ++ x ++ "_"%char :: y) tail []); [|exact Ht|].
      * intros Hin; apply in_app_or in Hin as [Hin|Hin];
          [exact (Hhat _ Hh Hin)|].
        apply in_app_or in Hin as [Hin|[Hin|Hin]];
          [exact (Hlang _ Hx Hin) | discriminate Hin | exact (Hlang _ Hy Hin)].
      * rewrite Heq, <- !app_assoc; reflexivity.
    + apply (Hend ("_"%char :: x) tail []); [|exact Ht|].
      * intros [Hin|Hin]; [discriminate Hin | exact (Hlang _ Hx Hin)].
      * symmetry; exact Heq.
    + apply (Hend ("_"%char :: x ++ "^"%char :: y) tail []); [|exact Ht|].
      * intros [Hin|Hin]; [discriminate Hin|].
        apply in_app_or in Hin as [Hin|[Hin|Hin]];
          [exact (Hlang _ Hx Hin) | discriminate Hin | exact (Hlang _ Hy Hin)].
      * rewrite Heq; cbn [app]; rewrite <- !app_assoc; reflexivity.
  - rewrite (split_indices_raises _ _ E); reflexivity.
  - exfalso; exact (split_indices_terminates _ E).
Qed.

Section Arithmetic.

Context {T : Type} {HT : Tensor T} {HA : TensorArith T}.

(** X3.  An instance whose contravariant part holds a newline (the one
    that [$] lets through at the end of a notation that has no [_]) can
    be neither copied by [+], nor negated, nor multiplied by a scalar:
    the notation that the three methods rebuild has the newline before
    its [_], and the constructor raises [ValueError]. *)
Theorem arithmetic_refuses_newline (self : TensorWithIndices) :
  In newline (_con self) ->
  __pos__ self = Raise ValueError
  /\ __neg__ self = Raise ValueError
  /\ forall other, __rmul__ self other = Raise ValueError.
Proof.
  intros Hin.
  assert (Hcheck : check_conventions (_con self ++ lit "_" ++ _cov self)
                   = Raise ValueError).
  { unfold check_conventions.
    assert (Hs : In newline (remove_char "}" (remove_char "{" (_con self)))).
    { apply In_remove_char; split; [|discriminate].
      apply In_remove_char; split; [exact Hin | discriminate]. }
    apply in_split in Hs as [a [b Hs]].
    unfold strip_braces; rewrite !remove_char_app, Hs, <- app_assoc.
    cbn [app]; rewrite split_indices_inner_newline; [reflexivity|].
    intros E; apply app_eq_nil in E as [_ E]; discriminate E. }
  unfold __pos__, __neg__, __rmul__.
  repeat split; intros; rewrite init_closed_form, Hcheck; reflexivity.
Qed.

Context {HL : TensorLaws T} {HAL : TensorArithLaws T}.

(** X4.  On an instance built from a notation without a newline, whose
    parts are not both empty (the tensor held is then a tensor, not the
    scalar that a full contraction leaves), [+self], [-self] and
    [other*self] succeed: the instance returned holds [+t], [-t],
    [other*t] for [t] the tensor of [self], has the parts of [self],
    and its flag is unset: reading the parts again applies no operation
    to the tensor. *)
Theorem arithmetic_keeps_indices (tensor : T) (indices : str)
        (self : TensorWithIndices) :
  __init__ tensor indices = Ok self -> ~ In newline indices ->
  _con self <> [] \/ _cov self <> [] ->
  __pos__ self = Ok {| _tensor := tensor_pos (_tensor self);
                       _changed := false;
                       _con := _con self; _cov := _cov self |}
  /\ __neg__ self = Ok {| _tensor := tensor_neg (_tensor self);
                          _changed := false;
                          _con := _con self; _cov := _cov self |}
  /\ forall other,
      __rmul__ self other
      = Ok {| _tensor := tensor_scal other (_tensor self);
              _changed := false;
              _con := _con self; _cov := _cov self |}.
Proof.
  intros Hinit Hnl _.
  assert (Hshape : spec_shape (_con self ++ lit "_" ++ _cov self)
                              (map Bare (_con self)) (map Bare (_cov self))).
  { rewrite <- (render_bare (_con self)) at 1.
    rewrite <- (render_bare (_cov self)) at 1.
    apply shape_con_cov. }
  unfold __pos__, __neg__, __rmul__; repeat split; intros;
    apply (init_rebuild tensor _ indices _ self Hinit Hnl Hshape).
  - apply tensor_pos_type.
  - apply tensor_neg_type.
  - apply tensor_scal_type.
Qed.

End Arithmetic.

(* ================================================================= *)
(** ** [_repr_] *)

Section Repr.

Context {T : Type} {HT : Tensor T} {HA : TensorArith T}.

(** X5.  The display is ["scalar"] exactly when both parts are empty,
    whatever the name of the tensor: every other display has a [^] or
    a [_]. *)
Theorem repr_scalar (self : TensorWithIndices) :
  _repr_ self = lit "scalar" <-> _con self = [] /\ _cov self = [].
Proof.
  assert (Hsep : forall (name rest : str) (c : ascii),
             c = "^"%char \/ c = "_"%char ->
             name ++ c :: rest <> lit "scalar").
  { intros name rest c Hc E.
    assert (Hin : In c (lit "scalar"))
      by (rewrite <- E; apply in_or_app; right; left; reflexivity).
    vm_compute in Hin.
    destruct Hc as [-> | ->];
      repeat (destruct Hin as [Hin|Hin]; [discriminate Hin|]); exact Hin. }
  unfold _repr_; cbv zeta.
  destruct (eqs (_con self) (lit "")) eqn:E1;
    destruct (eqs (_cov self) (lit "")) eqn:E2.
  - apply eqs_eq in E1, E2; split; auto.
  - split; [intros E; exfalso; exact (Hsep _ _ _ (or_intror eq_refl) E)|].
    intros [_ E]; rewrite E in E2; discriminate E2.
  - split; [intros E; exfalso; exact (Hsep _ _ _ (or_introl eq_refl) E)|].
    intros [E _]; rewrite E in E1; discriminate E1.
  - split; [intros E; exfalso; exact (Hsep _ _ _ (or_introl eq_refl) E)|].
    intros [E _]; rewrite E in E1; discriminate E1.
Qed.

Context {HL : TensorLaws T}.

(** X6.  The display reads back.  For an instance built from a
    notation without a newline and whose parts are not both empty, the
    display is the name of the tensor held ([X] when it has none)
    followed by a notation from which the constructor, on the tensor
    held, builds the instance with the same parts and applies no
    operation. *)
Theorem repr_reads_back (tensor : T) (indices : str)
        (self : TensorWithIndices) :
  __init__ tensor indices = Ok self -> ~ In newline indices ->
  _con self <> [] \/ _cov self <> [] ->
  exists notation,
    _repr_ self = shown_name self ++ notation
    /\ __init__ (_tensor self) notation
       = Ok {| _tensor := _tensor self; _changed := false;
               _con := _con self; _cov := _cov self |}.
Proof.
  intros Hinit Hnl Hne.
  unfold _repr_, shown_name; cbv zeta.
  destruct (eqs (_con self) (lit "")) eqn:E1;
    destruct (eqs (_cov self) (lit "")) eqn:E2.
  - apply eqs_eq in E1, E2; destruct Hne as [Hne|Hne]; contradiction.
  - apply eqs_eq in E1.
    exists (lit "_" ++ _cov self); split; [reflexivity|].
    apply (init_rebuild tensor _ indices _ self Hinit Hnl); [|reflexivity].
    apply (SpecConCov _ _ _ []); [left; reflexivity|].
    rewrite E1, !render_bare; reflexivity.
  - apply eqs_eq in E2.
    exists (lit "^" ++ _con self); split; [reflexivity|].
    apply (init_rebuild tensor _ indices _ self Hinit Hnl); [|reflexivity].
    apply (SpecCon _ _ _ (lit "^")); [right; reflexivity | |].
    + rewrite E2; reflexivity.
    + rewrite render_bare; reflexivity.
  - exists (lit "^" ++ _con self ++ lit "_" ++ _cov self);
      split; [reflexivity|].
    apply (init_rebuild tensor _ indices _ self Hinit Hnl); [|reflexivity].
    apply (SpecConCov _ _ _ (lit "^")); [right; reflexivity|].
    rewrite !render_bare; reflexivity.
Qed.

End Repr.

(* ================================================================= *)
(** ** When the tensor is left as it is *)

Lemma split_indices_open (s con cov : str) (c : ascii) :
  split_indices s = Ok (con, cov) -> In c s -> is_open c = true ->
  In c con \/ In c cov.
Proof.
  intros Hs Hin Hc.
  assert (Hhat : forall hat, hat = [] \/ hat = ["^"%char] -> ~ In c hat).
  { intros hat [->| ->] H; [destruct H|].
    destruct H as [<-|[]]; discriminate Hc. }
  destruct (split_indices_shape _ _ _ Hs)
    as [hat a tail Hh Ha Ht -> -> ->
       |hat a b tail Hh Ha Hb Ht -> -> ->
       |a tail Ha Ht -> -> ->
       |a b tail Ha Hb Ht -> -> ->].
  - apply in_app_or in Hin as [Hin|Hin]; [destruct (Hhat _ Hh Hin) | auto].
  - apply in_app_or in Hin as [Hin|Hin]; [destruct (Hhat _ Hh Hin)|].
    apply in_app_or in Hin as [Hin|[<-|Hin]];
      [auto | discriminate Hc | auto].
  - destruct Hin as [<-|Hin]; [discriminate Hc | auto].
  - destruct Hin as [<-|Hin]; [discriminate Hc|].
    apply in_app_or in Hin as [Hin|[<-|Hin]];
      [auto | discriminate Hc | auto].
Qed.

Lemma check_conventions_open (indices con cov : str) :
  check_conventions indices = Ok (con, cov) ->
  existsb is_open con || existsb is_open cov = existsb is_open indices.
Proof.
  intros Hc; pose proof (check_conventions_inv _ _ _ Hc) as [Hs _].
  assert (E : existsb is_open con || existsb is_open cov = false
              <-> existsb is_open indices = false).
  { rewrite orb_false_iff, !existsb_false_iff; split.
    - intros [H1 H2] c Hin.
      destruct (is_open c) eqn:Ho; [exfalso | reflexivity].
      assert (Hin' : In c (strip_braces indices)).
      { unfold strip_braces.
        apply In_remove_char; split; [|intros ->; discriminate Ho].
        apply In_remove_char; split; [exact Hin|intros ->; discriminate Ho]. }
      destruct (split_indices_open _ _ _ c Hs Hin' Ho) as [H|H];
        [rewrite (H1 c H) in Ho | rewrite (H2 c H) in Ho]; discriminate Ho.
    - intros Hall; split; intros c Hin; apply Hall;
        apply strip_braces_In, (split_indices_In _ _ _ _ Hs); auto. }
  destruct (existsb is_open con || existsb is_open cov),
    (existsb is_open indices); try reflexivity.
  - apply (proj2 E); reflexivity.
  - symmetry; apply (proj1 E); reflexivity.
Qed.

Section Unchanged.

Context {T : Type} {HT : Tensor T}.

(** The flag of the instance built. *)
Lemma init_changed (tensor : T) (indices con cov : str)
      (self : TensorWithIndices) :
  check_conventions indices = Ok (con, cov) ->
  __init__ tensor indices = Ok self ->
  _changed self
  = (existsb is_open indices
     || negb (Nat.eqb (length (shared_letters (without_sym con)
                                              (without_sym cov))) 0)).
Proof.
  intros Hc Hinit.
  destruct (init_ok_inv _ _ _ Hinit) as [con' [cov' [Hc' [_ [_ ->]]]]].
  rewrite Hc in Hc'; injection Hc' as <- <-.
  destruct (contract_at_parts
              (rev (shared_letters (without_sym con) (without_sym cov)))
              (Z.of_nat (fst (tensor_type
                                (_tensor (spec_after_groups tensor con cov)))))
              (spec_after_groups tensor con cov)) as [_ [_ [_ [_ ->]]]].
  rewrite length_rev; cbn [spec_after_groups _changed].
  rewrite (check_conventions_open _ _ _ Hc); reflexivity.
Qed.

(** With the flag unset the instance holds the tensor given and the
    parts of the notation. *)
Lemma init_unchanged (tensor : T) (indices con cov : str)
      (self : TensorWithIndices) :
  check_conventions indices = Ok (con, cov) ->
  __init__ tensor indices = Ok self ->
  _changed self = false ->
  self = {| _tensor := tensor; _changed := false;
            _con := con; _cov := cov |}.
Proof.
  intros Hc Hinit Hch.
  rewrite (init_changed _ _ _ _ _ Hc Hinit) in Hch.
  apply orb_false_iff in Hch as [Hno Hsh].
  apply negb_false_iff, Nat.eqb_eq, length_zero_iff_nil in Hsh.
  destruct (init_ok_inv _ _ _ Hinit) as [con' [cov' [Hc' [_ [_ ->]]]]].
  rewrite Hc in Hc'; injection Hc' as <- <-.
  pose proof (check_conventions_inv _ _ _ Hc) as [Hs _].
  rewrite <- (check_conventions_open _ _ _ Hc) in Hno.
  apply orb_false_iff in Hno as [Ncon Ncov].
  destruct (split_indices_items true _ _ _ Hs)
    as [ic [iv [Econ [Ecov [Hic Hiv]]]]]; [discriminate|].
  assert (Gcon : spec_groups con = [] /\ without_sym con = con).
  { rewrite Econ in *; apply (no_group_part true ic Hic Ncon 0). }
  assert (Gcov : spec_groups cov = [] /\ without_sym cov = cov).
  { rewrite Ecov in *; apply (no_group_part true iv Hiv Ncov 0). }
  destruct Gcon as [G1 W1], Gcov as [G2 W2].
  rewrite Hsh; unfold spec_after_groups.
  rewrite G1, G2, W1, W2, Ncon, Ncov; reflexivity.
Qed.

(** X7.  What [update] returns after the constructor.  It returns the
    instance itself exactly when the notation has no opening
    parenthesis or bracket and its two parts share no letter; the
    instance then holds the tensor given and the parts of the notation.
    Otherwise it returns the tensor held. *)
Theorem update_after_init (tensor : T) (indices con cov : str)
        (self : TensorWithIndices) :
  check_conventions indices = Ok (con, cov) ->
  __init__ tensor indices = Ok self ->
  (update self = VIndexed self
   <-> existsb is_open indices = false
       /\ shared_letters (without_sym con) (without_sym cov) = [])
  /\ (update self = VIndexed self ->
      _tensor self = tensor /\ _con self = con /\ _cov self = cov)
  /\ (update self = VTensor (_tensor self)
      <-> existsb is_open indices = true
          \/ shared_letters (without_sym con) (without_sym cov) <> []).
Proof.
  intros Hc Hinit.
  pose proof (init_changed _ _ _ _ _ Hc Hinit) as Hch.
  pose proof (init_unchanged _ _ _ _ _ Hc Hinit) as Hun.
  assert (Hlen : forall l : str, Nat.eqb (length l) 0 = true <-> l = [])
    by (intros l; rewrite Nat.eqb_eq; apply length_zero_iff_nil).
  unfold update.
  destruct (_changed self); symmetry in Hch.
  - apply orb_true_iff in Hch.
    split; [|split].
    + split; [discriminate|].
      intros [Hno Hsh]; destruct Hch as [Hch|Hch].
      * congruence.
      * apply negb_true_iff in Hch; apply Hlen in Hsh; congruence.
    + discriminate.
    + split; [intros _|reflexivity].
      destruct Hch as [Hch|Hch]; [left; exact Hch|right].
      apply negb_true_iff in Hch; intros Hsh; apply Hlen in Hsh; congruence.
  - apply orb_false_iff in Hch as [Hno Hsh].
    apply negb_false_iff, Hlen in Hsh.
    split; [|split].
    + split; auto.
    + intros _; rewrite (Hun eq_refl); auto.
    + split; [discriminate|].
      intros [H|H]; [congruence | contradiction].
Qed.

End Unchanged.

(* ================================================================= *)
(** ** [__eq__] and [__ne__] *)

Section Equality.

Context {T : Type} {HT : Tensor T} {HA : TensorArith T}
        {HAL : TensorArithLaws T}.

(** X9.  Instances of one tensor.  An instance is equal to itself; and
    two instances built from the same tensor by notations that apply no
    operation to it are equal exactly when they have the same parts,
    and unequal exactly when a part differs. *)
Theorem eq_on_one_tensor (tensor : T) (indices indices' : str)
        (self other : TensorWithIndices) :
  __init__ tensor indices = Ok self -> __init__ tensor indices' = Ok other ->
  _changed self = false -> _changed other = false ->
  __eq__ self (VIndexed self) = Ok true
  /\ (__eq__ self (VIndexed other) = Ok true
      <-> _con self = _con other /\ _cov self = _cov other)
  /\ (__ne__ self (VIndexed other) = Ok true
      <-> _con self <> _con other \/ _cov self <> _cov other).
Proof.
  intros Hself Hother Cself Cother.
  assert (Hrefl : forall s : str, eqs s s = true)
    by (intros s; apply eqs_eq; reflexivity).
  assert (Hneq : forall s u : str, eqs s u = false <-> s <> u).
  { intros s u; rewrite <- eqs_eq; destruct (eqs s u); split; congruence. }
  destruct (init_ok_inv _ _ _ Hself) as [c1 [v1 [Hc1 _]]].
  destruct (init_ok_inv _ _ _ Hother) as [c2 [v2 [Hc2 _]]].
  pose proof (init_unchanged _ _ _ _ _ Hc1 Hself Cself) as E1.
  pose proof (init_unchanged _ _ _ _ _ Hc2 Hother Cother) as E2.
  assert (Eeq : __eq__ self (VIndexed other)
                = Ok (eqs (_con self) (_con other)
                      && eqs (_cov self) (_cov other))).
  { unfold __eq__; rewrite E1, E2; cbn [_tensor _con _cov].
    rewrite tensor_eq_refl; reflexivity. }
  split; [|split].
  - unfold __eq__; rewrite tensor_eq_refl, !Hrefl; reflexivity.
  - rewrite Eeq; split.
    + intros E; injection E as E; apply andb_true_iff in E as [Ea Eb].
      apply eqs_eq in Ea, Eb; auto.
    + intros [Ea Eb]; rewrite Ea, Eb, !Hrefl; reflexivity.
  - unfold __ne__; rewrite Eeq; cbn [bind]; split.
    + intros E; injection E as E.
      apply negb_true_iff, andb_false_iff in E as [E|E];
        apply Hneq in E; auto.
    + intros E; f_equal; apply negb_true_iff, andb_false_iff.
      destruct E as [E|E]; apply Hneq in E; auto.
Qed.

End Equality.

(* ================================================================= *)
(** ** Wildcards *)

Lemma dot_of_other (c x : ascii) :
  is_index_symbol x = false -> eqc (dot_of c) x = eqc c x.
Proof.
  intros Hx; unfold dot_of.
  destruct (is_index_symbol c) eqn:Hc; [|reflexivity].
  assert (E1 : eqc "." x = false)
    by (apply eqc_neq; intros <-; discriminate Hx).
  assert (E2 : eqc c x = false)
    by (apply eqc_neq; intros <-; congruence).
  rewrite E1, E2; reflexivity.
Qed.

Lemma dot_of_index_symbol (c : ascii) :
  is_index_symbol (dot_of c) = is_index_symbol c.
Proof.
  unfold dot_of; destruct (is_index_symbol c) eqn:Hc; [reflexivity|exact Hc].
Qed.

Lemma dots_app (a b : str) : dots (a ++ b) = dots a ++ dots b.
Proof. apply map_app. Qed.

Lemma dots_remove_char (x : ascii) (s : str) :
  is_index_symbol x = false -> remove_char x (dots s) = dots (remove_char x s).
Proof.
  intros Hx; unfold remove_char, dots.
  induction s as [|c s IH]; [reflexivity|].
  cbn [map filter]; rewrite (dot_of_other c x Hx), IH.
  destruct (negb (eqc c x)); reflexivity.
Qed.

Lemma strip_braces_dots (s : str) :
  strip_braces (dots s) = dots (strip_braces s).
Proof. unfold strip_braces; rewrite !dots_remove_char; reflexivity. Qed.

Lemma without_sym_dots (s : str) :
  without_sym (dots s) = dots (without_sym s).
Proof. unfold without_sym; rewrite !dots_remove_char; reflexivity. Qed.

Lemma dots_index_symbols (s : str) :
  forallb is_index_symbol (dots s) = forallb is_index_symbol s.
Proof.
  induction s as [|c s IH]; [reflexivity|].
  cbn [dots map forallb]; rewrite dot_of_index_symbol.
  fold (dots s); rewrite IH; reflexivity.
Qed.

Lemma dots_all_dots (s : str) :
  forallb is_index_symbol s = true ->
  forall c, In c (dots s) -> c = "."%char.
Proof.
  rewrite forallb_forall; intros Hs c Hin.
  apply in_map_iff in Hin as [x [<- Hx]].
  unfold dot_of; rewrite (Hs x Hx); reflexivity.
Qed.

Lemma dots_letters_distinct (s : str) :
  forallb is_index_symbol s = true -> letters_distinct (dots s).
Proof.
  intros Hs; unfold letters_distinct.
  assert (E : remove_char "." (dots s) = []).
  { destruct (remove_char "." (dots s)) as [|c r] eqn:E; [reflexivity|].
    assert (Hin : In c (remove_char "." (dots s)))
      by (rewrite E; left; reflexivity).
    apply In_remove_char in Hin as [Hin Hc].
    destruct (Hc (dots_all_dots s Hs c Hin)). }
  rewrite E; constructor.
Qed.

Lemma dots_shared_letters (a b : str) :
  forallb is_index_symbol a = true -> shared_letters (dots a) (dots b) = [].
Proof.
  intros Ha; apply shared_letters_nil; intros c Hc Hin.
  destruct (Hc (dots_all_dots a Ha c Hin)).
Qed.

Lemma dots_no_newline (s : str) : ~ In newline s -> ~ In newline (dots s).
Proof.
  intros Hn Hin; apply in_map_iff in Hin as [x [E Hx]].
  unfold dot_of in E; destruct (is_index_symbol x); [discriminate E|].
  subst; exact (Hn Hx).
Qed.

Lemma dots_length (s : str) : length (dots s) = length s.
Proof. apply length_map. Qed.

Lemma render_dots (items : list item) :
  render (map dot_item items) = dots (render items).
Proof.
  induction items as [|[c|paren symbols] items IH]; [reflexivity| |].
  - cbn [map dot_item render dots]; rewrite IH; reflexivity.
  - cbn [map dot_item render]; rewrite IH.
    change (opening paren :: symbols ++ closing paren :: render items)
      with ([opening paren] ++ symbols ++ [closing paren] ++ render items).
    rewrite !dots_app; destruct paren; reflexivity.
Qed.

Lemma symbols_of_dots (items : list item) :
  symbols_of (map dot_item items) = dots (symbols_of items).
Proof.
  induction items as [|[c|paren symbols] items IH]; [reflexivity| |].
  - cbn [map dot_item symbols_of dots]; rewrite IH; reflexivity.
  - cbn [map dot_item symbols_of]; rewrite IH, dots_app; reflexivity.
Qed.

Lemma item_ok_dots (items : list item) :
  forallb (item_ok false) (map dot_item items)
  = forallb (item_ok false) items.
Proof.
  induction items as [|[c|paren symbols] items IH]; [reflexivity| |];
    cbn [map dot_item forallb]; rewrite IH; f_equal.
  - unfold item_ok; rewrite dot_of_index_symbol; reflexivity.
  - unfold item_ok; rewrite dots_index_symbols, dots_length; reflexivity.
Qed.

Lemma spec_shape_dots (s : str) (con cov : list item) :
  spec_shape s con cov ->
  spec_shape (dots s) (map dot_item con) (map dot_item cov).
Proof.
  assert (Hhat : forall hat, hat = [] \/ hat = ["^"%char] -> dots hat = hat)
    by (intros hat [->| ->]; reflexivity).
  intros [hat Hh -> ->|hat Hh ->| ->].
  - apply (SpecCon _ _ _ hat); [exact Hh | reflexivity|].
    rewrite dots_app, (Hhat _ Hh), render_dots; reflexivity.
  - apply (SpecConCov _ _ _ hat); [exact Hh|].
    change (render cov) with ([] ++ render cov).
    rewrite !render_dots.
    change ("_"%char :: render cov) with (["_"%char] ++ render cov).
    rewrite !dots_app, (Hhat _ Hh); reflexivity.
  - apply SpecCovCon.
    rewrite !render_dots.
    change ("_"%char :: render cov ++ "^"%char :: render con)
      with (["_"%char] ++ render cov ++ ["^"%char] ++ render con).
    rewrite !dots_app; reflexivity.
Qed.

Lemma groups_from_dots (s : str) :
  forall axis opened,
    spec_groups_from axis opened (dots s) = spec_groups_from axis opened s.
Proof.
  induction s as [|c s IH]; intros axis opened; [reflexivity|].
  cbn [dots map spec_groups_from]; fold (dots s); unfold is_close.
  rewrite !(dot_of_other c) by reflexivity.
  rewrite !IH; reflexivity.
Qed.

Lemma existsb_is_open_dots (s : str) :
  existsb is_open (dots s) = existsb is_open s.
Proof.
  induction s as [|c s IH]; [reflexivity|].
  cbn [dots map existsb]; fold (dots s); unfold is_open at 1 3.
  rewrite !(dot_of_other c) by reflexivity.
  rewrite IH; reflexivity.
Qed.

(** The convention check is blind to the letters when no letter is
    repeated: with dots for the index symbols the notation passes, and
    the parts are those of the notation with dots for their symbols. *)
Lemma check_conventions_dots (indices con cov : str) :
  ~ In newline indices ->
  check_conventions indices = Ok (con, cov) ->
  check_conventions (dots indices) = Ok (dots con, dots cov).
Proof.
  intros Hnl Hc.
  destruct (check_conventions_grammar indices Hnl) as [Hok _].
  destruct (proj1 (Hok con cov) Hc)
    as [ic [iv [[Hshape [Hic [Hiv [Dic Div]]]] [-> ->]]]].
  destruct (check_conventions_grammar (dots indices) (dots_no_newline _ Hnl))
    as [Hok' _].
  apply (Hok' (dots (render ic)) (dots (render iv))).
  exists (map dot_item ic), (map dot_item iv); split; [|split].
  - split; [|split; [|split; [|split]]].
    + rewrite strip_braces_dots; apply spec_shape_dots; exact Hshape.
    + rewrite item_ok_dots; exact Hic.
    + rewrite item_ok_dots; exact Hiv.
    + rewrite symbols_of_dots; apply dots_letters_distinct.
      apply (symbols_of_index_symbols ic Hic).
    + rewrite symbols_of_dots; apply dots_letters_distinct.
      apply (symbols_of_index_symbols iv Hiv).
  - symmetry; apply render_dots.
  - symmetry; apply render_dots.
Qed.

Section Wildcards.

Context {T : Type} {HT : Tensor T}.

(** X10.  The letters matter to the contractions only.  When the two
    parts of a notation without a newline share no letter, the notation
    with a dot in the place of every index symbol is accepted as well,
    and builds the instance on the same tensor (the same symmetrizations
    and antisymmetrizations on the same positions), with the same flag,
    and with the parts of the first with dots for their symbols. *)
Theorem init_wildcards (tensor : T) (indices con cov : str)
        (self : TensorWithIndices) :
  ~ In newline indices ->
  check_conventions indices = Ok (con, cov) ->
  __init__ tensor indices = Ok self ->
  shared_letters (without_sym con) (without_sym cov) = [] ->
  __init__ tensor (dots indices)
  = Ok {| _tensor := _tensor self; _changed := _changed self;
          _con := dots (_con self); _cov := dots (_cov self) |}.
Proof.
  intros Hnl Hc Hinit Hsh.
  destruct (init_ok_inv _ _ _ Hinit) as [con' [cov' [Hc' [L1 [L2 ->]]]]].
  rewrite Hc in Hc'; injection Hc' as <- <-.
  destruct (check_conventions_symbols _ _ _ Hc Hnl) as [S1 [S2 _]].
  rewrite init_closed_form, (check_conventions_dots _ _ _ Hnl Hc).
  rewrite !without_sym_dots; unfold len in *.
  rewrite !dots_length, L1, L2, !Z.eqb_refl; cbn [negb].
  cbv zeta; unfold spec_after_groups; cbn [_con _cov].
  rewrite !without_sym_dots, (dots_shared_letters _ _ S1), Hsh.
  unfold spec_groups; rewrite !groups_from_dots, !existsb_is_open_dots.
  reflexivity.
Qed.

End Wildcards.

(* ================================================================= *)
(** ** The axes of the groups *)

Lemma groups_apart_from (from from' upto : Z) (gs : list (bool * Z * Z)) :
  from' <= from -> groups_apart from upto gs -> groups_apart from' upto gs.
Proof.
  destruct gs as [|[[paren first] last] gs]; cbn [groups_apart];
    [intros; lia|].
  intros Hle [H1 [H2 H3]]; split; [lia|]; split; assumption.
Qed.

Lemma groups_apart_items (nl : bool) (items : list item) :
  forallb (item_ok nl) items = true ->
  forall axis,
    groups_apart axis (axis + len (symbols_of items))
                 (spec_groups_from axis None (render items)).
Proof.
  induction items as [|[c|paren symbols] items IH]; intros Hok axis.
  - cbn [render symbols_of spec_groups_from groups_apart]; unfold len.
    cbn [length]; lia.
  - cbn [forallb] in Hok; apply andb_true_iff in Hok as [Hc Hok].
    cbn [render symbols_of]; rewrite (groups_from_bare nl _ _ _ _ Hc).
    apply (groups_apart_from (axis + 1)); [lia|].
    replace (axis + len (c :: symbols_of items))
      with (axis + 1 + len (symbols_of items))
      by (unfold len; cbn [length]; lia).
    apply IH; exact Hok.
  - cbn [forallb] in Hok; apply andb_true_iff in Hok as [Hg Hok].
    unfold item_ok in Hg; apply andb_true_iff in Hg as [Hs Hl].
    apply Nat.leb_le in Hl.
    cbn [render symbols_of]; rewrite (groups_from_group _ _ _ _ Hs).
    cbn [groups_apart]; split; [lia|]; split; [unfold len; lia|].
    replace (axis + len (symbols ++ symbols_of items))
      with (axis + len symbols + len (symbols_of items))
      by (unfold len; rewrite length_app; lia).
    apply IH; exact Hok.
Qed.

Lemma range_spec (a b x : Z) : In x (range a b) <-> a <= x < b.
Proof.
  unfold range; rewrite in_map_iff; split.
  - intros [k [<- Hk]]; apply in_seq in Hk; lia.
  - intros Hx; exists (Z.to_nat (x - a)); split; [lia|].
    apply in_seq; lia.
Qed.

Lemma range_NoDup (a b : Z) : NoDup (range a b).
Proof.
  unfold range; apply Finite.Injective_map_NoDup_in; [|apply seq_NoDup].
  intros x y _ _ E; lia.
Qed.

Lemma range_length (a b : Z) : a <= b -> Z.of_nat (length (range a b)) = b - a.
Proof. intros Hab; unfold range; rewrite length_map, length_seq; lia. Qed.

Section GroupAxes.

Context {T : Type} {HT : Tensor T}.

(** X11.  The positions that the symmetrizations and the
    antisymmetrizations receive.  On a part of a notation that passed
    the convention check the loop on the groups ends, and makes one call
    for each group of the part, from left to right, on the tensor the
    previous call returned, with the positions [range(offset + first,
    offset + last)]; the groups lie one after the other within the
    symbols of the part, each on two positions at least, so that no
    call is given a position twice, two calls of a part never share a
    position, and every position is one of the part. *)
Theorem init_groups_axes (indices con cov : str) :
  check_conventions indices = Ok (con, cov) ->
  (forall (t : T) ch,
      sym_loop con_offset (length con) t ch con
      = Ok (spec_apply_groups con_offset (spec_groups con) t,
            ch || existsb is_open con, without_sym con))
  /\ (forall (t : T) ch,
         sym_loop cov_offset (length cov) t ch cov
         = Ok (spec_apply_groups cov_offset (spec_groups cov) t,
               ch || existsb is_open cov, without_sym cov))
  /\ groups_apart 0 (len (without_sym con)) (spec_groups con)
  /\ groups_apart 0 (len (without_sym cov)) (spec_groups cov)
  /\ (forall a b x, In x (range a b) <-> a <= x < b)
  /\ (forall a b, NoDup (range a b)).
Proof.
  intros Hc; pose proof (check_conventions_inv _ _ _ Hc) as [Hs _].
  destruct (split_indices_items true _ _ _ Hs)
    as [ic [iv [-> [-> [Hic Hiv]]]]]; [discriminate|].
  rewrite !(without_sym_render true) by assumption.
  split; [|split; [|split; [|split; [|split]]]].
  - intros t ch; rewrite <- (without_sym_render true _ Hic).
    apply (sym_loop_part true); exact Hic.
  - intros t ch; rewrite <- (without_sym_render true _ Hiv).
    apply (sym_loop_part true); exact Hiv.
  - apply (groups_apart_items true ic Hic 0).
  - apply (groups_apart_items true iv Hiv 0).
  - apply range_spec.
  - apply range_NoDup.
Qed.

End GroupAxes.

(* ================================================================= *)
(** ** The positions that [__mul__] contracts *)

Lemma shared_letters_In (a b : str) (c : ascii) :
  In c (shared_letters a b) <-> In c a /\ c <> "."%char /\ In c b.
Proof.
  unfold shared_letters.
  rewrite filter_In, andb_true_iff, negb_true_iff, eqc_neq, contains_In.
  tauto.
Qed.

Lemma shared_letters_NoDup (a b : str) :
  letters_distinct a -> NoDup (shared_letters a b).
Proof.
  unfold letters_distinct, shared_letters, remove_char.
  assert (E : filter (fun c => negb (eqc c ".") && contains c b) a
              = filter (fun c => contains c b)
                       (filter (fun x => negb (eqc x ".")) a)).
  { induction a as [|x a IH]; [reflexivity|].
    cbn [filter]; destruct (negb (eqc x ".")); cbn [andb filter];
      [|exact IH].
    destruct (contains x b); [f_equal|]; exact IH. }
  rewrite E; apply NoDup_filter.
Qed.

Lemma shared_letters_swap (a b : str) :
  letters_distinct a -> letters_distinct b ->
  Permutation (shared_letters a b) (shared_letters b a).
Proof.
  intros Ha Hb; apply NoDup_Permutation;
    try (apply shared_letters_NoDup; assumption).
  intros c; rewrite !shared_letters_In; tauto.
Qed.

Lemma collide_sym (a b : str) : collide a b = collide b a.
Proof.
  assert (E : forall a b, collide a b = true -> collide b a = true).
  { intros x y H; apply collide_spec in H as [c [H1 [H2 H3]]].
    apply collide_spec; exists c; auto. }
  destruct (collide a b) eqn:E1, (collide b a) eqn:E2; try reflexivity.
  - apply E in E1; congruence.
  - apply E in E2; congruence.
Qed.

Section MulLoops.

Context {T : Type} {HT : Tensor T}.

(** The two loops of [__mul__] together. *)
Lemma mul_loops (self other : TensorWithIndices) :
  (forall ps1 ps,
      mul_con_loop (_con self) self other [] = Ok ps1 ->
      mul_cov_loop (_cov self) self other ps1 = Ok ps ->
      ps = spec_cross_pairs self other
      /\ collide (_con self) (_con other) = false
      /\ collide (_cov self) (_cov other) = false)
  /\ (collide (_con self) (_con other) = false ->
      collide (_cov self) (_cov other) = false ->
      exists ps1,
        mul_con_loop (_con self) self other [] = Ok ps1
        /\ mul_cov_loop (_cov self) self other ps1
           = Ok (spec_cross_pairs self other)).
Proof.
  rewrite (mul_con_loop_spec (_con self) self other []) by auto.
  fold (collide (_con self) (_con other)).
  split.
  - intros ps1 ps.
    destruct (collide (_con self) (_con other)); [discriminate|].
    intros E; injection E as <-.
    rewrite (mul_cov_loop_spec (_cov self) self other _) by auto.
    fold (collide (_cov self) (_cov other)).
    destruct (collide (_cov self) (_cov other)); [discriminate|].
    intros E; injection E as <-; auto.
  - intros -> H2; eexists; split; [reflexivity|].
    rewrite (mul_cov_loop_spec (_cov self) self other _) by auto.
    fold (collide (_cov self) (_cov other)); rewrite H2; reflexivity.
Qed.

Context {HL : TensorLaws T}.

(** X12.  The positions that [__mul__] contracts, for two instances
    built from notations without a newline.  Every pair joins a
    contravariant position of one tensor to a covariant position of the
    other, both within the type of their tensor, and no position of
    either tensor is in two pairs. *)
Theorem mul_positions (tensor1 tensor2 : T) (indices1 indices2 : str)
        (self other : TensorWithIndices) (pairs1 pairs : list (Z * Z)) :
  __init__ tensor1 indices1 = Ok self -> ~ In newline indices1 ->
  __init__ tensor2 indices2 = Ok other -> ~ In newline indices2 ->
  mul_con_loop (_con self) self other [] = Ok pairs1 ->
  mul_cov_loop (_cov self) self other pairs1 = Ok pairs ->
  (forall pos1 pos2,
      In (pos1, pos2) pairs ->
      let k1 := Z.of_nat (fst (tensor_type (_tensor self))) in
      let l1 := Z.of_nat (snd (tensor_type (_tensor self))) in
      let k2 := Z.of_nat (fst (tensor_type (_tensor other))) in
      let l2 := Z.of_nat (snd (tensor_type (_tensor other))) in
      (0 <= pos1 < k1 /\ k2 <= pos2 < k2 + l2)
      \/ (k1 <= pos1 < k1 + l1 /\ 0 <= pos2 < k2))
  /\ NoDup (map fst pairs) /\ NoDup (map snd pairs).
Proof.
  intros Hself N1 Hother N2 Hcon Hcov.
  destruct (init_invariant _ _ _ Hself N1) as [_ [_ [_ [D1 [D1' Ty1]]]]].
  destruct (init_invariant _ _ _ Hother N2) as [_ [_ [_ [D2 [D2' Ty2]]]]].
  destruct (proj1 (mul_loops self other) _ _ Hcon Hcov) as [-> _].
  unfold spec_cross_pairs; rewrite Ty1, Ty2; cbn [fst snd].
  fold (len (_con self)); fold (len (_cov self)).
  fold (len (_con other)); fold (len (_cov other)).
  assert (Hpos : forall c s, In c s -> 0 <= position c s < len s).
  { intros c s Hin; split;
      [apply position_bounds | apply position_In; exact Hin]. }
  split; [|split].
  - intros pos1 pos2 Hin; cbv zeta.
    apply in_app_or in Hin as [Hin|Hin];
      apply in_map_iff in Hin as [c [E Hc]]; injection E as <- <-;
      apply shared_letters_In in Hc as [Ha [_ Hb]];
      pose proof (Hpos _ _ Ha); pose proof (Hpos _ _ Hb); [left|right]; lia.
  - rewrite map_app, !map_map; cbn [fst].
    apply NoDup_app.
    + apply Finite.Injective_map_NoDup_in;
        [|apply shared_letters_NoDup; exact D1].
      intros x y Hx Hy E.
      apply shared_letters_In in Hx as [Hx _], Hy as [Hy _].
      exact (position_inj _ _ _ Hx Hy E).
    + apply Finite.Injective_map_NoDup_in;
        [|apply shared_letters_NoDup; exact D1'].
      intros x y Hx Hy E.
      apply shared_letters_In in Hx as [Hx _], Hy as [Hy _].
      apply (position_inj _ _ _ Hx Hy); lia.
    + intros a Ha Hb.
      apply in_map_iff in Ha as [x [<- Hx]], Hb as [y [E Hy]].
      apply shared_letters_In in Hx as [Hx _], Hy as [Hy _].
      pose proof (Hpos _ _ Hx); pose proof (Hpos _ _ Hy); lia.
  - rewrite map_app, !map_map; cbn [snd].
    apply NoDup_app.
    + apply Finite.Injective_map_NoDup_in;
        [|apply shared_letters_NoDup; exact D1].
      intros x y Hx Hy E.
      apply shared_letters_In in Hx as [_ [_ Hx]], Hy as [_ [_ Hy]].
      apply (position_inj _ _ _ Hx Hy); lia.
    + apply Finite.Injective_map_NoDup_in;
        [|apply shared_letters_NoDup; exact D1'].
      intros x y Hx Hy E.
      apply shared_letters_In in Hx as [_ [_ Hx]], Hy as [_ [_ Hy]].
      exact (position_inj _ _ _ Hx Hy E).
    + intros a Ha Hb.
      apply in_map_iff in Ha as [x [<- Hx]], Hb as [y [E Hy]].
      apply shared_letters_In in Hx as [_ [_ Hx]], Hy as [_ [_ Hy]].
      pose proof (Hpos _ _ Hx); pose proof (Hpos _ _ Hy); lia.
Qed.

(** X13.  The two orders of a product.  [other*self] raises the
    collision error exactly when [self*other] does; and when the loops
    of [self*other] end with a list of pairs, those of [other*self] end
    with the same pairs turned round, up to their order. *)
Theorem mul_swap (tensor1 tensor2 : T) (indices1 indices2 : str)
        (self other : TensorWithIndices) :
  __init__ tensor1 indices1 = Ok self -> ~ In newline indices1 ->
  __init__ tensor2 indices2 = Ok other -> ~ In newline indices2 ->
  (__mul__ self (VIndexed other) = Raise IndexError
   <-> __mul__ other (VIndexed self) = Raise IndexError)
  /\ (forall pairs1 pairs,
         mul_con_loop (_con self) self other [] = Ok pairs1 ->
         mul_cov_loop (_cov self) self other pairs1 = Ok pairs ->
         exists pairs1' pairs',
           mul_con_loop (_con other) other self [] = Ok pairs1'
           /\ mul_cov_loop (_cov other) other self pairs1' = Ok pairs'
           /\ Permutation pairs' (map (fun p => (snd p, fst p)) pairs)).
Proof.
  intros Hself N1 Hother N2.
  destruct (init_invariant _ _ _ Hself N1) as [_ [_ [_ [D1 [D1' _]]]]].
  destruct (init_invariant _ _ _ Hother N2) as [_ [_ [_ [D2 [D2' _]]]]].
  split.
  - rewrite !mul_closed_form.
    rewrite (collide_sym (_con other)), (collide_sym (_cov other)).
    destruct (collide (_con self) (_con other)); [tauto|].
    destruct (collide (_cov self) (_cov other)); [tauto|].
    destruct (spec_cross_pairs self other), (spec_cross_pairs other self);
      split; discriminate.
  - intros pairs1 pairs Hcon Hcov.
    destruct (proj1 (mul_loops self other) _ _ Hcon Hcov) as [-> [C1 C2]].
    rewrite collide_sym in C1, C2.
    destruct (proj2 (mul_loops other self) C1 C2) as [pairs1' [E1 E2]].
    exists pairs1', (spec_cross_pairs other self).
    split; [exact E1|]; split; [exact E2|].
    unfold spec_cross_pairs; rewrite map_app, !map_map; cbn [fst snd].
    etransitivity; [apply Permutation_app_comm|].
    apply Permutation_app; apply Permutation_map;
      apply shared_letters_swap; assumption.
Qed.

End MulLoops.

(* ================================================================= *)
(** ** The test on repeated indices, in words *)

Lemma count_twice (l : str) :
  (NoDup l /\ forall c, count c l <= 1)
  \/ (exists c, 2 <= count c l) /\ ~ NoDup l.
Proof.
  induction l as [|x l [[Hnd Hle]|[[c Hc] Hnd]]].
  - left; split; [constructor | intros c; unfold count; cbn; lia].
  - destruct (contains x l) eqn:E.
    + apply contains_In in E; right; split.
      * exists x; rewrite count_cons, eqc_refl.
        pose proof (count_nonneg x l) as H0.
        assert (count x l <> 0) by (rewrite count_zero; auto).
        lia.
      * intros H; inversion H; contradiction.
    + apply contains_not_In in E; left; split; [constructor; assumption|].
      intros c; rewrite count_cons.
      destruct (eqc c x) eqn:Ec; [|specialize (Hle c); lia].
      apply eqc_eq in Ec; subst c.
      apply count_zero in E; lia.
  - right; split.
    + exists c; rewrite count_cons; destruct (eqc c x); lia.
    + intros H; inversion H; contradiction.
Qed.

Lemma count_remove_char (c x : ascii) (s : str) :
  count c (remove_char x s) = if eqc c x then 0 else count c s.
Proof.
  induction s as [|y s IH]; [destruct (eqc c x); reflexivity|].
  unfold remove_char in *; cbn [filter].
  destruct (eqc y x) eqn:Eyx; cbn [negb].
  - rewrite IH, count_cons; apply eqc_eq in Eyx; subst y.
    destruct (eqc c x); lia.
  - rewrite !count_cons, IH.
    destruct (eqc c x) eqn:Ecx; [|reflexivity].
    apply eqc_eq in Ecx; subst c.
    destruct (eqc x y) eqn:Exy; [|lia].
    apply eqc_eq in Exy; subst y; rewrite eqc_refl in Eyx; discriminate.
Qed.

(** X14.  The test [len(s) != len(set(s)) + max(s.count(".")-1, 0)] on
    a part: it holds exactly when some symbol other than the dot occurs
    twice at least; the dots, however many, never make it hold. *)
Theorem repeated_indices_iff (s : str) :
  repeated_indices s = true
  <-> exists c, c <> "."%char /\ 2 <= count c s.
Proof.
  pose proof (repeated_indices_spec s) as Hspec.
  unfold letters_distinct in Hspec.
  assert (Hcount : forall c, count c (remove_char "." s)
                             = if eqc c "." then 0 else count c s)
    by (intros c; apply count_remove_char).
  destruct (count_twice (remove_char "." s)) as [[Hnd Hle]|[[c Hc] Hnd]].
  - apply Hspec in Hnd; rewrite Hnd; split; [discriminate|].
    intros [c [Hdot Hc]]; specialize (Hle c); rewrite Hcount in Hle.
    apply eqc_neq in Hdot; rewrite Hdot in Hle; lia.
  - destruct (repeated_indices s); [|destruct (Hnd (proj1 Hspec eq_refl))].
    split; [intros _|reflexivity].
    exists c; rewrite Hcount in Hc.
    destruct (eqc c ".") eqn:E; [lia|].
    apply eqc_neq in E; auto.
Qed.

(* ================================================================= *)
(** ** The format error and the grammar *)

Section FormatError.

Context {T : Type} {HT : Tensor T}.

(** X15.  On a notation without a newline the constructor raises
    [ValueError] exactly when the notation, its braces left out, is not
    of the grammar: an optional [^] and a part, then possibly [_] and a
    part, or [_] and a part then [^] and a part, where a part is made of
    index symbols and of groups of two index symbols at least and has
    no letter twice. *)
Theorem init_value_error_iff (tensor : T) (indices : str) :
  ~ In newline indices ->
  (__init__ tensor indices = Raise ValueError
   <-> ~ exists con cov, spec_well_formed (strip_braces indices) con cov).
Proof.
  intros Hnl.
  destruct (check_conventions_grammar indices Hnl) as [Hok Herr].
  rewrite <- Herr, init_closed_form.
  destruct (check_conventions indices) as [[con cov]|e|] eqn:E.
  - destruct (negb _); [split; discriminate|].
    destruct (negb _); split; discriminate.
  - rewrite (check_conventions_raises _ _ E); tauto.
  - destruct (check_conventions_terminates _ E).
Qed.

End FormatError.

(* ================================================================= *)
(** ** The instance built and the ranks *)

Section Instance.

Context {T : Type} {HT : Tensor T} {HL : TensorLaws T}.

Lemma contract_at_lengths (zs : str) :
  forall (p : Z) (self : TensorWithIndices),
    letters_distinct (_con self) -> letters_distinct (_cov self) ->
    rightmost_first (_con self) (_cov self) zs ->
    (length (_con (contract_at p zs self)) + length zs
     = length (_con self))%nat
    /\ (length (_cov (contract_at p zs self)) + length zs
        = length (_cov self))%nat.
Proof.
  induction zs as [|x zs IH]; intros p self Hcon Hcov Hr.
  - cbn [contract_at length]; lia.
  - cbn [rightmost_first] in Hr.
    destruct Hr as [Hx [Hxcon [Hxcov [Hlt Hr]]]].
    pose proof (length_remove_once _ _ Hcon Hx Hxcon) as L1.
    pose proof (length_remove_once _ _ Hcov Hx Hxcov) as L2.
    cbn [contract_at length].
    match goal with
    | |- context [contract_at ?q zs ?s] =>
        destruct (IH q s) as [E1 E2]
    end.
    + apply letters_distinct_remove; exact Hcon.
    + apply letters_distinct_remove; exact Hcov.
    + apply rightmost_first_remove; assumption.
    + cbn [_con _cov] in E1, E2; lia.
Qed.

(** X16.  The ranks.  With [n] the number of letters that the two
    parts of the notation share, the instance built holds a tensor of
    the type of the tensor given lowered by [n] in both ranks, and its
    parts are those of the notation, without their punctuation,
    shortened by [n] symbols each; they have the lengths of the type of
    the tensor held. *)
Theorem init_rank_accounting (tensor : T) (indices con cov : str)
        (self : TensorWithIndices) :
  check_conventions indices = Ok (con, cov) ->
  __init__ tensor indices = Ok self ->
  let n := length (shared_letters (without_sym con) (without_sym cov)) in
  (fst (tensor_type (_tensor self)) + n = fst (tensor_type tensor))%nat
  /\ (snd (tensor_type (_tensor self)) + n = snd (tensor_type tensor))%nat
  /\ (length (_con self) + n = length (without_sym con))%nat
  /\ (length (_cov self) + n = length (without_sym cov))%nat
  /\ tensor_type (_tensor self) = (length (_con self), length (_cov self)).
Proof.
  intros Hc Hinit n.
  destruct (init_ok_inv _ _ _ Hinit) as [con' [cov' [Hc' [L1 [L2 Hself]]]]].
  rewrite Hc in Hc'; injection Hc' as <- <-.
  pose proof (check_conventions_inv _ _ _ Hc) as [_ [R1 R2]].
  apply repeated_indices_spec in R1, R2.
  set (start := spec_after_groups tensor con cov) in *.
  set (zs := rev (shared_letters (without_sym con) (without_sym cov))) in *.
  assert (Hr : rightmost_first (_con start) (_cov start) zs)
    by (apply shared_rightmost; exact R1).
  destruct (contract_at_letters zs start) as [E1 E2]; auto.
  { apply after_groups_type; assumption. }
  destruct (contract_at_lengths zs
              (Z.of_nat (fst (tensor_type (_tensor start)))) start R1 R2 Hr)
    as [N1 N2].
  rewrite <- Hself in N1, N2.
  assert (Hn : length zs = n) by (unfold zs, n; apply length_rev).
  assert (Hty : tensor_type (_tensor self)
                = (length (_con self), length (_cov self)))
    by (rewrite Hself, E1; exact E2).
  cbn [start spec_after_groups _con _cov] in N1, N2.
  unfold len in L1, L2; rewrite Hty; cbn [fst snd].
  repeat split; lia.
Qed.

(** X17.  The instance built from a notation without a newline: its
    parts are made of index symbols that the notation has, no letter is
    in both parts, no letter is twice in a part, and the parts have the
    lengths of the type of the tensor held. *)
Theorem instance_invariant (tensor : T) (indices : str)
        (self : TensorWithIndices) :
  __init__ tensor indices = Ok self -> ~ In newline indices ->
  (forall c, In c (_con self) \/ In c (_cov self) ->
             is_index_symbol c = true /\ In c indices)
  /\ (forall c, c <> "."%char -> In c (_con self) -> ~ In c (_cov self))
  /\ letters_distinct (_con self) /\ letters_distinct (_cov self)
  /\ tensor_type (_tensor self) = (length (_con self), length (_cov self)).
Proof.
  intros Hinit Hnl.
  destruct (init_invariant _ _ _ Hinit Hnl)
    as [Hcon [Hcov [Hsh [Dcon [Dcov Hty]]]]].
  split; [|auto].
  intros c Hin; split.
  - rewrite forallb_forall in Hcon, Hcov; destruct Hin; auto.
  - destruct (init_ok_inv _ _ _ Hinit) as [con [cov [Hc [_ [_ Hself]]]]].
    pose proof (check_conventions_inv _ _ _ Hc) as [Hs _].
    destruct (contract_at_parts
                (rev (shared_letters (without_sym con) (without_sym cov)))
                (Z.of_nat (fst (tensor_type
                                  (_tensor (spec_after_groups tensor con cov)))))
                (spec_after_groups tensor con cov)) as [P1 [P2 _]].
    rewrite <- Hself in P1, P2.
    assert (Hw : forall s x, In x (without_sym s) -> In x s).
    { intros s x Hx; unfold without_sym in Hx.
      repeat (apply In_remove_char in Hx as [Hx _]); exact Hx. }
    assert (Hpart : In c con \/ In c cov).
    { destruct Hin as [Hin|Hin].
      - left; apply Hw, (proj1 (P1 c) Hin).
      - right; apply Hw, (proj1 (P2 c) Hin). }
    apply strip_braces_In, (split_indices_In _ con cov c Hs Hpart).
Qed.

End Instance.

(* ================================================================= *)
(** ** The positions of the traces *)

Lemma rightmost_first_prefix (con cov a b : str) :
  rightmost_first con cov (a ++ b) -> rightmost_first con cov a.
Proof.
  induction a as [|x a IH]; [intros _; exact I|].
  cbn [app rightmost_first]; intros [Hx [Hcon [Hcov [Hlt Hr]]]].
  repeat split; auto.
  intros y Hy; apply Hlt, in_or_app; left; exact Hy.
Qed.

Lemma rightmost_first_fresh (con cov a b : str) (c : ascii) :
  rightmost_first con cov (a ++ c :: b) -> ~ In c a.
Proof.
  induction a as [|x a IH]; [intros _ []|].
  cbn [app rightmost_first]; intros [_ [_ [_ [Hlt Hr]]]] [->|Hin].
  - assert (H : position c con < position c con)
      by (apply Hlt, in_or_app; right; left; reflexivity).
    lia.
  - exact (IH Hr Hin).
Qed.

Section TracePositions.

Context {T : Type} {HT : Tensor T} {HL : TensorLaws T}.

(** X18.  The positions that the traces receive.  Let the letters to
    contract, from the rightmost of the contravariant part leftwards,
    be [zs1], then [c], then [zs2].  After the contractions on [zs1]
    the letter [c] is still in both parts; the trace on [c] is taken on
    a contravariant and on a covariant position of the tensor then
    held, both within its type; and the instance built is what the
    contractions on [zs2] make of the result. *)
Theorem init_trace_positions (tensor : T) (indices con cov : str)
        (self : TensorWithIndices) (zs1 zs2 : str) (c : ascii) :
  check_conventions indices = Ok (con, cov) ->
  __init__ tensor indices = Ok self ->
  rev (shared_letters (without_sym con) (without_sym cov)) = zs1 ++ c :: zs2 ->
  let cur := spec_contract_letters zs1 (spec_after_groups tensor con cov) in
  let k := Z.of_nat (fst (tensor_type (_tensor cur))) in
  let l := Z.of_nat (snd (tensor_type (_tensor cur))) in
  In c (_con cur) /\ In c (_cov cur)
  /\ 0 <= position c (_con cur) < k
  /\ k <= k + position c (_cov cur) < k + l
  /\ self = spec_contract_letters zs2 (spec_contract_letter cur c).
Proof.
  intros Hc Hinit Hzs.
  destruct (init_ok_inv _ _ _ Hinit) as [con' [cov' [Hc' [L1 [L2 Hself]]]]].
  rewrite Hc in Hc'; injection Hc' as <- <-.
  pose proof (check_conventions_inv _ _ _ Hc) as [_ [R1 R2]].
  apply repeated_indices_spec in R1, R2.
  set (start := spec_after_groups tensor con cov) in *.
  assert (Hty : tensor_type (_tensor start)
                = (length (_con start), length (_cov start)))
    by (apply after_groups_type; assumption).
  assert (Hr : rightmost_first (_con start) (_cov start)
                               (zs1 ++ c :: zs2)).
  { rewrite <- Hzs; apply shared_rightmost; exact R1. }
  destruct (contract_at_letters (zs1 ++ c :: zs2) start Hty R1 R2 Hr)
    as [E _].
  destruct (contract_at_letters zs1 start Hty R1 R2
              (rightmost_first_prefix _ _ _ _ Hr)) as [E1 E2].
  destruct (contract_at_parts zs1
              (Z.of_nat (fst (tensor_type (_tensor start)))) start)
    as [P1 [P2 _]].
  rewrite E1 in P1, P2.
  destruct (rightmost_first_In _ _ _ c Hr) as [_ [Icon Icov]];
    [apply in_or_app; right; left; reflexivity|].
  pose proof (rightmost_first_fresh _ _ _ _ _ Hr) as Hfresh.
  cbv zeta.
  assert (I1 : In c (_con (spec_contract_letters zs1 start)))
    by (apply P1; auto).
  assert (I2 : In c (_cov (spec_contract_letters zs1 start)))
    by (apply P2; auto).
  pose proof (position_bounds c (_con (spec_contract_letters zs1 start))).
  pose proof (position_bounds c (_cov (spec_contract_letters zs1 start))).
  pose proof (position_In _ _ I1); pose proof (position_In _ _ I2).
  rewrite E2; cbn [fst snd]; unfold len in *.
  split; [exact I1|]; split; [exact I2|]; split; [lia|]; split; [lia|].
  rewrite Hself, Hzs, E; unfold spec_contract_letters.
  rewrite fold_left_app; reflexivity.
Qed.

End TracePositions.

(* ================================================================= *)
(** ** The free implementation with arithmetic satisfies the laws *)

Lemma positions_eqb_refl (p : list Z) : FreeArith.positions_eqb p p = true.
Proof.
  induction p as [|x p IH]; [reflexivity|].
  cbn [FreeArith.positions_eqb]; rewrite Z.eqb_refl, IH; reflexivity.
Qed.

Lemma free_eqb_refl (t : FreeArith.tensor) : FreeArith.eqb t t = true.
Proof.
  induction t; cbn [FreeArith.eqb];
    rewrite ?IHt, ?IHt1, ?IHt2, ?positions_eqb_refl, ?Z.eqb_refl,
      ?String.eqb_refl, ?Nat.eqb_refl; reflexivity.
Qed.

#[global] Instance free_arith_tensor_laws : TensorLaws FreeArith.tensor.
Proof.
  constructor; intros; reflexivity.
Qed.

#[global] Instance free_arith_laws : TensorArithLaws FreeArith.tensor.
Proof.
  constructor; intros; try reflexivity.
  cbn; rewrite free_eqb_refl; reflexivity.
Qed.

(* ================================================================= *)
(** ** The theorems at work *)

(** C3 as it is stated fails on [a^ij * b^ik]: no letter of a part of
    the first operand is in the part of the other variance of the
    second, and the product is not the tensor product but an
    [IndexError]. *)
Lemma mul_collision_counterexample :
  __init__ (Free.Named "a" 2 0) (lit "^ij")
  = Ok {| _tensor := Free.Named "a" 2 0; _changed := false;
          _con := lit "ij"; _cov := [] |}
  /\ __init__ (Free.Named "b" 2 0) (lit "^ik")
     = Ok {| _tensor := Free.Named "b" 2 0; _changed := false;
             _con := lit "ik"; _cov := [] |}
  /\ shared_letters (lit "ij") [] = []
  /\ shared_letters [] (lit "ik") = []
  /\ __mul__ {| _tensor := Free.Named "a" 2 0; _changed := false;
                _con := lit "ij"; _cov := [] |}
             (VIndexed {| _tensor := Free.Named "b" 2 0; _changed := false;
                          _con := lit "ik"; _cov := [] |})
     = Raise IndexError.
Proof. repeat split; vm_compute; reflexivity. Qed.



Lemma mul_product_or_contract_witness :
  (forall c, c <> "."%char ->
             ~ (In c (lit "ik") /\ In c []) /\ ~ (In c [] /\ In c (lit "kj")))
  /\ ~ (shared_letters (lit "ik") (lit "kj") = []
        /\ shared_letters [] [] = [])
  /\ __mul__ {| _tensor := Free.Named "a" 2 0; _changed := false;
                _con := lit "ik"; _cov := [] |}
             (VIndexed {| _tensor := Free.Named "b" 0 2; _changed := false;
                          _con := []; _cov := lit "kj" |})
     = Ok (Free.Contract (Free.Named "a" 2 0) [1] (Free.Named "b" 0 2) [0])
  /\ __mul__ {| _tensor := Free.Named "a" 2 0; _changed := false;
                _con := lit "ij"; _cov := [] |}
             (VIndexed {| _tensor := Free.Named "b" 0 1; _changed := false;
                          _con := []; _cov := lit "k" |})
     = Ok (Free.Product (Free.Named "a" 2 0) (Free.Named "b" 0 1)).
Proof.
  assert (Hno : forall (a b : str) (c : ascii),
             ~ (In c a /\ In c []) /\ ~ (In c [] /\ In c b)).
  { intros a b c; split; intros [H1 H2]; contradiction. }
  split; [intros c _; apply Hno|].
  split; [intros [E _]; discriminate|].
  split.
  - exact (proj2 (mul_product_or_contract
                    {| _tensor := Free.Named "a" 2 0; _changed := false;
                       _con := lit "ik"; _cov := [] |}
                    {| _tensor := Free.Named "b" 0 2; _changed := false;
                       _con := []; _cov := lit "kj" |}
                    (fun c _ => Hno _ _ c))
                 (fun E => eq_ind (shared_letters (lit "ik") (lit "kj"))
                             (fun l => match l with [] => False | _ => True end)
                             I [] (proj1 E))).
  - exact (proj1 (mul_product_or_contract
                    {| _tensor := Free.Named "a" 2 0; _changed := false;
                       _con := lit "ij"; _cov := [] |}
                    {| _tensor := Free.Named "b" 0 1; _changed := false;
                       _con := []; _cov := lit "k" |}
                    (fun c _ => Hno _ _ c))
                 (conj eq_refl eq_refl)).
Defined.

Lemma init_rank_mismatch_witness :
  check_conventions (lit "ab_c") = Ok (lit "ab", lit "c")
  /\ (__init__ (Free.Named "t" 2 2) (lit "ab_c") = Raise IndexError
      <-> len (without_sym (lit "ab")) <> Z.of_nat 2
          \/ len (without_sym (lit "c")) <> Z.of_nat 2)
  /\ __init__ (Free.Named "t" 2 2) (lit "ab_c") <> Raise ValueError
  /\ IndexError <> ValueError
  /\ (~ In newline (lit "ab_c") ->
      without_sym (lit "ab") = filter is_index_symbol (lit "ab")
      /\ without_sym (lit "c") = filter is_index_symbol (lit "c")).
Proof.
  split; [vm_compute; reflexivity|].
  exact (init_rank_mismatch (Free.Named "t" 2 2) (lit "ab_c")
                            (lit "ab") (lit "c") eq_refl).
Defined.

Lemma notation_variants_witness :
  tensor_type (Free.Named "t" 2 1) = (2, 1)%nat
  /\ strip_braces (lit "^{ab}_{c}") = strip_braces (lit "^ab_c")
  /\ ~ In "^"%char (lit "ab_c")
  /\ __init__ (Free.Named "t" 2 1) (lit "ab_c")
     = Ok {| _tensor := Free.Named "t" 2 1; _changed := false;
             _con := lit "ab"; _cov := lit "c" |}
  /\ __init__ (Free.Named "t" 2 1) (lit "^{ab}_{c}")
     = __init__ (Free.Named "t" 2 1) (lit "^ab_c")
  /\ __init__ (Free.Named "t" 2 1) ("^"%char :: lit "ab_c")
     = __init__ (Free.Named "t" 2 1) (lit "ab_c").
Proof.
  pose proof (notation_variants (Free.Named "t" 2 1))
    as [_ [_ [H1 [H2 [_ H3]]]]].
  assert (Hn : ~ In "^"%char (lit "ab_c")).
  { simpl; intros [E|[E|[E|[E|[]]]]]; discriminate. }
  split; [reflexivity|]; split; [reflexivity|]; split; [exact Hn|].
  split; [exact (H1 eq_refl)|]; split.
  - exact (H2 (lit "^{ab}_{c}") (lit "^ab_c") eq_refl).
  - exact (H3 (lit "ab_c") Hn).
Defined.

Lemma update_returns_witness :
  (exists this,
      new_instance [] (Free.Named "t" 2 2) (lit "ij_kl") = Ok ([this], 0%nat)
      /\ new_instance [this] (Free.Named "t" 2 2) (lit "ij_kl")
         = Ok ([this; this], 1%nat)
      /\ _changed this = false
      /\ update_object [this; this] 0%nat
         = Some ([this; this], OIndexed 0%nat)
      /\ same_object (T := Free.tensor) (OIndexed 0%nat) 0%nat = true
      /\ same_object (T := Free.tensor) (OIndexed 0%nat) 1%nat = false)
  /\ (exists this,
         new_instance [] (Free.Named "t" 2 2) (lit "(ij)_kl")
         = Ok ([this], 0%nat)
         /\ _changed this = true
         /\ update_object [this] 0%nat
            = Some ([this],
                    OTensor (Free.Symmetrize (Free.Named "t" 2 2) [0; 1]))).
Proof.
  split.
  - assert (Hnew : new_instance [] (Free.Named "t" 2 2) (lit "ij_kl")
                   = Ok ([{| _tensor := Free.Named "t" 2 2;
                             _changed := false;
                             _con := lit "ij"; _cov := lit "kl" |}], 0%nat))
      by (vm_compute; reflexivity).
    destruct (update_returns [] _ (Free.Named "t" 2 2) (lit "ij_kl") 0%nat
                             Hnew) as [this [Hinit [_ Hall]]].
    assert (Hthis : this = {| _tensor := Free.Named "t" 2 2;
                              _changed := false;
                              _con := lit "ij"; _cov := lit "kl" |}).
    { assert (E : __init__ (Free.Named "t" 2 2) (lit "ij_kl")
                  = Ok {| _tensor := Free.Named "t" 2 2; _changed := false;
                          _con := lit "ij"; _cov := lit "kl" |})
        by (vm_compute; reflexivity).
      rewrite E in Hinit; injection Hinit as <-; reflexivity. }
    subst this.
    destruct (Hall [{| _tensor := Free.Named "t" 2 2; _changed := false;
                       _con := lit "ij"; _cov := lit "kl" |}])
      as [Hd [_ Hun]].
    destruct (Hun eq_refl) as [Hup [Hsame Hcopy]].
    eexists; split; [exact Hnew|].
    split; [vm_compute; reflexivity|].
    split; [reflexivity|]; split; [exact Hup|]; split; [exact Hsame|].
    apply Hcopy; [reflexivity | discriminate].
  - assert (Hnew : new_instance [] (Free.Named "t" 2 2) (lit "(ij)_kl")
                   = Ok ([{| _tensor := Free.Symmetrize (Free.Named "t" 2 2)
                                                        [0; 1];
                             _changed := true;
                             _con := lit "ij"; _cov := lit "kl" |}], 0%nat))
      by (vm_compute; reflexivity).
    destruct (update_returns [] _ (Free.Named "t" 2 2) (lit "(ij)_kl") 0%nat
                             Hnew) as [this [Hinit [_ Hall]]].
    assert (Hthis : this = {| _tensor := Free.Symmetrize (Free.Named "t" 2 2)
                                                         [0; 1];
                              _changed := true;
                              _con := lit "ij"; _cov := lit "kl" |}).
    { assert (E : __init__ (Free.Named "t" 2 2) (lit "(ij)_kl")
                  = Ok {| _tensor := Free.Symmetrize (Free.Named "t" 2 2)
                                                     [0; 1];
                          _changed := true;
                          _con := lit "ij"; _cov := lit "kl" |})
        by (vm_compute; reflexivity).
      rewrite E in Hinit; injection Hinit as <-; reflexivity. }
    subst this.
    destruct (Hall []) as [_ [Hch _]].
    eexists; split; [exact Hnew|]; split; [reflexivity|].
    exact (Hch eq_refl).
Defined.

Lemma init_no_operation_witness :
  exists self,
    check_conventions (lit "_c^ab") = Ok (lit "ab", lit "c")
    /\ __init__ (Free.Named "t" 2 1) (lit "_c^ab") = Ok self
    /\ existsb is_open (lit "_c^ab") = false
    /\ shared_letters (lit "ab") (lit "c") = []
    /\ self = {| _tensor := Free.Named "t" 2 1; _changed := false;
                 _con := lit "ab"; _cov := lit "c" |}.
Proof.
  eexists.
  split; [vm_compute; reflexivity|].
  split; [vm_compute; reflexivity|].
  split; [reflexivity|]; split; [reflexivity|].
  apply (init_no_operation (Free.Named "t" 2 1) (lit "_c^ab")
                           (lit "ab") (lit "c"));
    vm_compute; reflexivity.
Defined.

(* ================================================================= *)
(** ** The further theorems at work *)

Lemma init_reads_type_only_witness :
  exists self,
    __init__ (Free.Named "t" 2 2) (lit "(ij)_jk") = Ok self
    /\ exists self',
        __init__ (Free.Named "u" 2 2) (lit "(ij)_jk") = Ok self'
        /\ _con self' = _con self /\ _cov self' = _cov self
        /\ _changed self' = _changed self.
Proof.
  eexists; split; [vm_compute; reflexivity|].
  exact (init_reads_type_only (Free.Named "t" 2 2) (Free.Named "u" 2 2)
                              (lit "(ij)_jk") _ eq_refl eq_refl).
Defined.

Lemma arithmetic_refuses_newline_witness :
  __init__ (FreeArith.Named "t" 3 0) (lit "ab" ++ [newline])
  = Ok {| _tensor := FreeArith.Named "t" 3 0; _changed := false;
          _con := lit "ab" ++ [newline]; _cov := [] |}
  /\ __pos__ {| _tensor := FreeArith.Named "t" 3 0; _changed := false;
                _con := lit "ab" ++ [newline]; _cov := [] |}
     = Raise ValueError
  /\ __neg__ {| _tensor := FreeArith.Named "t" 3 0; _changed := false;
                _con := lit "ab" ++ [newline]; _cov := [] |}
     = Raise ValueError
  /\ forall other,
      __rmul__ {| _tensor := FreeArith.Named "t" 3 0; _changed := false;
                  _con := lit "ab" ++ [newline]; _cov := [] |} other
      = Raise ValueError.
Proof.
  split; [vm_compute; reflexivity|].
  apply (arithmetic_refuses_newline
           {| _tensor := FreeArith.Named "t" 3 0; _changed := false;
              _con := lit "ab" ++ [newline]; _cov := [] |}).
  apply contains_In; vm_compute; reflexivity.
Defined.

Lemma arithmetic_keeps_indices_witness :
  exists self,
    __init__ (FreeArith.Named "a" 2 1) (lit "ij_k") = Ok self
    /\ __pos__ self
       = Ok {| _tensor := FreeArith.Pos (FreeArith.Named "a" 2 1);
               _changed := false; _con := lit "ij"; _cov := lit "k" |}
    /\ __neg__ self
       = Ok {| _tensor := FreeArith.Neg (FreeArith.Named "a" 2 1);
               _changed := false; _con := lit "ij"; _cov := lit "k" |}
    /\ forall other,
        __rmul__ self other
        = Ok {| _tensor := FreeArith.Scal other (FreeArith.Named "a" 2 1);
                _changed := false; _con := lit "ij"; _cov := lit "k" |}.
Proof.
  eexists; split; [vm_compute; reflexivity|].
  assert (Hn : ~ In newline (lit "ij_k"))
    by (apply contains_not_In; vm_compute; reflexivity).
  assert (Hne : lit "ij" <> [] \/ lit "k" <> []) by (left; discriminate).
  exact (arithmetic_keeps_indices (FreeArith.Named "a" 2 1) (lit "ij_k")
                                  _ eq_refl Hn Hne).
Defined.

Lemma repr_reads_back_witness :
  exists self,
    __init__ (FreeArith.Named "a" 2 1) (lit "ij_k") = Ok self
    /\ _repr_ self = lit "a^ij_k"
    /\ exists notation,
        _repr_ self = shown_name self ++ notation
        /\ __init__ (_tensor self) notation
           = Ok {| _tensor := _tensor self; _changed := false;
                   _con := _con self; _cov := _cov self |}.
Proof.
  eexists; split; [vm_compute; reflexivity|].
  split; [vm_compute; reflexivity|].
  assert (Hn : ~ In newline (lit "ij_k"))
    by (apply contains_not_In; vm_compute; reflexivity).
  assert (Hne : lit "ij" <> [] \/ lit "k" <> []) by (left; discriminate).
  exact (repr_reads_back (FreeArith.Named "a" 2 1) (lit "ij_k")
                         _ eq_refl Hn Hne).
Defined.

Lemma update_after_init_witness :
  check_conventions (lit "^ij_kl") = Ok (lit "ij", lit "kl")
  /\ exists self,
      __init__ (Free.Named "t" 2 2) (lit "^ij_kl") = Ok self
      /\ update self = VIndexed self
      /\ _tensor self = Free.Named "t" 2 2.
Proof.
  split; [vm_compute; reflexivity|].
  eexists; split; [vm_compute; reflexivity|].
  pose proof (update_after_init (Free.Named "t" 2 2) (lit "^ij_kl")
                                (lit "ij") (lit "kl") _ eq_refl eq_refl)
    as [H1 [H2 _]].
  assert (Hu : update
                 {| _tensor := Free.Named "t" 2 2; _changed := false;
                    _con := lit "ij"; _cov := lit "kl" |}
               = VIndexed
                   {| _tensor := Free.Named "t" 2 2; _changed := false;
                      _con := lit "ij"; _cov := lit "kl" |})
    by (apply (proj2 H1); split; vm_compute; reflexivity).
  split; [exact Hu | exact (proj1 (H2 Hu))].
Defined.

Lemma eq_on_one_tensor_witness :
  exists self other,
    __init__ (FreeArith.Named "t" 2 1) (lit "ab_c") = Ok self
    /\ __init__ (FreeArith.Named "t" 2 1) (lit "ac_b") = Ok other
    /\ __eq__ self (VIndexed self) = Ok true
    /\ __ne__ self (VIndexed other) = Ok true.
Proof.
  eexists; eexists; split; [vm_compute; reflexivity|].
  split; [vm_compute; reflexivity|].
  pose proof (eq_on_one_tensor (FreeArith.Named "t" 2 1)
                               (lit "ab_c") (lit "ac_b") _ _
                               eq_refl eq_refl eq_refl eq_refl)
    as [H1 [_ H3]].
  split; [exact H1|].
  apply (proj2 H3); left; discriminate.
Defined.

Lemma init_wildcards_witness :
  dots (lit "(ij)_kl") = lit "(..)_.."
  /\ check_conventions (lit "(ij)_kl") = Ok (lit "(ij)", lit "kl")
  /\ __init__ (Free.Named "t" 2 2) (lit "(ij)_kl")
     = Ok {| _tensor := Free.Symmetrize (Free.Named "t" 2 2) [0; 1];
             _changed := true; _con := lit "ij"; _cov := lit "kl" |}
  /\ __init__ (Free.Named "t" 2 2) (dots (lit "(ij)_kl"))
     = Ok {| _tensor := Free.Symmetrize (Free.Named "t" 2 2) [0; 1];
             _changed := true; _con := lit ".."; _cov := lit ".." |}.
Proof.
  split; [vm_compute; reflexivity|].
  split; [vm_compute; reflexivity|].
  split; [vm_compute; reflexivity|].
  assert (Hn : ~ In newline (lit "(ij)_kl"))
    by (apply contains_not_In; vm_compute; reflexivity).
  exact (init_wildcards (Free.Named "t" 2 2) (lit "(ij)_kl")
                        (lit "(ij)") (lit "kl")
                        {| _tensor := Free.Symmetrize (Free.Named "t" 2 2)
                                                      [0; 1];
                           _changed := true;
                           _con := lit "ij"; _cov := lit "kl" |}
                        Hn eq_refl eq_refl eq_refl).
Defined.

Lemma init_groups_axes_witness :
  check_conventions (lit "a(bc)_[ab]c") = Ok (lit "a(bc)", lit "[ab]c")
  /\ spec_groups (lit "a(bc)") = [(true, 1, 3)]
  /\ spec_groups (lit "[ab]c") = [(false, 0, 2)]
  /\ groups_apart 0 (len (without_sym (lit "a(bc)")))
                  (spec_groups (lit "a(bc)"))
  /\ groups_apart 0 (len (without_sym (lit "[ab]c")))
                  (spec_groups (lit "[ab]c")).
Proof.
  split; [vm_compute; reflexivity|].
  split; [vm_compute; reflexivity|].
  split; [vm_compute; reflexivity|].
  pose proof (@init_groups_axes Free.tensor _ (lit "a(bc)_[ab]c")
                                (lit "a(bc)") (lit "[ab]c") eq_refl)
    as [_ [_ [H1 [H2 _]]]].
  split; [exact H1 | exact H2].
Defined.

Lemma mul_positions_witness :
  exists self other,
    __init__ (Free.Named "a" 2 0) (lit "^ik") = Ok self
    /\ __init__ (Free.Named "b" 0 2) (lit "_kj") = Ok other
    /\ mul_con_loop (_con self) self other [] = Ok [(1, 0)]
    /\ mul_cov_loop (_cov self) self other [(1, 0)] = Ok [(1, 0)]
    /\ (forall pos1 pos2,
           In (pos1, pos2) [(1, 0)] ->
           (0 <= pos1 < 2 /\ 0 <= pos2 < 0 + 2)
           \/ (2 <= pos1 < 2 + 0 /\ 0 <= pos2 < 0))
    /\ NoDup (map fst [(1, 0)]) /\ NoDup (map snd [(1, 0)]).
Proof.
  eexists; eexists; split; [vm_compute; reflexivity|].
  split; [vm_compute; reflexivity|].
  split; [vm_compute; reflexivity|].
  split; [vm_compute; reflexivity|].
  assert (H1 : ~ In newline (lit "^ik"))
    by (apply contains_not_In; vm_compute; reflexivity).
  assert (H2 : ~ In newline (lit "_kj"))
    by (apply contains_not_In; vm_compute; reflexivity).
  exact (mul_positions (Free.Named "a" 2 0) (Free.Named "b" 0 2)
                       (lit "^ik") (lit "_kj") _ _ [(1, 0)] [(1, 0)]
                       eq_refl H1 eq_refl H2 eq_refl eq_refl).
Defined.

Lemma mul_swap_witness :
  exists self other,
    __init__ (Free.Named "a" 2 0) (lit "^ik") = Ok self
    /\ __init__ (Free.Named "b" 0 2) (lit "_kj") = Ok other
    /\ mul_con_loop (_con self) self other [] = Ok [(1, 0)]
    /\ mul_cov_loop (_cov self) self other [(1, 0)] = Ok [(1, 0)]
    /\ exists pairs1' pairs',
        mul_con_loop (_con other) other self [] = Ok pairs1'
        /\ mul_cov_loop (_cov other) other self pairs1' = Ok pairs'
        /\ Permutation pairs' (map (fun p => (snd p, fst p)) [(1, 0)]).
Proof.
  eexists; eexists; split; [vm_compute; reflexivity|].
  split; [vm_compute; reflexivity|].
  split; [vm_compute; reflexivity|].
  split; [vm_compute; reflexivity|].
  assert (H1 : ~ In newline (lit "^ik"))
    by (apply contains_not_In; vm_compute; reflexivity).
  assert (H2 : ~ In newline (lit "_kj"))
    by (apply contains_not_In; vm_compute; reflexivity).
  exact (proj2 (mul_swap (Free.Named "a" 2 0) (Free.Named "b" 0 2)
                         (lit "^ik") (lit "_kj") _ _
                         eq_refl H1 eq_refl H2)
               [(1, 0)] [(1, 0)] eq_refl eq_refl).
Defined.

Lemma init_value_error_iff_witness :
  __init__ (Free.Named "t" 2 1) (lit "ab_(c") = Raise ValueError
  /\ (__init__ (Free.Named "t" 2 1) (lit "ab_(c") = Raise ValueError
      <-> ~ exists con cov,
            spec_well_formed (strip_braces (lit "ab_(c")) con cov).
Proof.
  split; [vm_compute; reflexivity|].
  apply (init_value_error_iff (Free.Named "t" 2 1) (lit "ab_(c")).
  apply contains_not_In; vm_compute; reflexivity.
Defined.

Lemma init_rank_accounting_witness :
  check_conventions (lit "^k.l_lk.") = Ok (lit "k.l", lit "lk.")
  /\ length (shared_letters (without_sym (lit "k.l"))
                            (without_sym (lit "lk."))) = 2%nat
  /\ exists self,
      __init__ (Free.Named "t" 3 3) (lit "^k.l_lk.") = Ok self
      /\ tensor_type (_tensor self) = (1, 1)%nat
      /\ (fst (tensor_type (_tensor self)) + 2 = 3)%nat
      /\ (length (_con self) + 2 = 3)%nat.
Proof.
  split; [vm_compute; reflexivity|].
  split; [vm_compute; reflexivity|].
  eexists; split; [vm_compute; reflexivity|].
  split; [vm_compute; reflexivity|].
  pose proof (init_rank_accounting (Free.Named "t" 3 3) (lit "^k.l_lk.")
                                   (lit "k.l") (lit "lk.") _ eq_refl eq_refl)
    as [H1 [_ [H3 _]]].
  split; [exact H1 | exact H3].
Defined.

Lemma instance_invariant_witness :
  exists self,
    __init__ (Free.Named "t" 3 3) (lit "^k.l_lk.") = Ok self
    /\ letters_distinct (_con self) /\ letters_distinct (_cov self)
    /\ tensor_type (_tensor self) = (length (_con self), length (_cov self)).
Proof.
  eexists; split; [vm_compute; reflexivity|].
  assert (Hn : ~ In newline (lit "^k.l_lk."))
    by (apply contains_not_In; vm_compute; reflexivity).
  exact (proj2 (proj2 (instance_invariant (Free.Named "t" 3 3)
                                          (lit "^k.l_lk.") _ eq_refl Hn))).
Defined.

Lemma init_trace_positions_witness :
  check_conventions (lit "^k.l_lk.") = Ok (lit "k.l", lit "lk.")
  /\ rev (shared_letters (without_sym (lit "k.l")) (without_sym (lit "lk.")))
     = lit "l" ++ "k"%char :: []
  /\ exists self,
      __init__ (Free.Named "t" 3 3) (lit "^k.l_lk.") = Ok self
      /\ spec_contract_letters
           (lit "l") (spec_after_groups (Free.Named "t" 3 3)
                                        (lit "k.l") (lit "lk."))
         = {| _tensor := Free.Trace (Free.Named "t" 3 3) 2 3;
              _changed := true; _con := lit "k."; _cov := lit "k." |}
      /\ 0 <= position "k" (lit "k.") < 2
      /\ 2 <= 2 + position "k" (lit "k.") < 2 + 2.
Proof.
  split; [vm_compute; reflexivity|].
  split; [vm_compute; reflexivity|].
  eexists; split; [vm_compute; reflexivity|].
  split; [vm_compute; reflexivity|].
  pose proof (init_trace_positions (Free.Named "t" 3 3) (lit "^k.l_lk.")
                                   (lit "k.l") (lit "lk.") _
                                   (lit "l") [] "k"%char
                                   eq_refl eq_refl eq_refl)
    as [_ [_ [H1 [H2 _]]]].
  split; [exact H1 | exact H2].
Defined.

(* ================================================================= *)
(** ** The examples of the docstrings *)

(** The groups of a part: their kinds and the axes they span. *)
Example groups_of_a_part :
  spec_groups (lit "a(bc)d[ef.]") = [(true, 1, 3); (false, 4, 7)]
  /\ spec_groups (lit "(..)(..)") = [(true, 0, 2); (true, 2, 4)]
  /\ spec_groups (lit "ab") = [].
Proof. repeat split; reflexivity. Qed.

(** [t['^ij_kl']], [t['ij_kl']] and [t['^{ij}_{kl}']] are [t^ij_kl]. *)
Example doc_plain :
  __init__ doc_t (lit "^ij_kl")
  = Ok {| _tensor := doc_t; _changed := false;
          _con := lit "ij"; _cov := lit "kl" |}
  /\ __init__ doc_t (lit "ij_kl") = __init__ doc_t (lit "^ij_kl")
  /\ __init__ doc_t (lit "^{ij}_{kl}") = __init__ doc_t (lit "^ij_kl").
Proof. repeat split; vm_compute; reflexivity. Qed.

(** [t['^(ij)_kl'] == t.symmetrize(0,1)], also with dots, and
    [t['^ij_[kl]'] == t.antisymmetrize(2,3)]. *)
Example doc_symmetries :
  doc_getitem doc_t "^(ij)_kl" = Ok (VTensor (symmetrize doc_t [0; 1]))
  /\ doc_getitem doc_t "^(..)_.." = Ok (VTensor (symmetrize doc_t [0; 1]))
  /\ doc_getitem doc_t "^ij_[kl]"
     = Ok (VTensor (antisymmetrize doc_t [2; 3])).
Proof. repeat split; vm_compute; reflexivity. Qed.

(** [aa["(..)(..)"] == aa.symmetrize(0,1).symmetrize(2,3)] *)
Example doc_two_groups :
  doc_getitem doc_aa "(..)(..)"
  = Ok (VTensor (symmetrize (symmetrize doc_aa [0; 1]) [2; 3]))
  /\ doc_getitem doc_aa "[..](..)"
     = Ok (VTensor (symmetrize (antisymmetrize doc_aa [0; 1]) [2; 3])).
Proof. repeat split; vm_compute; reflexivity. Qed.

(** [t['^ki_kj'] == t.trace(0,2)], also as [t['^k._k.']]; and
    [(a*b)['^kl_kl']], [(a*b)['_kl^kl']] are two traces. *)
Example doc_traces :
  doc_getitem doc_t "^ki_kj" = Ok (VTensor (trace doc_t 0 2))
  /\ doc_getitem doc_t "^k._k." = Ok (VTensor (trace doc_t 0 2))
  /\ doc_getitem doc_t "^kl_kl"
     = Ok (VTensor (trace (trace doc_t 1 3) 0 1))
  /\ doc_getitem doc_t "_kl^kl"
     = Ok (VTensor (trace (trace doc_t 1 3) 0 1)).
Proof. repeat split; vm_compute; reflexivity. Qed.

(** [a['^ik'] * b['_kj'] == a.contract(1, b, 0)],
    [t['^.k_..'] * b['_.k'] == t.contract(1, b, 1)],
    [a['^kl'] * b['_kl'] == a.contract(0,1, b, 0,1)] and
    [a['^ij'] * b['_kl'] == a*b]. *)
Example doc_products :
  (self <- __init__ doc_a (lit "^ik") ;;
   other <- __init__ doc_b (lit "_kj") ;; __mul__ self (VIndexed other))
  = Ok (contract doc_a [1] doc_b [0])
  /\ (self <- __init__ doc_t (lit "^.k_..") ;;
      other <- __init__ doc_b (lit "_.k") ;; __mul__ self (VIndexed other))
     = Ok (contract doc_t [1] doc_b [1])
  /\ (self <- __init__ doc_t (lit "^{ik}_{jl}") ;;
      other <- __init__ doc_b (lit "_{mk}") ;; __mul__ self (VIndexed other))
     = Ok (contract doc_t [1] doc_b [1])
  /\ (self <- __init__ doc_a (lit "^kl") ;;
      other <- __init__ doc_b (lit "_kl") ;; __mul__ self (VIndexed other))
     = Ok (contract doc_a [0; 1] doc_b [0; 1])
  /\ (self <- __init__ doc_a (lit "^ij") ;;
      other <- __init__ doc_b (lit "_kl") ;; __mul__ self (VIndexed other))
     = Ok (tensor_product doc_a doc_b).
Proof. repeat split; vm_compute; reflexivity. Qed.

(** The notations that the docstring gives as refused: nested groups,
    an unbalanced parenthesis, a repeated index, two contravariant
    parts, and a symbol that is no ASCII letter (the two bytes of an
    accentuated letter). *)
Example doc_refused :
  __init__ doc_a (lit "([..])") = Raise ValueError
  /\ __init__ doc_a (lit "(..") = Raise ValueError
  /\ __init__ doc_a (lit "ii") = Raise ValueError
  /\ __init__ doc_aa (lit "^(ij)^(kl)") = Raise ValueError
  /\ __init__ doc_a ("^"%char :: ascii_of_nat 195 :: ascii_of_nat 169
                       :: lit "a") = Raise ValueError.
Proof. repeat split; vm_compute; reflexivity. Qed.

(** [a_ind.update() is a_ind] for [a^i_j], and the trace for ['k_k']. *)
Example doc_update :
  doc_getitem (Free.Named "a" 1 1) "i_j"
  = Ok (VIndexed {| _tensor := Free.Named "a" 1 1; _changed := false;
                    _con := lit "i"; _cov := lit "j" |})
  /\ doc_getitem (Free.Named "a" 1 1) "k_k"
     = Ok (VTensor (trace (Free.Named "a" 1 1) 0 1)).
Proof. repeat split; vm_compute; reflexivity. Qed.

(** [_repr_]: ['t^ab_c'] and ['t_ij']. *)
Example doc_repr :
  (self <- __init__ (FreeArith.Named "t" 2 1) (lit "ab_c") ;;
   Ok (_repr_ self)) = Ok (lit "t^ab_c")
  /\ (self <- __init__ (FreeArith.Named "t" 0 2) (lit "_{ij}") ;;
      Ok (_repr_ self)) = Ok (lit "t_ij")
  /\ (self <- __init__ (FreeArith.Named "a" 1 1) (lit "k_k") ;;
      Ok (_repr_ self)) = Ok (lit "scalar").
Proof. repeat split; vm_compute; reflexivity. Qed.

(** [__eq__] and [__ne__]: [ti == TensorWithIndices(t, '^{ab}_c')] is
    true and [ti == TensorWithIndices(t, 'ac_b')] is false. *)
Example doc_eq :
  (ti <- __init__ (FreeArith.Named "t" 2 1) (lit "ab_c") ;;
   other <- __init__ (FreeArith.Named "t" 2 1) (lit "^{ab}_c") ;;
   __eq__ ti (VIndexed other)) = Ok true
  /\ (ti <- __init__ (FreeArith.Named "t" 2 1) (lit "ab_c") ;;
      other <- __init__ (FreeArith.Named "t" 2 1) (lit "ac_b") ;;
      __eq__ ti (VIndexed other)) = Ok false
  /\ (ti <- __init__ (FreeArith.Named "t" 2 1) (lit "ab_c") ;;
      other <- __init__ (FreeArith.Named "t" 2 1) (lit "^{ab}_c") ;;
      __ne__ ti (VIndexed other)) = Ok false
  /\ (ti <- __init__ (FreeArith.Named "t" 2 1) (lit "ab_c") ;;
      other <- __init__ (FreeArith.Named "t" 2 1) (lit "ac_b") ;;
      __ne__ ti (VIndexed other)) = Ok true.
Proof. repeat split; vm_compute; reflexivity. Qed.

(** [__rmul__], [__pos__] and [__neg__] on [ai = TensorWithIndices(a,
    'ij_k')]: the displays [X^ij_k], [+a^ij_k] and [-a^ij_k]. *)
Example doc_arithmetic :
  (ai <- __init__ (FreeArith.Named "a" 2 1) (lit "ij_k") ;;
   s <- __rmul__ ai 3 ;; Ok (_repr_ s, _tensor s))
  = Ok (lit "X^ij_k", FreeArith.Scal 3 (FreeArith.Named "a" 2 1))
  /\ (ai <- __init__ (FreeArith.Named "a" 2 1) (lit "ij_k") ;;
      s <- __pos__ ai ;; Ok (_repr_ s, _tensor s))
     = Ok (lit "+a^ij_k", FreeArith.Pos (FreeArith.Named "a" 2 1))
  /\ (ai <- __init__ (FreeArith.Named "a" 2 1) (lit "ij_k") ;;
      s <- __neg__ ai ;; Ok (_repr_ s, _tensor s))
     = Ok (lit "-a^ij_k", FreeArith.Neg (FreeArith.Named "a" 2 1)).
Proof. repeat split; vm_compute; reflexivity. Qed.

(** [update]: [a_ind.update() is a_ind] is true. *)
Example doc_update_is :
  exists objects a_ind,
    new_instance [] (Free.Named "a" 1 1) (lit "i_j") = Ok (objects, a_ind)
    /\ option_map (fun r => same_object (snd r) a_ind)
                  (update_object objects a_ind) = Some true.
Proof. eexists; eexists; split; vm_compute; reflexivity. Qed.
